(** * OpLog: per-CPU operation logs merged in timestamp order

    A shallow embedding of [include/oplog.hh]: the timestamped logger
    [tsc_logger], the k-way merge of [tsc_logged_object::flush_finish],
    the bounded merge of [mfs_logged_object::flush_finish_max_timestamp],
    the gather loops of [synchronize], [wait_synchronize] and
    [clear_loggers], and the per-CPU timestamp pairs of
    [mfs_logged_object].

    The embedding is sequential: one thread runs each member function
    to completion.  Calls that may fail to return are written with a
    fuel argument and report [Timeout] when the fuel is used up; a failed
    [assert] is [Fatal]. *)

From Stdlib Require Import Sorted.
From stdpp Require sorting.
From stdpp Require Import base numbers list functions.
Import list_basics.list list_relations.list.

Set Default Proof Using "Type".

(** ** Results of member functions *)

Inductive outcome (A : Type) : Type :=
| Ret (a : A)   (* the call returned *)
| Fatal         (* an assertion failed, or an iterator was used out of range *)
| Timeout.      (* the call did not return within the fuel *)
Arguments Ret {A} a.
Arguments Fatal {A}.
Arguments Timeout {A}.

Global Instance outcome_ret : MRet outcome := λ A a, Ret a.
Global Instance outcome_bind : MBind outcome := λ A B k m,
  match m with
  | Ret a => k a
  | Fatal => Fatal
  | Timeout => Timeout
  end.

Global Instance outcome_fmap : FMap outcome := λ A B f m,
  match m with
  | Ret a => Ret (f a)
  | Fatal => Fatal
  | Timeout => Timeout
  end.

Definition returns {A} (m : outcome A) : Prop := ∃ a, m = Ret a.

(** ** The C++ standard library as used by the header

    [std::sort] and [std::priority_queue] are not part of the repository.
    They enter the model through their contracts in the C++ standard, as
    type classes; every theorem about the header holds for each
    implementation of the contract. *)

(** [comp] is a strict weak ordering: asymmetric and negatively
    transitive. *)
Definition strict_weak_order {A} (comp : A → A → bool) : Prop :=
  (∀ a b, comp a b = true → comp b a = false) ∧
  (∀ a b c, comp a b = false → comp b c = false → comp a c = false).

(** [std::is_sorted(first, last, comp)]: no element compares less than
    its predecessor. *)
Fixpoint is_sorted {A} (comp : A → A → bool) (l : list A) : bool :=
  match l with
  | [] => true
  | a :: l' =>
      match l' with
      | [] => true
      | b :: _ => negb (comp b a) && is_sorted comp l'
      end
  end.

(** The order [std::sort] establishes: a later element never compares
    less than an earlier one. *)
Definition not_after {A} (comp : A → A → bool) (a b : A) : Prop :=
  comp b a = false.

(** [std::sort(first, last, comp)]: the range is rearranged so that it is
    sorted with respect to [comp].  The standard does not promise to keep
    the order of equivalent elements ([std::stable_sort] does). *)
Class StdSort := {
  std_sort : ∀ {A : Type}, (A → A → bool) → list A → list A;
  std_sort_perm : ∀ {A} (comp : A → A → bool) l,
    std_sort comp l ≡ₚ l;
  std_sort_sorted : ∀ {A} (comp : A → A → bool) l,
    strict_weak_order comp →
    StronglySorted (not_after comp) (std_sort comp l);
}.

(** [std::priority_queue<size_t, std::vector<size_t>, Compare>].  The
    comparison object of the header is a lambda that reads [posns] by
    reference, so each call is given the comparison as it stands at the
    time of the call.  [pq_elems] and [pq_heap] are ghost: the elements
    held, and the heap condition with respect to a comparison.  [top] is
    [c.front()], an element that compares less than no other; [pop]
    removes that element and restores the heap among the others without
    comparing the removed one. *)
Class StdPriorityQueue := {
  pq : Type;
  pq_make : (nat → nat → bool) → list nat → pq;
  pq_empty : pq → bool;
  pq_top : pq → option nat;
  pq_pop : (nat → nat → bool) → pq → pq;
  pq_push : (nat → nat → bool) → nat → pq → pq;
  pq_elems : pq → list nat;
  pq_heap : (nat → nat → bool) → pq → Prop;
  pq_make_spec : ∀ comp l,
    strict_weak_order comp →
    pq_heap comp (pq_make comp l) ∧ pq_elems (pq_make comp l) ≡ₚ l;
  pq_empty_spec : ∀ q, pq_empty q = true ↔ pq_elems q = [];
  pq_top_spec : ∀ comp q,
    strict_weak_order comp → pq_heap comp q → pq_elems q ≠ [] →
    ∃ t, pq_top q = Some t ∧ t ∈ pq_elems q ∧
         ∀ x, x ∈ pq_elems q → comp t x = false;
  pq_pop_spec : ∀ comp comp' q t,
    strict_weak_order comp' → pq_heap comp q → pq_top q = Some t →
    ∃ rest, pq_elems q ≡ₚ t :: rest ∧
            pq_elems (pq_pop comp' q) = rest ∧
            ((∀ a b, a ∈ rest → b ∈ rest → comp' a b = comp a b) →
             pq_heap comp' (pq_pop comp' q));
  pq_push_spec : ∀ comp q x,
    strict_weak_order comp → pq_heap comp q →
    pq_heap comp (pq_push comp x q) ∧
    pq_elems (pq_push comp x q) ≡ₚ x :: pq_elems q;
}.

(** Implementations of the contracts, used to run the model: insertion
    sorts that take the elements from the back of the range.
    [insert_last] puts an element behind its equivalents, [insert_first]
    in front of them. *)
Fixpoint insert_last {A} (comp : A → A → bool) (x : A) (l : list A) : list A :=
  match l with
  | [] => [x]
  | y :: l' => if comp x y then x :: y :: l' else y :: insert_last comp x l'
  end.

Fixpoint insert_first {A} (comp : A → A → bool) (x : A) (l : list A) : list A :=
  match l with
  | [] => [x]
  | y :: l' => if comp y x then y :: insert_first comp x l' else x :: y :: l'
  end.

Definition sort_last {A} (comp : A → A → bool) (l : list A) : list A :=
  foldr (insert_last comp) [] l.

Definition sort_first {A} (comp : A → A → bool) (l : list A) : list A :=
  foldr (insert_first comp) [] l.

(** [std::sort] as the GNU C++ library implements it ([bits/stl_algo.h]
    and [bits/stl_heap.h] of libstdc++), for running the header the way
    a build with GCC runs it.  It is an introspective sort: a range of
    more than 16 elements is partitioned around the median of three of
    its elements, to a depth of twice the logarithm of its length, where
    a heap sort takes over; an insertion sort finishes.  A range is a
    list and an iterator a position in it.  A read outside the list
    gives [None]; the loops of the library that rely on a sentinel
    within the range end there. *)
Section libstdcxx.
Context {A : Type} (comp : A → A → bool).
Implicit Types (a h l rp : list A).

(** [comp(i, j)] on two iterators; a position outside the range
    compares less than nothing. *)
Definition comp_at a (i j : nat) : bool :=
  match a !! i, a !! j with
  | Some x, Some y => comp x y
  | _, _ => false
  end.

(** [std::iter_swap(i, j)] *)
Definition iter_swap (i j : nat) a : list A :=
  match a !! i, a !! j with
  | Some x, Some y => <[i := y]> (<[j := x]> a)
  | _, _ => a
  end.

(** [__move_median_to_first(result, a, b, c, comp)]: the median of the
    three elements goes to [result]. *)
Definition move_median_to_first (result x y z : nat) a : list A :=
  if comp_at a x y then
    if comp_at a y z then iter_swap result y a
    else if comp_at a x z then iter_swap result z a
    else iter_swap result x a
  else if comp_at a x z then iter_swap result x a
  else if comp_at a y z then iter_swap result z a
  else iter_swap result y a.

(** [while (comp(first, pivot)) ++first;] *)
Fixpoint scan_up (fuel : nat) a (first pivot : nat) : nat :=
  match fuel with
  | 0 => first
  | S fuel' =>
      if comp_at a first pivot then scan_up fuel' a (S first) pivot else first
  end.

(** [while (comp(pivot, last)) --last;] *)
Fixpoint scan_down a (pivot last : nat) : nat :=
  match last with
  | 0 => 0
  | S last' => if comp_at a pivot last then scan_down a pivot last' else last
  end.

(** [__unguarded_partition(first, last, pivot, comp)]: the array and the
    cut.  Every turn moves [first] up and [last] down, so the length of
    the range is fuel enough. *)
Fixpoint unguarded_partition (fuel : nat) a (first last pivot : nat)
  : list A * nat :=
  match fuel with
  | 0 => (a, first)
  | S fuel' =>
      let first := scan_up (length a) a first pivot in
      let last := scan_down a pivot (pred last) in
      if first <? last
      then unguarded_partition fuel' (iter_swap first last a) (S first) last pivot
      else (a, first)
  end.

(** [__unguarded_partition_pivot(first, last, comp)] on the range [l],
    whose [first] is position 0. *)
Definition unguarded_partition_pivot l : list A * nat :=
  let mid := length l / 2 in
  let l := move_median_to_first 0 1 mid (length l - 1) l in
  unguarded_partition (length l) l 1 (length l) 0.

(** [__push_heap(first, holeIndex, topIndex, value, comp)].  The hole
    moves to its parent on every turn, so its index is fuel enough. *)
Fixpoint push_heap (fuel : nat) (hole top : nat) (value : A) h : list A :=
  match fuel with
  | 0 => <[hole := value]> h
  | S fuel' =>
      let parent := (hole - 1) / 2 in
      match h !! parent with
      | Some p =>
          if (top <? hole) && comp p value
          then push_heap fuel' parent top value (<[hole := p]> h)
          else <[hole := value]> h
      | None => <[hole := value]> h
      end
  end.

(** The first loop of [__adjust_heap]: the larger child moves into the
    hole.  The result is the array and the position of the hole. *)
Fixpoint sift (fuel : nat) (hole len : nat) h : list A * nat :=
  match fuel with
  | 0 => (h, hole)
  | S fuel' =>
      if hole <? (len - 1) / 2 then
        let c := 2 * (hole + 1) in
        let c := if comp_at h c (c - 1) then c - 1 else c in
        match h !! c with
        | Some x => sift fuel' c len (<[hole := x]> h)
        | None => (h, hole)
        end
      else (h, hole)
  end.

(** [__adjust_heap(first, holeIndex, len, value, comp)] *)
Definition adjust_heap (hole len : nat) (value : A) h : list A :=
  let top := hole in
  let '(h, hole) := sift len hole len h in
  let '(h, hole) :=
    if Nat.even len && (hole =? (len - 2) / 2) then
      match h !! (2 * (hole + 1) - 1) with
      | Some x => (<[hole := x]> h, 2 * (hole + 1) - 1)
      | None => (h, hole)
      end
    else (h, hole) in
  push_heap hole hole top value h.

(** [__pop_heap(first, last, result, comp)] *)
Definition pop_heap (last result : nat) h : list A :=
  match h !! result, h !! 0 with
  | Some value, Some x => adjust_heap 0 last value (<[result := x]> h)
  | _, _ => h
  end.

(** The loop of [__make_heap], from [parent] down to 0. *)
Fixpoint make_heap_from (parent len : nat) h : list A :=
  let h' :=
    match h !! parent with
    | Some value => adjust_heap parent len value h
    | None => h
    end in
  match parent with
  | 0 => h'
  | S parent' => make_heap_from parent' len h'
  end.

(** [__make_heap(first, last, comp)] *)
Definition make_heap h : list A :=
  if length h <? 2 then h
  else make_heap_from ((length h - 2) / 2) (length h) h.

(** [__sort_heap(first, last, comp)], with [n] for [last - first]. *)
Fixpoint sort_heap (n : nat) h : list A :=
  match n with
  | 0 => h
  | S last => if 1 <? n then sort_heap last (pop_heap last last h) else h
  end.

(** [__partial_sort(first, last, last, comp)]: with [middle] at [last] the
    loop of [__heap_select] has no turn. *)
Definition partial_sort h : list A := sort_heap (length h) (make_heap h).

(** [enum { _S_threshold = 16 };] *)
Definition S_threshold : nat := 16.

(** [__introsort_loop(first, last, depth_limit, comp)] on the range [l].
    The call on the part behind the cut and the next turn of the loop on
    the part before it work on disjoint ranges. *)
Fixpoint introsort_loop (depth_limit : nat) l : list A :=
  if S_threshold <? length l then
    match depth_limit with
    | 0 => partial_sort l
    | S depth_limit =>
        let '(l, cut) := unguarded_partition_pivot l in
        introsort_loop depth_limit (take cut l)
        ++ introsort_loop depth_limit (drop cut l)
    end
  else l.

(** [__unguarded_linear_insert(last, comp)]: [val] is the element at
    [last], [rp] the elements before it, the nearest first.  The result
    is the range up to [last], from the back to the front. *)
Fixpoint unguarded_linear_insert (val : A) rp : list A :=
  match rp with
  | [] => [val]
  | x :: rp' =>
      if comp val x then x :: unguarded_linear_insert val rp' else val :: rp
  end.

(** One turn of [__insertion_sort]: an element that compares less than
    the first one moves to the front. *)
Definition insertion_step rp (val : A) : list A :=
  match last rp with
  | Some x => if comp val x then rp ++ [val] else unguarded_linear_insert val rp
  | None => [val]
  end.

(** [__final_insertion_sort(first, last, comp)] *)
Definition final_insertion_sort l : list A :=
  if S_threshold <? length l then
    reverse (foldl (λ rp val, unguarded_linear_insert val rp)
           (foldl insertion_step [] (take S_threshold l))
           (drop S_threshold l))
  else reverse (foldl insertion_step [] l).

(** [std::__sort(first, last, comp)] *)
Definition libstdcxx_sort l : list A :=
  match l with
  | [] => []
  | _ => final_insertion_sort (introsort_loop (2 * Nat.log2 (length l)) l)
  end.

End libstdcxx.

(** ** [tsc_logger] *)

Section logger.
Context {CB : Type}.

(** [tsc_logger::op] with its subclass [op_inst<CB>]: the time stamp
    and the callable.  Time stamps are [uint64_t] values that the header
    only compares, so they are numbers without wrap-around. *)
Record op : Type := Op { tsc : N; cb_ : CB }.

(** [std::vector<std::unique_ptr<op>> ops_] *)
Record tsc_logger : Type := Logger { ops_ : list op }.

(** The default constructor and [reset()]. *)
Definition reset (l : tsc_logger) : tsc_logger := Logger [].

(** Modelled from the spec: [cpuid::features()] and the hardware
    counter are outside the header; a call sees whether the CPU has the
    [rdtscp] instruction, and the value of the counter. *)
Record cpu_env : Type := CpuEnv { feat_rdtscp : bool; tsc_now : N }.

(** Modelled from the spec: [rdtsc_serialized()] is declared outside the
    header; it is the serialized read of the hardware counter. *)
Definition rdtsc_serialized (e : cpu_env) : N := tsc_now e.

(** [static uint64_t rdtscp()]: inside the class the name [rdtscp] is
    the member itself, so the first branch is a call to this function. *)
Fixpoint rdtscp (fuel : nat) (e : cpu_env) : outcome N :=
  match fuel with
  | 0 => Timeout
  | S fuel' =>
      if feat_rdtscp e then rdtscp fuel' e
      else Ret (rdtsc_serialized e)
  end.

Definition push (fuel : nat) (e : cpu_env) (cb : CB) (l : tsc_logger)
  : outcome tsc_logger :=
  t ← rdtscp fuel e;
  Ret (Logger (ops_ l ++ [Op t cb])).

(** [push_with_tsc]: the time stamp comes from the callable. *)
Definition push_with_tsc (get_tsc : CB → N) (cb : CB) (l : tsc_logger)
  : tsc_logger :=
  Logger (ops_ l ++ [Op (get_tsc cb) cb]).

Definition compare_tsc (op1 op2 : op) : bool := (tsc op1 <? tsc op2)%N.

Definition sort_ops `{StdSort} (l : tsc_logger) : tsc_logger :=
  Logger (std_sort compare_tsc (ops_ l)).

(** [ops_before_max_tsc]: the returned iterator as its distance from
    [ops_.begin()]. *)
Fixpoint ops_before (max_tsc : N) (l : list op) : nat :=
  match l with
  | [] => 0
  | o :: l' => if (max_tsc <=? tsc o)%N then 0 else S (ops_before max_tsc l')
  end.

Definition ops_before_max_tsc (max_tsc : N) (l : tsc_logger) : nat :=
  ops_before max_tsc (ops_ l).

(** Ascending time stamps. *)
Definition tsc_le (a b : op) : Prop := (tsc a ≤ tsc b)%N.

(** Operations of one time stamp, in the order of the sequence. *)
Definition with_tsc (t : N) (l : list op) : list op :=
  filter (λ o, tsc o = t) l.

(** A rearrangement that keeps operations of equal time stamp in their
    relative order. *)
Definition keeps_tie_order (before after : list op) : Prop :=
  ∀ t, with_tsc t after = with_tsc t before.

(** ** The merge of [flush_finish] and [flush_finish_max_timestamp] *)

(** [struct pos { op_iter next, end; tsc_logger *logger; }].  An
    iterator into [ops_] is its distance from [begin()]; [logger] is the
    position in [pending_] of the logger the iterators belong to (the
    struct of [flush_finish] has no such member, its iterators point into
    that logger all the same). *)
Record pos : Type := Pos { next : nat; end_ : nat; logger : nat }.

(** [*p.next].  Moving the [unique_ptr] out of the vector leaves a null
    pointer there; those places are never read again and are dropped by
    the [reset] or [erase] that follows the merge, so the model leaves the
    vector as it is. *)
Definition deref (pending : list tsc_logger) (p : pos) : option op :=
  l ← pending !! logger p; ops_ l !! next p.

(** The time stamp of the operation at [posns[a].next]. *)
Definition head_tsc (pending : list tsc_logger) (posns : list pos) (a : nat) : N :=
  default 0%N (tsc <$> (posns !! a ≫= deref pending)).

(** The lambda [compare]; it reads [posns] when it is called. *)
Definition compare (pending : list tsc_logger) (posns : list pos) (a b : nat) : bool :=
  (head_tsc pending posns b <? head_tsc pending posns a)%N.

Definition seq_vector (x : nat) : list nat := seq 0 x.

Definition advance (p : pos) : pos := Pos (S (next p)) (end_ p) (logger p).

Section merge.
Context `{StdSort} `{StdPriorityQueue}.

(** [while (!heap.empty()) { ... }] *)
Fixpoint merge_loop (fuel : nat) (pending : list tsc_logger)
    (posns : list pos) (heap : pq) (merged_ops : list op)
  : outcome (list pos * list op) :=
  if pq_empty heap then Ret (posns, merged_ops)
  else match fuel with
  | 0 => Timeout
  | S fuel' =>
      match pq_top heap with
      | None => Fatal
      | Some top =>
          match posns !! top with
          | None => Fatal
          | Some p =>
              match deref pending p with
              | None => Fatal
              | Some o =>
                  let merged_ops := merged_ops ++ [o] in
                  let posns := <[top := advance p]> posns in
                  let heap := pq_pop (compare pending posns) heap in
                  let heap :=
                    if decide (S (next p) ≠ end_ p)
                    then pq_push (compare pending posns) top heap
                    else heap in
                  merge_loop fuel' pending posns heap merged_ops
              end
          end
      end
  end.

(** The number of operations held by the pending loggers bounds the
    number of turns of the merge loop. *)
Definition total_ops (pending : list tsc_logger) : nat :=
  sum_list (length ∘ ops_ <$> pending).

Definition heap_merge (pending : list tsc_logger) (posns : list pos)
  : outcome (list pos * list op) :=
  let heap := pq_make (compare pending posns) (seq_vector (length posns)) in
  '(posns, merged_ops) ← merge_loop (total_ops pending) pending posns heap [];
  (* assert(std::is_sorted(merged_ops.begin(), merged_ops.end(), compare_tsc)) *)
  if is_sorted compare_tsc merged_ops then Ret (posns, merged_ops) else Fatal.

(** The first loop of [flush_finish]: loggers without operations are
    passed over, the others sorted and given a cursor.  [k] is the
    position of the first logger of [pending] in [pending_]. *)
Fixpoint sort_pending (k : nat) (pending : list tsc_logger)
  : list tsc_logger * list pos :=
  match pending with
  | [] => ([], [])
  | l :: rest =>
      let '(rest', posns) := sort_pending (S k) rest in
      match ops_ l with
      | [] => (l :: rest', posns)
      | _ :: _ =>
          let l' := sort_ops l in
          (l' :: rest', Pos 0 (length (ops_ l')) k :: posns)
      end
  end.

(** [tsc_logged_object::flush_finish] on [pending_]: the new [pending_]
    and the operations whose [run()] was called, in the order of the
    calls. *)
Definition flush_finish (pending_ : list tsc_logger)
  : outcome (list tsc_logger * list op) :=
  match pending_ with
  | [] => Ret ([], [])
  | _ :: _ =>
      let '(pending_, posns) := sort_pending 0 pending_ in
      match posns with
      | [] => Ret (pending_, [])
      | _ :: _ =>
          '(_, merged_ops) ← heap_merge pending_ posns;
          Ret ([], merged_ops)
      end
  end.

(** The first loop of [flush_finish_max_timestamp]: every logger is
    sorted; those with an operation before [max_tsc] get a cursor that
    ends at [ops_before_max_tsc]. *)
Fixpoint sort_pending_max (max_tsc : N) (k : nat) (pending : list tsc_logger)
  : list tsc_logger * list pos :=
  match pending with
  | [] => ([], [])
  | l :: rest =>
      let '(rest', posns) := sort_pending_max max_tsc (S k) rest in
      let l' := sort_ops l in
      let e := ops_before_max_tsc max_tsc l' in
      match e with
      | 0 => (l' :: rest', posns)
      | S _ => (l' :: rest', Pos 0 e k :: posns)
      end
  end.

(** [pos.logger->ops_.erase(pos.logger->ops_.begin(), pos.end)] *)
Definition erase_applied (pending : list tsc_logger) (p : pos) : list tsc_logger :=
  alter (λ l, Logger (drop (end_ p) (ops_ l))) (logger p) pending.

(** The last loop: [pending_.erase(it)] for every logger without
    operations. *)
Definition drop_empty (pending : list tsc_logger) : list tsc_logger :=
  filter (λ l, ops_ l ≠ []) pending.

(** [mfs_logged_object::flush_finish_max_timestamp] on [pending_]. *)
Definition flush_finish_max_timestamp (max_tsc : N) (pending_ : list tsc_logger)
  : outcome (list tsc_logger * list op) :=
  match pending_ with
  | [] => Ret ([], [])
  | _ :: _ =>
      let '(pending_, posns) := sort_pending_max max_tsc 0 pending_ in
      match posns with
      | [] => Ret (pending_, [])
      | _ :: _ =>
          '(posns, merged_ops) ← heap_merge pending_ posns;
          let pending_ := foldl erase_applied pending_ posns in
          Ret (drop_empty pending_, merged_ops)
      end
  end.

End merge.
End logger.

Arguments op : clear implicits.
Arguments tsc_logger : clear implicits.

(** ** [logged_object<tsc_logger>] and [tsc_logged_object] *)

Definition CACHE_SLOTS : N := 4096.

(** [cache::hash_way]: the number of the way for the object at address
    [obj].  The address is a [uint64_t]; exclusive or and right shifts
    stay within 64 bits. *)
Definition hash_way (obj : N) : N :=
  let wayno := obj in
  let wayno :=
    N.lxor wayno (N.lxor (N.lxor (N.shiftr wayno 32) (N.shiftr wayno 20))
                         (N.shiftr wayno 12)) in
  let wayno := N.lxor wayno (N.lxor (N.shiftr wayno 7) (N.shiftr wayno 4)) in
  (wayno mod CACHE_SLOTS)%N.

(** Modelled from the spec: [bitset<NCPU>] is declared outside the
    header; it is a bitset over [NCPU] with atomic set and reset and
    iteration over the set bits, here a bit mask read in ascending
    order. *)
Definition bitset_test (b : N) (i : nat) : bool := N.testbit b (N.of_nat i).

(** Modelled from the spec: the iteration of [for (auto cpu : cpus_)]
    over the set bits of a [bitset<NCPU>]. *)
Definition bitset_elems (NCPU : nat) (b : N) : list nat :=
  filter (λ i, bitset_test b i = true) (seq 0 NCPU).

(** Modelled from the spec: [atomic_reset] and [atomic_set] of
    [bitset<NCPU>] clear and set one bit. *)
Definition atomic_reset (b : N) (i : nat) : N := N.clearbit b (N.of_nat i).

(** Modelled from the spec: see [atomic_reset]. *)
Definition atomic_set (b : N) (i : nat) : N := N.setbit b (N.of_nat i).

Section object.
Context {CB St : Type} (call : CB → St → St).
Context `{StdSort} `{StdPriorityQueue}.
Context (NCPU : nat).

(** [struct way]: the tag (the address of the object, [None] for
    [nullptr]), the way lock (held or not) and the logger. *)
Record way : Type := Way {
  obj_ : option N;
  lock_ : bool;
  logger_ : tsc_logger CB;
}.

(** A [tsc_logged_object] together with what its member functions
    reach: the static per-CPU [cache_] (CPU, then way number), and
    [state], the members of the subclass that the logged operations act
    on.  [sync_lock_] tells whether the lock is held. *)
Record tsc_logged_object : Type := Obj {
  cache_ : nat → N → way;
  cpus_ : N;
  sync_lock_ : bool;
  pending_ : list (tsc_logger CB);
  state : St;
}.

(** [op_inst<CB>::run] calls the callable. *)
Definition run (o : op CB) (s : St) : St := call (cb_ o) s.

Definition run_all (ops : list (op CB)) (s : St) : St :=
  foldl (λ s o, run o s) s ops.

(** [flush_logger(l)]: [pending_.emplace_back(std::move( *l)); l->reset()].
    The result is the new [pending_] and the new [*l]. *)
Definition flush_logger (pending : list (tsc_logger CB)) (l : tsc_logger CB)
  : list (tsc_logger CB) * tsc_logger CB :=
  (pending ++ [l], reset l).

Definition set_way (cache : nat → N → way) (cpu : nat) (wayno : N) (w : way)
  : nat → N → way :=
  <[cpu := <[wayno := w]> (cache cpu)]> cache.

(** What [get_logger] did to the object it evicted from the way, if it
    evicted one: [cur_obj->flush_logger(&my_way->logger_)] with the
    logger found in the way, and [cur_obj->cpus_.atomic_reset(id)].  The
    members of that other object are not part of [tsc_logged_object]. *)
Record eviction : Type := Evicted { cur_obj : N; flushed : tsc_logger CB }.

(** The end of [get_logger]: the way lock stays held by the
    [locked_logger] that is returned. *)
Definition tag_way (id : nat) (this : N) (l : tsc_logger CB)
    (ev : option eviction) (o : tsc_logged_object)
  : outcome (tsc_logged_object * option eviction) :=
  Ret (Obj (set_way (cache_ o) id (hash_way this) (Way (Some this) true l))
           (if bitset_test (cpus_ o) id then cpus_ o
            else atomic_set (cpus_ o) id)
           (sync_lock_ o) (pending_ o) (state o), ev).

(** [get_logger()] on CPU [id] (which is [myid()]).  [sync_locked]
    tells of another object whether its sync lock is held, that is
    whether [try_guard] fails; the jump to [back_out] takes fuel. *)
Fixpoint get_logger (fuel : nat) (id : nat) (this : N) (sync_locked : N → bool)
    (o : tsc_logged_object)
  : outcome (tsc_logged_object * option eviction) :=
  match fuel with
  | 0 => Timeout
  | S fuel' =>
      let my_way := cache_ o id (hash_way this) in
      if lock_ my_way then Timeout
      else match obj_ my_way with
      | None => tag_way id this (logger_ my_way) None o
      | Some cur =>
          if decide (cur = this) then tag_way id this (logger_ my_way) None o
          else if sync_locked cur then get_logger fuel' id this sync_locked o
          else tag_way id this (reset (logger_ my_way))
                 (Some (Evicted cur (logger_ my_way))) o
      end
  end.

(** What the eviction in [get_logger] on CPU [id] does to the object
    [cur_obj] that it evicts: [cur_obj->flush_logger(&my_way->logger_)]
    and [cur_obj->cpus_.atomic_reset(id)].  [cache] is the static
    [cache_], which all objects share, as [get_logger] leaves it. *)
Definition evict (id : nat) (e : eviction) (cache : nat → N → way)
    (cur : tsc_logged_object) : tsc_logged_object :=
  Obj cache (atomic_reset (cpus_ cur) id) (sync_lock_ cur)
      (fst (flush_logger (pending_ cur) (flushed e))) (state cur).

(** A call through [locked_logger::operator->] on CPU [id]. *)
Definition with_logger (id : nat) (this : N)
    (f : tsc_logger CB → tsc_logger CB) (o : tsc_logged_object)
  : tsc_logged_object :=
  let w := cache_ o id (hash_way this) in
  Obj (set_way (cache_ o) id (hash_way this)
         (Way (obj_ w) (lock_ w) (f (logger_ w))))
      (cpus_ o) (sync_lock_ o) (pending_ o) (state o).

(** The [locked_logger] goes out of scope: the way lock is released. *)
Definition drop_logger (id : nat) (this : N) (o : tsc_logged_object)
  : tsc_logged_object :=
  let w := cache_ o id (hash_way this) in
  Obj (set_way (cache_ o) id (hash_way this) (Way (obj_ w) false (logger_ w)))
      (cpus_ o) (sync_lock_ o) (pending_ o) (state o).

(** The body of the gather loop of [synchronize] and [wait_synchronize]
    for one CPU.  A way lock that is held never becomes free in a
    sequential run. *)
Definition gather_cpu (this : N) (cpu : nat) (o : tsc_logged_object)
  : outcome tsc_logged_object :=
  let wayno := hash_way this in
  let w := cache_ o cpu wayno in
  if lock_ w then Timeout
  else if decide (obj_ w = Some this) then
    let '(pending, l) := flush_logger (pending_ o) (logger_ w) in
    Ret (Obj (set_way (cache_ o) cpu wayno (Way (obj_ w) (lock_ w) l))
             (atomic_reset (cpus_ o) cpu)
             (sync_lock_ o) pending (state o))
  else Fatal.

(** [for (auto cpu : cpus_) { ... }] over the bits found set. *)
Fixpoint gather_pass (this : N) (cpus : list nat) (o : tsc_logged_object)
  : outcome tsc_logged_object :=
  match cpus with
  | [] => Ret o
  | cpu :: rest => o' ← gather_cpu this cpu o; gather_pass this rest o'
  end.

(** [while (1) { ...; if (!any) break; barrier(); }] *)
Fixpoint gather (fuel : nat) (this : N) (o : tsc_logged_object)
  : outcome tsc_logged_object :=
  match fuel with
  | 0 => Timeout
  | S fuel' =>
      match bitset_elems NCPU (cpus_ o) with
      | [] => Ret o
      | cpus => o' ← gather_pass this cpus o; gather fuel' this o'
      end
  end.

(** Modelled from the spec: [spinlock] is declared outside the header; a
    [guard()] takes the lock and holds it until the guard goes out of
    scope.  This is [sync_lock_.guard()]; a lock that is held never
    becomes free in a sequential run. *)
Definition sync_guard (o : tsc_logged_object) : outcome tsc_logged_object :=
  if sync_lock_ o then Timeout
  else Ret (Obj (cache_ o) (cpus_ o) true (pending_ o) (state o)).

(** The guard is dropped. *)
Definition release (o : tsc_logged_object) : tsc_logged_object :=
  Obj (cache_ o) (cpus_ o) false (pending_ o) (state o).

(** [synchronize()] of a [tsc_logged_object] at address [this].  The
    lock is held on return.  The second component lists the operations
    run, in the order of the calls of [run()]. *)
Definition synchronize (fuel : nat) (this : N) (o : tsc_logged_object)
  : outcome (tsc_logged_object * list (op CB)) :=
  o ← sync_guard o;
  o ← gather fuel this o;
  '(pending, merged_ops) ← flush_finish (pending_ o);
  Ret (Obj (cache_ o) (cpus_ o) (sync_lock_ o) pending
           (run_all merged_ops (state o)), merged_ops).

(** The body of the loop of [clear_loggers] for one CPU. *)
Definition clear_cpu (this : N) (cpu : nat) (o : tsc_logged_object)
  : outcome tsc_logged_object :=
  let wayno := hash_way this in
  let w := cache_ o cpu wayno in
  if lock_ w then Timeout
  else if decide (obj_ w = Some this) then
    Ret (Obj (set_way (cache_ o) cpu wayno
                      (Way (obj_ w) (lock_ w) (reset (logger_ w))))
             (cpus_ o) (sync_lock_ o) (pending_ o) (state o))
  else Fatal.

Fixpoint clear_pass (this : N) (cpus : list nat) (o : tsc_logged_object)
  : outcome tsc_logged_object :=
  match cpus with
  | [] => Ret o
  | cpu :: rest => o' ← clear_cpu this cpu o; clear_pass this rest o'
  end.

Fixpoint clear_loop (fuel : nat) (this : N) (o : tsc_logged_object)
  : outcome tsc_logged_object :=
  match fuel with
  | 0 => Timeout
  | S fuel' =>
      match bitset_elems NCPU (cpus_ o) with
      | [] => Ret o
      | cpus => o' ← clear_pass this cpus o; clear_loop fuel' this o'
      end
  end.

Definition clear_loggers (fuel : nat) (this : N) (o : tsc_logged_object)
  : outcome tsc_logged_object :=
  o ← sync_guard o;
  o ← clear_loop fuel this o;
  Ret (release o).

(** [~tsc_logged_object()] *)
Definition destroy (fuel : nat) (this : N) (o : tsc_logged_object)
  : outcome tsc_logged_object :=
  clear_loggers fuel this
    (Obj (cache_ o) (cpus_ o) (sync_lock_ o) [] (state o)).

(** ** [mfs_logged_object] *)

(** Modelled from the spec: [seqcount<u32>] is declared outside the
    header.  Writers bump the sequence counter around a single word
    store ([write_begin] bumps it, the end of the writer's scope bumps it
    again); a reader takes a snapshot of an even counter, [need_retry]
    tells whether the counter has advanced beyond the snapshot, and
    [do_retry] does the same and then restarts the read from an even
    counter.  With no other thread, waiting for an odd counter to become
    even never ends. *)
Definition seq_bump (s : N) : N := ((s + 1) mod 2 ^ 32)%N.

(** Modelled from the spec: the reader of a [seqcount], with the
    counter value it took its snapshot at. *)
Record reader : Type := Reader { init_ : N }.

(** Modelled from the spec: [read_begin()] on a counter that reads [s]
    waits for an even value and takes the snapshot. *)
Definition read_begin (s : N) : outcome reader :=
  if N.even s then Ret (Reader s) else Timeout.

(** Modelled from the spec: [need_retry()] on a counter that reads [s]:
    the counter has advanced beyond the snapshot. *)
Definition need_retry (r : reader) (s : N) : bool := negb (s =? init_ r)%N.

(** Modelled from the spec: [do_retry()] on a counter that reads [s]:
    as [need_retry()]; when the read has to be done again, the reader
    first takes a new snapshot at an even value. *)
Definition do_retry (r : reader) (s : N) : outcome (bool * reader) :=
  if (s =? init_ r)%N then Ret (false, r)
  else if N.even s then Ret (true, Reader s)
  else Timeout.

(** [struct mfs_tsc { u64 tsc_value; seqcount<u32> seq; }] *)
Record mfs_tsc : Type := MfsTsc { tsc_value : N; seq : N }.

(** The members added by [mfs_logged_object].  [percpu<mfs_tsc>] is
    declared outside the header; a per-CPU variable has one entry for
    each of the [NCPU] CPUs. *)
Record mfs_logged_object : Type := Mfs {
  base : tsc_logged_object;
  mfs_start_tsc : list mfs_tsc;
  mfs_end_tsc : list mfs_tsc;
}.

(** [auto w = x.seq.write_begin(); x.tsc_value = v;] and the end of the
    scope of [w]. *)
Definition write_tsc (v : N) (x : mfs_tsc) : mfs_tsc :=
  let x := MfsTsc (tsc_value x) (seq_bump (seq x)) in
  let x := MfsTsc v (seq x) in
  MfsTsc (tsc_value x) (seq_bump (seq x)).

(** An index that is not below [NCPU] is outside the per-CPU variable. *)
Definition update_start_tsc (cpu : nat) (start_tsc : N) (m : mfs_logged_object)
  : outcome mfs_logged_object :=
  match mfs_start_tsc m !! cpu with
  | None => Fatal
  | Some x =>
      Ret (Mfs (base m) (<[cpu := write_tsc start_tsc x]> (mfs_start_tsc m))
               (mfs_end_tsc m))
  end.

Definition update_end_tsc (cpu : nat) (end_tsc : N) (m : mfs_logged_object)
  : outcome mfs_logged_object :=
  match mfs_end_tsc m !! cpu with
  | None => Fatal
  | Some x =>
      Ret (Mfs (base m) (mfs_start_tsc m)
               (<[cpu := write_tsc end_tsc x]> (mfs_end_tsc m)))
  end.

(** [while (r.do_retry()) v = x.tsc_value;] *)
Fixpoint read_retry (fuel : nat) (x : mfs_tsc) (r : reader) (v : N)
  : outcome (reader * N) :=
  match fuel with
  | 0 => Timeout
  | S fuel' =>
      '(again, r) ← do_retry r (seq x);
      if again : bool then read_retry fuel' x r (tsc_value x) else Ret (r, v)
  end.

(** [while (!r_end.need_retry());] *)
Fixpoint wait_retry (fuel : nat) (x : mfs_tsc) (r : reader) : outcome unit :=
  match fuel with
  | 0 => Timeout
  | S fuel' => if need_retry r (seq x) then Ret () else wait_retry fuel' x r
  end.

(** What one turn of the first loop of [wait_synchronize] compares, and
    whether it entered the waiting loop. *)
Record scan : Type := Scan { start_tsc : N; end_tsc : N; waited : bool }.

Definition scan_cpu (fuel : nat) (m : mfs_logged_object) (i : nat) (wait_tsc : N)
  : outcome scan :=
  match mfs_start_tsc m !! i, mfs_end_tsc m !! i with
  | Some xs, Some xe =>
      r_start ← read_begin (seq xs);
      r_end ← read_begin (seq xe);
      '(r_start, start_tsc) ← read_retry fuel xs r_start 0%N;
      '(r_end, end_tsc) ← read_retry fuel xe r_end 0%N;
      if (end_tsc <? start_tsc)%N && (start_tsc <? wait_tsc)%N
      then _ ← wait_retry fuel xe r_end; Ret (Scan start_tsc end_tsc true)
      else Ret (Scan start_tsc end_tsc false)
  | _, _ => Fatal
  end.

(** [for (size_t i = 0; i < NCPU; ++i) { ... }] *)
Fixpoint scan_cpus (fuel : nat) (m : mfs_logged_object) (cpus : list nat)
    (wait_tsc : N) : outcome unit :=
  match cpus with
  | [] => Ret ()
  | i :: rest =>
      _ ← scan_cpu fuel m i wait_tsc; scan_cpus fuel m rest wait_tsc
  end.

(** [wait_synchronize(wait_tsc)] *)
Definition wait_synchronize (fuel : nat) (this : N) (wait_tsc : N)
    (m : mfs_logged_object)
  : outcome (mfs_logged_object * list (op CB)) :=
  o ← sync_guard (base m);
  _ ← scan_cpus fuel m (List.seq 0 NCPU) wait_tsc;
  o ← gather fuel this o;
  '(pending, merged_ops) ← flush_finish_max_timestamp wait_tsc (pending_ o);
  Ret (Mfs (Obj (cache_ o) (cpus_ o) (sync_lock_ o) pending
                (run_all merged_ops (state o)))
           (mfs_start_tsc m) (mfs_end_tsc m), merged_ops).

End object.

Arguments way : clear implicits.
Arguments eviction : clear implicits.
Arguments tsc_logged_object : clear implicits.
Arguments mfs_logged_object : clear implicits.

(** * Specification vocabulary *)

(** ** Interleavings *)

(** [interleave ls m]: the sequence [m] is made by taking, one at a
    time and until none is left, the first element of one of the
    sequences [ls].  Every sequence of [ls] appears in [m] in its own
    order. *)
Inductive interleave {A : Type} : list (list A) → list A → Prop :=
| interleave_nil ls : Forall (λ l, l = []) ls → interleave ls []
| interleave_cons ls i x xs m :
    ls !! i = Some (x :: xs) →
    interleave (<[i := xs]> ls) m →
    interleave ls (x :: m).


(** ** Positions and loggers used in the statements *)

(** The position claimed by C7 for a logger in any state: the
    operations before it are below [max_tsc], all others are not. *)
Definition partitions {CB} (max_tsc : N) (l : tsc_logger CB) (k : nat) : Prop :=
  Forall (λ o, (tsc o < max_tsc)%N) (take k (ops_ l)) ∧
  Forall (λ o, (max_tsc ≤ tsc o)%N) (drop k (ops_ l)).

(** Loggers with three operations, out of and in time stamp order, and
    a logger with two operations of one time stamp. *)
Definition unsorted_logger : tsc_logger nat :=
  Logger [Op 5 1; Op 20 2; Op 3 3].

Definition sorted_logger : tsc_logger nat :=
  Logger [Op 3 3; Op 5 1; Op 20 2].

Definition tied_logger : tsc_logger nat := Logger [Op 1 1; Op 1 2].

(** A logger with seventeen operations of one time stamp, numbered in
    the order of their pushes. *)
Definition seventeen_tied_logger : tsc_logger nat :=
  Logger (Op 1 <$> List.seq 1 17).


(** ** The cursors of the merge *)

Section merge_vocabulary.
Context {CB : Type}.

(** The operations of the logger at position [k] of [pending_]. *)
Definition ops_at (pending : list (tsc_logger CB)) (k : nat) : list (op CB) :=
  default [] (ops_ <$> pending !! k).

(** The operations between [p.next] and [p.end]. *)
Definition range (pending : list (tsc_logger CB)) (p : pos) : list (op CB) :=
  take (end_ p - next p) (drop (next p) (ops_at pending (logger p))).

Definition in_bounds (pending : list (tsc_logger CB)) (p : pos) : Prop :=
  next p ≤ end_ p ∧ end_ p ≤ length (ops_at pending (logger p)).

(** The cursor at index [a] has operations left. *)
Definition live (posns : list pos) (a : nat) : Prop :=
  ∃ p, posns !! a = Some p ∧ next p < end_ p.

(** The cursors that the first loop of [flush_finish] and of
    [flush_finish_max_timestamp] builds, when [e] gives the end of the
    cursor of a logger and [k] is the position of the first logger. *)
Fixpoint cursors (e : tsc_logger CB → nat) (k : nat) (ls : list (tsc_logger CB))
  : list pos :=
  match ls with
  | [] => []
  | l :: ls =>
      match e l with
      | 0 => cursors e (S k) ls
      | S _ => Pos 0 (e l) k :: cursors e (S k) ls
      end
  end.

(** What the invariant of the merge loop says about the heap: it is a
    heap for the comparison as it stands, and holds the indices of the
    cursors with operations left, each once. *)
Definition merge_inv `{StdPriorityQueue} (pending : list (tsc_logger CB))
    (posns : list pos) (heap : pq) : Prop :=
  Forall (in_bounds pending) posns ∧
  Forall (λ p, StronglySorted tsc_le (range pending p)) posns ∧
  pq_heap (compare pending posns) heap ∧
  NoDup (pq_elems heap) ∧
  (∀ a, a ∈ pq_elems heap ↔ live posns a).

End merge_vocabulary.

(** What the first loop of [flush_finish] leaves of a logger: loggers
    without operations are not sorted. *)
Definition sorted_nonempty {CB} `{StdSort} (l : tsc_logger CB) : tsc_logger CB :=
  match ops_ l with
  | [] => l
  | _ :: _ => sort_ops l
  end.

(** The part of a logger that a cursor ending at [e] covers, and the
    logger left by erasing that part. *)
Definition covered {CB} (e : tsc_logger CB → nat) (l : tsc_logger CB) : list (op CB) :=
  take (e l) (ops_ l).

Definition erased {CB} (e : tsc_logger CB → nat) (l : tsc_logger CB) : tsc_logger CB :=
  Logger (drop (e l) (ops_ l)).

(** ** Objects *)

Section object_vocabulary.
Context {CB St : Type}.

(** The logger of the way of the object at [this] on [cpu]. *)
Definition logger_of (this : N) (o : tsc_logged_object CB St) (cpu : nat)
  : tsc_logger CB :=
  logger_ (cache_ o cpu (hash_way this)).

(** The loggers that a gather of [synchronize] moves to [pending_]: the
    one of every CPU whose bit is set. *)
Definition gathered (NCPU : nat) (this : N) (o : tsc_logged_object CB St)
  : list (tsc_logger CB) :=
  logger_of this o <$> bitset_elems NCPU (cpus_ o).

(** The tag invariant for the CPUs whose bit is set: the way is tagged
    with the object, and nobody holds its lock. *)
Definition tags_ok (NCPU : nat) (this : N) (o : tsc_logged_object CB St) : Prop :=
  Forall (λ cpu,
            obj_ (cache_ o cpu (hash_way this)) = Some this ∧
            lock_ (cache_ o cpu (hash_way this)) = false)
         (bitset_elems NCPU (cpus_ o)).

(** Operations with equal time stamps that were pushed into the same
    logger run in the order in which they were pushed: for every time
    stamp, the operations run are an interleaving of the loggers'
    operations of that time stamp. *)
Definition ties_in_insertion_order (loggers : list (tsc_logger CB))
    (executed : list (op CB)) : Prop :=
  ∀ t, interleave (with_tsc t ∘ ops_ <$> loggers) (with_tsc t executed).

End object_vocabulary.

(** ** Objects used in the statements *)

(** Callables are numbers; running one appends it to the state, so
    that the state is the list of the operations run. *)
Definition record_call (cb : nat) (s : list nat) : list nat := s ++ [cb].

Definition this0 : N := 0x1000.

Definition empty_cache : nat → N → way nat :=
  λ _ _, Way None false (Logger []).

(** An object that no CPU has logged to. *)
Definition fresh_object : tsc_logged_object nat (list nat) :=
  Obj empty_cache 0 false [] [].

(** A writer on CPU [id]: [get_logger()], a [push_with_tsc] through the
    handle for each callable, and the handle goes out of scope.  No
    other object has its sync lock held. *)
Definition log_ops (id : nat) (get_tsc : nat → N) (cbs : list nat)
    (o : tsc_logged_object nat (list nat))
  : outcome (tsc_logged_object nat (list nat)) :=
  '(o, _) ← get_logger 1 id this0 (λ _, false) o;
  Ret (drop_logger id this0
         (foldl (λ o cb, with_logger id this0 (push_with_tsc get_tsc cb) o)
            o cbs)).

Definition built (m : outcome (tsc_logged_object nat (list nat)))
  : tsc_logged_object nat (list nat) :=
  match m with
  | Ret o => o
  | _ => fresh_object
  end.

(** The object after CPU 0 has logged the callables [cbs]. *)
Definition one_cpu_object (get_tsc : nat → N) (cbs : list nat)
  : tsc_logged_object nat (list nat) :=
  built (log_ops 0 get_tsc cbs fresh_object).

(** The object after CPU 0 has logged [cbs0] and CPU 1 [cbs1]. *)
Definition two_cpu_object (get_tsc : nat → N) (cbs0 cbs1 : list nat)
  : tsc_logged_object nat (list nat) :=
  built (log_ops 0 get_tsc cbs0 fresh_object ≫= log_ops 1 get_tsc cbs1).

(** CPU 0 has logged two operations, both stamped 1. *)
Definition tied_object : tsc_logged_object nat (list nat) :=
  one_cpu_object (λ _, 1%N) [1; 2].

(** CPU 0 has logged seventeen operations, all stamped 1. *)
Definition seventeen_tied_object : tsc_logged_object nat (list nat) :=
  one_cpu_object (λ _, 1%N) (List.seq 1 17).

(** CPU 0 has called [get_logger] and logged nothing. *)
Definition unused_object : tsc_logged_object nat (list nat) :=
  one_cpu_object (λ _, 1%N) [].

(** The object of the first scenario of the specification: CPU 0
    logged operations stamped 10 and 20. *)
Definition single_cpu_object : tsc_logged_object nat (list nat) :=
  one_cpu_object (λ cb, 10 * N.of_nat cb)%N [1; 2].

(** The object of the second scenario of the specification: CPU 0
    logged operations stamped 5 and 15, CPU 1 one stamped 10. *)
Definition interleaved_object : tsc_logged_object nat (list nat) :=
  two_cpu_object (λ cb, 5 * N.of_nat cb)%N [1; 3] [2].

(** The first component of what a call returned. *)
Definition returned {A B} (d : A) (m : outcome (A * B)) : A :=
  match m with
  | Ret (a, _) => a
  | _ => d
  end.

(** A fresh [mfs_logged_object] on a machine with one CPU. *)
Definition fresh_mfs : mfs_logged_object nat (list nat) :=
  Mfs fresh_object [MfsTsc 0 0] [MfsTsc 0 0].

(** The fresh object after [update_start_tsc(0, 100)] and
    [update_end_tsc(0, 50)]: CPU 0 advertises an operation that began
    at 100 and has not ended. *)
Definition advertising_mfs : mfs_logged_object nat (list nat) :=
  Mfs fresh_object [MfsTsc 100 2] [MfsTsc 50 2].

(** The object of the sixth scenario of the specification: two CPUs
    logged operations stamped 100 and 200. *)
Definition deferring_mfs : mfs_logged_object nat (list nat) :=
  Mfs (two_cpu_object (λ cb, 100 * N.of_nat cb)%N [1] [2])
      [MfsTsc 0 0; MfsTsc 0 0] [MfsTsc 0 0; MfsTsc 0 0].
(** * Properties *)

(** ** Implementations of the standard library contracts *)

Section insertion.
Context {A : Type} (comp : A → A → bool).

Lemma insert_last_perm x l : insert_last comp x l ≡ₚ x :: l.
Proof.
  induction l as [|y l IH]; simpl; [done|].
  destruct (comp x y); [done|].
  rewrite IH. apply Permutation_swap.
Qed.

Lemma insert_first_perm x l : insert_first comp x l ≡ₚ x :: l.
Proof.
  induction l as [|y l IH]; simpl; [done|].
  destruct (comp y x); [|done].
  rewrite IH. apply Permutation_swap.
Qed.

Lemma sort_last_perm l : sort_last comp l ≡ₚ l.
Proof.
  induction l as [|x l IH]; simpl; [done|].
  by rewrite insert_last_perm, IH.
Qed.

Lemma sort_first_perm l : sort_first comp l ≡ₚ l.
Proof.
  induction l as [|x l IH]; simpl; [done|].
  by rewrite insert_first_perm, IH.
Qed.

Lemma insert_last_sorted x l :
  strict_weak_order comp →
  StronglySorted (not_after comp) l →
  StronglySorted (not_after comp) (insert_last comp x l).
Proof.
  intros [Hasym Hneg]. induction l as [|y l IH]; simpl; intros Hs.
  - repeat constructor.
  - apply sorting.StronglySorted_cons in Hs as [Hy Hl].
    destruct (comp x y) eqn:Hxy.
    + apply sorting.StronglySorted_cons. split.
      * constructor; [by apply Hasym|].
        eapply Forall_impl; [exact Hy|]. intros z Hz. unfold not_after in *.
        eapply Hneg; [exact Hz|by apply Hasym].
      * by apply sorting.StronglySorted_cons.
    + apply sorting.StronglySorted_cons. split; [|by apply IH].
      rewrite insert_last_perm. by constructor.
Qed.

Lemma insert_first_sorted x l :
  strict_weak_order comp →
  StronglySorted (not_after comp) l →
  StronglySorted (not_after comp) (insert_first comp x l).
Proof.
  intros [Hasym Hneg]. induction l as [|y l IH]; simpl; intros Hs.
  - repeat constructor.
  - apply sorting.StronglySorted_cons in Hs as [Hy Hl].
    destruct (comp y x) eqn:Hyx.
    + apply sorting.StronglySorted_cons. split; [|by apply IH].
      rewrite insert_first_perm. constructor; [|done]. by apply Hasym.
    + apply sorting.StronglySorted_cons. split.
      * constructor; [done|].
        eapply Forall_impl; [exact Hy|]. intros z Hz. unfold not_after in *.
        by eapply Hneg.
      * by apply sorting.StronglySorted_cons.
Qed.

Lemma sort_last_sorted l :
  strict_weak_order comp → StronglySorted (not_after comp) (sort_last comp l).
Proof.
  intros Hc. induction l as [|x l IH]; simpl; [constructor|].
  by apply insert_last_sorted.
Qed.

Lemma sort_first_sorted l :
  strict_weak_order comp → StronglySorted (not_after comp) (sort_first comp l).
Proof.
  intros Hc. induction l as [|x l IH]; simpl; [constructor|].
  by apply insert_first_sorted.
Qed.

Lemma strict_weak_order_flip :
  strict_weak_order comp → strict_weak_order (flip comp).
Proof.
  intros [Hasym Hneg]. split; unfold flip; [by auto|].
  intros a b c Hab Hbc. by eapply Hneg.
Qed.

Lemma strict_weak_order_irrefl a : strict_weak_order comp → comp a a = false.
Proof.
  intros [Hasym _]. destruct (comp a a) eqn:Ha; [|done].
  by rewrite (Hasym _ _ Ha) in Ha.
Qed.

End insertion.

(** An implementation of [std::sort] that reverses equivalent elements,
    and one that keeps them in order. *)
Definition reversing_sort : StdSort :=
  {| std_sort := @sort_last;
     std_sort_perm := @sort_last_perm;
     std_sort_sorted := @sort_last_sorted |}.

Definition stable_sort : StdSort :=
  {| std_sort := @sort_first;
     std_sort_perm := @sort_first_perm;
     std_sort_sorted := @sort_first_sorted |}.

(** ** [std::sort] of libstdc++

    Every step of the sort moves elements within the range: swaps in the
    partition, moves through a hole in the heap, insertions at the end.
    The insertion sort that finishes goes over the whole range, which
    makes the result sorted whatever the earlier steps did. *)
Section libstdcxx_facts.
Context {A : Type} (comp : A → A → bool).
Implicit Types (a h l rp : list A).

Lemma insert_delete_perm a (i : nat) (x v : A) :
  a !! i = Some x → <[i := v]> a ≡ₚ v :: delete i a.
Proof.
  intros Hi. revert i Hi. induction a as [|y a IH]; intros [|i] Hi; try done.
  cbn in Hi |- *. rewrite (IH i Hi). apply Permutation_swap.
Qed.

Lemma hole_move a (hole c : nat) (x v : A) :
  is_Some (a !! hole) → a !! c = Some x →
  <[c := v]> (<[hole := x]> a) ≡ₚ <[hole := v]> a.
Proof.
  intros [w Hw] Hc. destruct (decide (c = hole)) as [->|Hne].
  { by rewrite list_insert_insert_eq. }
  assert (<[hole := x]> a !! c = Some x) as Hc'
    by by rewrite list_lookup_insert_ne.
  etrans; [apply (insert_delete_perm _ _ _ _ Hc')|].
  etrans; [|symmetry; apply (insert_delete_perm _ _ _ _ Hw)].
  apply Permutation_skip, (Permutation_cons_inv (a := x)).
  etrans; [symmetry; apply (delete_Permutation _ _ _ Hc')|].
  apply (insert_delete_perm _ _ _ _ Hw).
Qed.

Lemma iter_swap_perm i j a : iter_swap i j a ≡ₚ a.
Proof.
  unfold iter_swap. destruct (a !! i) as [x|] eqn:Hi; [|done].
  destruct (a !! j) as [y|] eqn:Hj; [|done].
  rewrite hole_move by done. by rewrite list_insert_id.
Qed.

Lemma move_median_to_first_perm result x y z a :
  move_median_to_first comp result x y z a ≡ₚ a.
Proof.
  unfold move_median_to_first.
  repeat destruct (comp_at _ _ _ _); apply iter_swap_perm.
Qed.

Lemma unguarded_partition_perm fuel a first last pivot :
  (unguarded_partition comp fuel a first last pivot).1 ≡ₚ a.
Proof.
  revert a first last. induction fuel as [|fuel IH]; intros a first last; [done|].
  cbn [unguarded_partition]. destruct (_ <? _); [|done].
  rewrite IH. apply iter_swap_perm.
Qed.

Lemma unguarded_partition_pivot_perm l :
  (unguarded_partition_pivot comp l).1 ≡ₚ l.
Proof.
  unfold unguarded_partition_pivot.
  rewrite unguarded_partition_perm. apply move_median_to_first_perm.
Qed.

Lemma push_heap_perm fuel hole top value h :
  is_Some (h !! hole) → push_heap comp fuel hole top value h ≡ₚ <[hole := value]> h.
Proof.
  revert hole h. induction fuel as [|fuel IH]; intros hole h Hh; [done|].
  cbn [push_heap]. destruct (h !! ((hole - 1) / 2)) as [p|] eqn:Hp; [|done].
  destruct (_ && _); [|done].
  rewrite IH.
  - by apply hole_move.
  - destruct (decide ((hole - 1) / 2 = hole)) as [Heq|Hne].
    + rewrite Heq, list_lookup_insert_eq; [done|]. by apply lookup_lt_is_Some.
    + by rewrite list_lookup_insert_ne.
Qed.

Lemma lookup_insert_is_Some' h (i j : nat) (x : A) :
  is_Some (h !! j) → is_Some (<[i := x]> h !! j).
Proof.
  intros Hj. apply lookup_lt_is_Some. rewrite length_insert.
  by apply lookup_lt_is_Some.
Qed.

Lemma sift_perm fuel hole len h value :
  is_Some (h !! hole) →
  is_Some ((sift comp fuel hole len h).1 !! (sift comp fuel hole len h).2) ∧
  <[(sift comp fuel hole len h).2 := value]> (sift comp fuel hole len h).1
  ≡ₚ <[hole := value]> h.
Proof.
  revert hole h. induction fuel as [|fuel IH]; intros hole h Hh; [done|].
  cbn [sift]. destruct (_ <? _); [|done].
  set (c := if comp_at comp h _ _ then _ else _).
  destruct (h !! c) as [x|] eqn:Hc; [|done].
  destruct (IH c (<[hole := x]> h)) as [Hin Hperm].
  { apply lookup_insert_is_Some'. by rewrite Hc. }
  split; [done|]. rewrite Hperm. by apply hole_move.
Qed.

Lemma adjust_heap_perm hole len value h :
  is_Some (h !! hole) → adjust_heap comp hole len value h ≡ₚ <[hole := value]> h.
Proof.
  intros Hh. unfold adjust_heap.
  destruct (sift_perm len hole len h value Hh) as [Hin Hperm].
  destruct (sift comp len hole len h) as [h1 hole1]. cbn [fst snd] in Hin, Hperm.
  destruct (Nat.even len && (hole1 =? (len - 2) / 2)).
  - destruct (h1 !! (2 * (hole1 + 1) - 1)) as [x|] eqn:Hx.
    + rewrite push_heap_perm.
      * by rewrite hole_move.
      * apply lookup_insert_is_Some'. by rewrite Hx.
    + by rewrite push_heap_perm.
  - by rewrite push_heap_perm.
Qed.

Lemma pop_heap_perm last result h : pop_heap comp last result h ≡ₚ h.
Proof.
  unfold pop_heap. destruct (h !! result) as [value|] eqn:Hr; [|done].
  destruct (h !! 0) as [x|] eqn:H0; [|done].
  rewrite adjust_heap_perm.
  - rewrite hole_move by done. by rewrite list_insert_id.
  - apply lookup_insert_is_Some'. by rewrite H0.
Qed.

Lemma make_heap_from_perm parent len h : make_heap_from comp parent len h ≡ₚ h.
Proof.
  revert h. induction parent as [|parent IH]; intros h; cbn [make_heap_from].
  - destruct (h !! 0) as [value|] eqn:Hv; [|done].
    rewrite adjust_heap_perm by done. by rewrite list_insert_id.
  - rewrite IH. destruct (h !! S parent) as [value|] eqn:Hv; [|done].
    rewrite adjust_heap_perm by done. by rewrite list_insert_id.
Qed.

Lemma sort_heap_perm n h : sort_heap comp n h ≡ₚ h.
Proof.
  revert h. induction n as [|n IH]; intros h; [done|]. cbn [sort_heap].
  destruct (1 <? S n); [|done]. rewrite IH. apply pop_heap_perm.
Qed.

Lemma partial_sort_perm h : partial_sort comp h ≡ₚ h.
Proof.
  unfold partial_sort, make_heap. rewrite sort_heap_perm.
  destruct (_ <? _); [done|]. apply make_heap_from_perm.
Qed.

Lemma introsort_loop_perm depth_limit l : introsort_loop comp depth_limit l ≡ₚ l.
Proof.
  revert l. induction depth_limit as [|d IH]; intros l; cbn [introsort_loop].
  - destruct (_ <? _); [apply partial_sort_perm|done].
  - destruct (_ <? _); [|done].
    pose proof (unguarded_partition_pivot_perm l) as Hp.
    destruct (unguarded_partition_pivot comp l) as [l' cut]. cbn [fst] in Hp.
    by rewrite !IH, take_drop.
Qed.

Lemma unguarded_linear_insert_perm val rp :
  unguarded_linear_insert comp val rp ≡ₚ val :: rp.
Proof.
  induction rp as [|x rp IH]; cbn [unguarded_linear_insert]; [done|].
  destruct (comp val x); [|done]. rewrite IH. apply Permutation_swap.
Qed.

Lemma insertion_step_perm rp val : insertion_step comp rp val ≡ₚ val :: rp.
Proof.
  unfold insertion_step. destruct (last rp) as [x|] eqn:Hl.
  - destruct (comp val x); [|apply unguarded_linear_insert_perm].
    by rewrite Permutation_app_comm.
  - by apply last_None in Hl as ->.
Qed.

Lemma foldl_insert_perm (step : list A → A → list A) rp l :
  (∀ rp val, step rp val ≡ₚ val :: rp) → foldl step rp l ≡ₚ rp ++ l.
Proof.
  intros Hstep. revert rp. induction l as [|x l IH]; intros rp; cbn [foldl].
  - by rewrite app_nil_r.
  - rewrite IH, Hstep. apply Permutation_middle.
Qed.

Lemma final_insertion_sort_perm l : final_insertion_sort comp l ≡ₚ l.
Proof.
  unfold final_insertion_sort. destruct (_ <? _); rewrite reverse_Permutation.
  - rewrite foldl_insert_perm by (intros; apply unguarded_linear_insert_perm).
    rewrite foldl_insert_perm by apply insertion_step_perm.
    by rewrite app_nil_l, take_drop.
  - by rewrite foldl_insert_perm by apply insertion_step_perm.
Qed.

Lemma libstdcxx_sort_perm l : libstdcxx_sort comp l ≡ₚ l.
Proof.
  unfold libstdcxx_sort. destruct l as [|x l]; [done|].
  by rewrite final_insertion_sort_perm, introsort_loop_perm.
Qed.

(** The part of the range that the insertion sort has put in order,
    from the back to the front. *)
Definition sorted_back rp : Prop :=
  StronglySorted (λ x y, comp x y = false) rp.

Lemma unguarded_linear_insert_sorted val rp :
  strict_weak_order comp → sorted_back rp →
  sorted_back (unguarded_linear_insert comp val rp).
Proof.
  intros [Hasym Hneg]. unfold sorted_back.
  induction rp as [|x rp IH]; cbn [unguarded_linear_insert]; intros Hs.
  - repeat constructor.
  - apply sorting.StronglySorted_cons in Hs as [Hx Hrp].
    destruct (comp val x) eqn:Hvx.
    + apply sorting.StronglySorted_cons. split; [|by apply IH].
      rewrite unguarded_linear_insert_perm. constructor; [by apply Hasym|done].
    + apply sorting.StronglySorted_cons. split.
      * constructor; [done|]. eapply Forall_impl; [exact Hx|].
        intros y Hy. by eapply Hneg.
      * by apply sorting.StronglySorted_cons.
Qed.

Lemma insertion_step_sorted rp val :
  strict_weak_order comp → sorted_back rp → sorted_back (insertion_step comp rp val).
Proof.
  intros Hc Hs. unfold insertion_step.
  destruct (last rp) as [x|] eqn:Hl; [|repeat constructor].
  destruct (comp val x) eqn:Hvx; [|by apply unguarded_linear_insert_sorted].
  destruct Hc as [Hasym Hneg].
  apply last_Some in Hl as [rp' ->]. unfold sorted_back in *.
  apply sorting.StronglySorted_app in Hs as (Hlt & Hrp' & _).
  rewrite <- (assoc (++)). apply sorting.StronglySorted_app. split_and!.
  - intros y z Hy [->|Hz]%elem_of_cons.
    + apply Hlt; [done|by left].
    + apply list_elem_of_singleton in Hz as ->.
      eapply Hneg; [apply (Hlt y x); [done|by left]|by apply Hasym].
  - done.
  - repeat constructor. by apply Hasym.
Qed.

Lemma foldl_sorted_back (step : list A → A → list A) rp l :
  (∀ rp val, sorted_back rp → sorted_back (step rp val)) →
  sorted_back rp → sorted_back (foldl step rp l).
Proof.
  intros Hstep. revert rp. induction l as [|x l IH]; intros rp Hs; [done|].
  cbn [foldl]. by apply IH, Hstep.
Qed.

Lemma sorted_back_rev rp :
  sorted_back rp → StronglySorted (not_after comp) (reverse rp).
Proof.
  unfold sorted_back. induction 1 as [|x rp Hrp IH Hx]; [constructor|].
  rewrite reverse_cons. apply sorting.StronglySorted_app. split_and!.
  - intros y z Hy Hz. apply list_elem_of_singleton in Hz as ->.
    unfold not_after.
    rewrite Forall_forall in Hx. apply Hx. by apply elem_of_reverse.
  - done.
  - repeat constructor.
Qed.

Lemma final_insertion_sort_sorted l :
  strict_weak_order comp →
  StronglySorted (not_after comp) (final_insertion_sort comp l).
Proof.
  intros Hc. unfold final_insertion_sort.
  destruct (_ <? _); apply sorted_back_rev.
  - apply foldl_sorted_back.
    { intros rp val. by apply unguarded_linear_insert_sorted. }
    apply foldl_sorted_back; [|constructor].
    intros rp val. by apply insertion_step_sorted.
  - apply foldl_sorted_back; [|constructor].
    intros rp val. by apply insertion_step_sorted.
Qed.

Lemma libstdcxx_sort_sorted l :
  strict_weak_order comp → StronglySorted (not_after comp) (libstdcxx_sort comp l).
Proof.
  intros Hc. unfold libstdcxx_sort. destruct l as [|x l]; [constructor|].
  by apply final_insertion_sort_sorted.
Qed.

End libstdcxx_facts.

(** The sort of libstdc++ implements the contract of [std::sort]. *)
Definition libstdcxx : StdSort :=
  {| std_sort := @libstdcxx_sort;
     std_sort_perm := @libstdcxx_sort_perm;
     std_sort_sorted := @libstdcxx_sort_sorted |}.

(** A priority queue kept as a list in priority order. *)
Lemma list_pq_make_spec (comp : nat → nat → bool) l :
  strict_weak_order comp →
  StronglySorted (not_after (flip comp)) (sort_last (flip comp) l) ∧
  sort_last (flip comp) l ≡ₚ l.
Proof.
  intros Hc. split; [|apply sort_last_perm].
  by apply sort_last_sorted, strict_weak_order_flip.
Qed.

Lemma list_pq_empty_spec (q : list nat) :
  match q with [] => true | _ => false end = true ↔ q = [].
Proof. by destruct q. Qed.

Lemma list_pq_top_spec (comp : nat → nat → bool) (q : list nat) :
  strict_weak_order comp → StronglySorted (not_after (flip comp)) q → q ≠ [] →
  ∃ t, head q = Some t ∧ t ∈ q ∧ ∀ x, x ∈ q → comp t x = false.
Proof.
  intros Hc Hs Hq. destruct q as [|t q]; [done|].
  exists t. split; [done|]. split; [by left|].
  apply sorting.StronglySorted_cons in Hs as [Ht _].
  intros x [->|Hx]%elem_of_cons; [by apply strict_weak_order_irrefl|].
  rewrite Forall_forall in Ht. exact (Ht x Hx).
Qed.

Lemma list_pq_pop_spec (comp comp' : nat → nat → bool) (q : list nat) t :
  strict_weak_order comp' →
  StronglySorted (not_after (flip comp)) q → head q = Some t →
  ∃ rest, q ≡ₚ t :: rest ∧ tail q = rest ∧
    ((∀ a b, a ∈ rest → b ∈ rest → comp' a b = comp a b) →
     StronglySorted (not_after (flip comp')) (tail q)).
Proof.
  intros _ Hs Hq. destruct q as [|t' q]; simplify_eq/=.
  exists q. split; [done|]. split; [done|]. intros Hagree.
  apply sorting.StronglySorted_cons in Hs as [_ Hs].
  induction Hs as [|a l Hl IH Ha]; [constructor|].
  constructor.
  - apply IH. intros; apply Hagree; by right.
  - rewrite Forall_forall in Ha |- *. intros b Hb. unfold not_after, flip.
    rewrite Hagree; [by apply Ha|by left|by right].
Qed.

Lemma list_pq_push_spec (comp : nat → nat → bool) (q : list nat) x :
  strict_weak_order comp → StronglySorted (not_after (flip comp)) q →
  StronglySorted (not_after (flip comp)) (insert_last (flip comp) x q) ∧
  insert_last (flip comp) x q ≡ₚ x :: q.
Proof.
  intros Hc Hs. split; [|apply insert_last_perm].
  by apply insert_last_sorted; [apply strict_weak_order_flip|].
Qed.

Definition list_pq : StdPriorityQueue :=
  {| pq := list nat;
     pq_make comp l := sort_last (flip comp) l;
     pq_empty q := match q with [] => true | _ => false end;
     pq_top := head;
     pq_pop _ q := tail q;
     pq_push comp x q := insert_last (flip comp) x q;
     pq_elems q := q;
     pq_heap comp q := StronglySorted (not_after (flip comp)) q;
     pq_make_spec := list_pq_make_spec;
     pq_empty_spec := list_pq_empty_spec;
     pq_top_spec := list_pq_top_spec;
     pq_pop_spec := list_pq_pop_spec;
     pq_push_spec := list_pq_push_spec |}.

(** ** [tsc_logger] *)

Section logger_facts.
Context {CB : Type}.
Implicit Types (l : tsc_logger CB) (ops : list (op CB)) (o : op CB).

Lemma compare_tsc_strict_weak_order : strict_weak_order (@compare_tsc CB).
Proof.
  unfold compare_tsc. split.
  - intros a b Hab. apply N.ltb_lt in Hab. apply N.ltb_ge. lia.
  - intros a b c Hab Hbc. apply N.ltb_ge in Hab, Hbc. apply N.ltb_ge. lia.
Qed.

Lemma not_after_compare_tsc (a b : op CB) :
  not_after compare_tsc a b ↔ tsc_le a b.
Proof. unfold not_after, compare_tsc, tsc_le. apply N.ltb_ge. Qed.

Lemma StronglySorted_weaken {A} (R R' : A → A → Prop) (xs : list A) :
  (∀ a b, R a b → R' a b) → StronglySorted R xs → StronglySorted R' xs.
Proof.
  intros HR. induction 1 as [|a xs Hs IH Ha]; constructor; [done|].
  eapply Forall_impl; [exact Ha|]. auto.
Qed.

Lemma is_sorted_tsc_le ops :
  StronglySorted tsc_le ops → is_sorted compare_tsc ops = true.
Proof.
  induction 1 as [|a ops Hs IH Ha]; [done|].
  destruct ops as [|b ops]; [done|].
  change (is_sorted compare_tsc (a :: b :: ops))
    with (negb (compare_tsc b a) && is_sorted compare_tsc (b :: ops)).
  rewrite IH, andb_true_r.
  apply Forall_cons in Ha as [Hab _].
  apply negb_true_iff, not_after_compare_tsc, Hab.
Qed.

Lemma sort_ops_perm `{StdSort} l : ops_ (sort_ops l) ≡ₚ ops_ l.
Proof. apply std_sort_perm. Qed.

Lemma sort_ops_sorted `{StdSort} l : StronglySorted tsc_le (ops_ (sort_ops l)).
Proof.
  eapply StronglySorted_weaken; [apply not_after_compare_tsc|].
  apply std_sort_sorted, compare_tsc_strict_weak_order.
Qed.

(** C6, as the code has it: with any implementation of [std::sort],
    [sort_ops] leaves the operations of the logger, rearranged so that
    their time stamps are non-decreasing.  Nothing is said about the
    relative order of operations with equal time stamps. *)
Theorem sort_ops_sorts `{StdSort} l :
  StronglySorted tsc_le (ops_ (sort_ops l)) ∧ ops_ (sort_ops l) ≡ₚ ops_ l.
Proof. split; [apply sort_ops_sorted|apply sort_ops_perm]. Qed.

Lemma ops_before_le max_tsc ops : ops_before max_tsc ops ≤ length ops.
Proof.
  induction ops as [|o ops IH]; simpl; [lia|].
  destruct (max_tsc <=? tsc o)%N; lia.
Qed.

Lemma ops_before_take max_tsc ops :
  Forall (λ o, (tsc o < max_tsc)%N) (take (ops_before max_tsc ops) ops).
Proof.
  induction ops as [|o ops IH]; simpl; [constructor|].
  destruct (N.leb_spec max_tsc (tsc o)); simpl; [constructor|].
  by constructor.
Qed.

Lemma ops_before_at max_tsc ops o :
  ops !! ops_before max_tsc ops = Some o → (max_tsc ≤ tsc o)%N.
Proof.
  induction ops as [|o' ops IH]; simpl; [done|].
  destruct (N.leb_spec max_tsc (tsc o')); simpl; [|done].
  by intros [= ->].
Qed.

Lemma ops_before_drop max_tsc ops :
  StronglySorted tsc_le ops →
  Forall (λ o, (max_tsc ≤ tsc o)%N) (drop (ops_before max_tsc ops) ops).
Proof.
  induction 1 as [|o ops Hs IH Ho]; simpl; [constructor|].
  destruct (N.leb_spec max_tsc (tsc o)); simpl; [|done].
  constructor; [done|].
  eapply Forall_impl; [exact Ho|]. unfold tsc_le. intros; lia.
Qed.

(** C7, as the code has it: every operation before the position
    returned by [ops_before_max_tsc] has a time stamp below [max_tsc]
    and the operation at that position, if there is one, has not; when
    the operations are in time stamp order, as [sort_ops] leaves them,
    no operation from that position on has a time stamp below
    [max_tsc]. *)
Theorem ops_before_max_tsc_prefix max_tsc l :
  let k := ops_before_max_tsc max_tsc l in
  Forall (λ o, (tsc o < max_tsc)%N) (take k (ops_ l)) ∧
  (∀ o, ops_ l !! k = Some o → (max_tsc ≤ tsc o)%N) ∧
  (StronglySorted tsc_le (ops_ l) →
   Forall (λ o, (max_tsc ≤ tsc o)%N) (drop k (ops_ l))).
Proof.
  split; [apply ops_before_take|].
  split; [apply ops_before_at|apply ops_before_drop].
Qed.

(** On a CPU that has the [rdtscp] instruction, [rdtscp()] calls
    itself and does not return, whatever the fuel. *)
Lemma rdtscp_recurses fuel now : rdtscp fuel (CpuEnv true now) = Timeout.
Proof. induction fuel as [|fuel IH]; [done|]. exact IH. Qed.

Lemma push_without_rdtscp fuel now (cb : CB) l :
  push (S fuel) (CpuEnv false now) cb l = Ret (Logger (ops_ l ++ [Op now cb])).
Proof. done. Qed.

End logger_facts.

Section interleave_facts.
Context {A : Type}.
Implicit Types (ls : list (list A)) (m : list A).

Lemma concat_all_nil ls : Forall (λ l, l = []) ls → concat ls = [].
Proof. induction 1 as [|l ls -> _ IH]; [done|]. by simpl. Qed.

Lemma concat_take_head ls i x xs :
  ls !! i = Some (x :: xs) → concat ls ≡ₚ x :: concat (<[i := xs]> ls).
Proof.
  revert i. induction ls as [|l ls IH]; intros [|i] Hi; simplify_eq/=; [done|].
  rewrite (IH _ Hi). by rewrite Permutation_middle.
Qed.

Lemma interleave_perm ls m : interleave ls m → m ≡ₚ concat ls.
Proof.
  induction 1 as [ls Hnil|ls i x xs m Hi _ IH].
  - by rewrite concat_all_nil.
  - by rewrite (concat_take_head _ _ _ _ Hi), IH.
Qed.

Lemma interleave_elem ls m y :
  interleave ls m → y ∈ m → ∃ i l, ls !! i = Some l ∧ y ∈ l.
Proof.
  induction 1 as [ls Hnil|ls i x xs m Hi _ IH]; [by intros ?%elem_of_nil|].
  intros [->|Hy]%elem_of_cons.
  - exists i, (x :: xs). split; [done|by left].
  - destruct (IH Hy) as (j & l & Hj & Hl).
    destruct (decide (i = j)) as [->|Hne].
    + rewrite list_lookup_insert_eq in Hj by (by eapply lookup_lt_Some).
      simplify_eq. exists j, (x :: l). split; [done|by right].
    + rewrite list_lookup_insert_ne in Hj by done. eauto.
Qed.

Lemma interleave_nil_inv ls : interleave ls [] → Forall (λ l, l = []) ls.
Proof. by inversion 1. Qed.

(** A sequence without elements may be added anywhere. *)
Lemma interleave_insert_empty ls1 ls2 m :
  interleave (ls1 ++ ls2) m → interleave (ls1 ++ [] :: ls2) m.
Proof.
  intros Hm. remember (ls1 ++ ls2) as ls eqn:Hls.
  revert ls1 ls2 Hls. induction Hm as [ls Hnil|ls i x xs m Hi _ IH];
    intros ls1 ls2 ->.
  - apply interleave_nil. apply Forall_app in Hnil as [H1 H2].
    apply Forall_app. split; [done|]. by constructor.
  - destruct (decide (i < length ls1)) as [Hlt|Hge].
    + rewrite lookup_app_l in Hi by done.
      apply (interleave_cons _ i x xs); [by rewrite lookup_app_l|].
      rewrite insert_app_l by done. apply IH. by rewrite insert_app_l.
    + rewrite lookup_app_r in Hi by lia.
      apply (interleave_cons _ (S i) x xs).
      { rewrite lookup_app_r by lia.
        by replace (S i - length ls1) with (S (i - length ls1)) by lia. }
      rewrite insert_app_r_alt by lia.
      replace (S i - length ls1) with (S (i - length ls1)) by lia. simpl.
      apply IH. by rewrite insert_app_r_alt by lia.
Qed.

Lemma interleave_filter_nonempty ls1 ls2 m :
  interleave (ls1 ++ filter (λ l, l ≠ []) ls2) m → interleave (ls1 ++ ls2) m.
Proof.
  revert ls1. induction ls2 as [|l ls2 IH]; intros ls1; [done|].
  rewrite filter_cons. destruct (decide (l ≠ [])) as [Hl|Hl].
  - rewrite !(cons_middle l), !(assoc (++)). apply IH.
  - intros Hm. apply dec_stable in Hl as ->.
    by apply interleave_insert_empty, IH.
Qed.

Lemma interleave_all ls m :
  interleave (filter (λ l, l ≠ []) ls) m → interleave ls m.
Proof. apply (interleave_filter_nonempty []). Qed.

Lemma interleave_singleton (l m : list A) : interleave [l] m → m = l.
Proof.
  intros Hm. remember [l] as ls eqn:Hls. revert l Hls.
  induction Hm as [ls Hnil|ls i x xs m Hi _ IH]; intros l ->.
  - by apply Forall_cons in Hnil as [-> _].
  - destruct i as [|i]; [|by destruct i]. cbn in Hi. injection Hi as ->.
    f_equal. by apply IH.
Qed.

End interleave_facts.

(** ** The merge loop *)

Section merge_facts.
Context {CB : Type} `{StdSort} `{StdPriorityQueue}.
Implicit Types (pending : list (tsc_logger CB)) (posns : list pos) (p : pos).

Lemma compare_strict_weak_order pending posns :
  strict_weak_order (compare pending posns).
Proof.
  unfold compare. split.
  - intros a b Hab. apply N.ltb_lt in Hab. apply N.ltb_ge. lia.
  - intros a b c Hab Hbc. apply N.ltb_ge in Hab, Hbc. apply N.ltb_ge. lia.
Qed.

Lemma range_done pending p : ¬ next p < end_ p → range pending p = [].
Proof.
  intros Hp. unfold range. by replace (end_ p - next p) with 0 by lia.
Qed.

Lemma range_step pending p :
  in_bounds pending p → next p < end_ p →
  ∃ o, deref pending p = Some o ∧
       range pending p = o :: range pending (advance p).
Proof.
  intros [_ Hend] Hlt. unfold range, deref, ops_at in *. simpl.
  destruct (pending !! logger p) as [l|]; simpl in *; [|lia].
  destruct (lookup_lt_is_Some_2 (ops_ l) (next p)) as [o Ho]; [lia|].
  exists o. split; [done|].
  rewrite (drop_S _ _ _ Ho).
  by replace (end_ p - next p) with (S (end_ p - S (next p))) by lia.
Qed.

Lemma range_nonempty_live pending posns a p y :
  posns !! a = Some p → y ∈ range pending p → live posns a.
Proof.
  intros Hp Hy. exists p. split; [done|].
  destruct (decide (next p < end_ p)); [done|].
  rewrite range_done in Hy by done. by apply elem_of_nil in Hy.
Qed.

Lemma head_tsc_range pending posns a p o xs :
  posns !! a = Some p → in_bounds pending p → range pending p = o :: xs →
  head_tsc pending posns a = tsc o.
Proof.
  intros Hp Hb Hr. unfold head_tsc. rewrite Hp. simpl.
  destruct (decide (next p < end_ p)) as [Hlt|Hge].
  - destruct (range_step _ _ Hb Hlt) as (o' & Hd & Hr').
    rewrite Hd. rewrite Hr in Hr'. by simplify_eq/=.
  - by rewrite range_done in Hr.
Qed.

Lemma head_tsc_insert_ne pending posns t p a :
  a ≠ t → head_tsc pending (<[t := p]> posns) a = head_tsc pending posns a.
Proof. intros Hne. unfold head_tsc. by rewrite list_lookup_insert_ne. Qed.

Lemma sum_list_lookup_le (f : pos → nat) posns a p :
  posns !! a = Some p → f p ≤ sum_list (f <$> posns).
Proof.
  revert a. induction posns as [|q posns IH]; intros [|a] Ha; simplify_eq/=.
  - lia.
  - specialize (IH _ Ha). lia.
Qed.

Lemma sum_list_insert (f : pos → nat) posns a p p' :
  posns !! a = Some p →
  sum_list (f <$> <[a := p']> posns) + f p = sum_list (f <$> posns) + f p'.
Proof.
  revert a. induction posns as [|q posns IH]; intros [|a] Ha; simplify_eq/=.
  - lia.
  - specialize (IH _ Ha). lia.
Qed.


Lemma live_insert_ne posns t p a :
  a ≠ t → live (<[t := p]> posns) a ↔ live posns a.
Proof. intros Hne. unfold live. by rewrite list_lookup_insert_ne. Qed.

Lemma live_insert_eq posns t p q :
  posns !! t = Some q → live (<[t := p]> posns) t ↔ next p < end_ p.
Proof.
  intros Hq%lookup_lt_Some. unfold live.
  rewrite list_lookup_insert_eq by done.
  split; [by intros (? & [= <-] & ?)|eauto].
Qed.

(** One turn of the loop keeps the invariant. *)
Lemma merge_inv_step pending posns heap t p :
  merge_inv pending posns heap →
  pq_top heap = Some t → posns !! t = Some p → next p < end_ p →
  let posns1 := <[t := advance p]> posns in
  let heap1 := pq_pop (compare pending posns1) heap in
  merge_inv pending posns1
    (if decide (S (next p) ≠ end_ p)
     then pq_push (compare pending posns1) t heap1 else heap1).
Proof.
  intros (Hb & Hs & Hheap & Hnd & Hlive) Htop Hp Hlt posns1 heap1.
  destruct (pq_pop_spec (compare pending posns) (compare pending posns1)
              heap t (compare_strict_weak_order _ _) Hheap Htop)
    as (rest & Hperm & Hrest & Hheap1).
  fold heap1 in Hrest, Hheap1.
  assert (NoDup (t :: rest)) as [Ht Hndr]%NoDup_cons by by rewrite <- Hperm.
  assert (pq_heap (compare pending posns1) heap1) as Hh1.
  { apply Hheap1. intros a b Ha Hb'. unfold compare, posns1.
    rewrite !head_tsc_insert_ne; [done|by intros ->..]. }
  assert (∀ a, a ≠ t → a ∈ rest ↔ live posns1 a) as Hother.
  { intros a Hne. unfold posns1. rewrite live_insert_ne by done.
    rewrite <- Hlive, Hperm, elem_of_cons. tauto. }
  assert (live posns1 t ↔ S (next p) ≠ end_ p) as Hself.
  { unfold posns1. rewrite (live_insert_eq _ _ _ _ Hp). simpl. lia. }
  destruct (Forall_lookup_1 _ _ _ _ Hb Hp) as [Hle Hend].
  destruct (range_step pending p) as (o & Ho & Hrange); [done..|].
  split_and!.
  - apply Forall_insert; [done|]. split; simpl; lia.
  - apply Forall_insert; [done|].
    pose proof (Forall_lookup_1 _ _ _ _ Hs Hp) as Hsp. simpl in Hsp.
    rewrite Hrange in Hsp. by apply sorting.StronglySorted_cons in Hsp as [_ ?].
  - destruct (decide (S (next p) ≠ end_ p)); [|done].
    by apply pq_push_spec; [apply compare_strict_weak_order|].
  - destruct (decide (S (next p) ≠ end_ p)); [|by rewrite Hrest].
    destruct (pq_push_spec (compare pending posns1) heap1 t
                (compare_strict_weak_order _ _) Hh1) as [_ ->].
    rewrite Hrest. by apply NoDup_cons.
  - intros a. destruct (decide (S (next p) ≠ end_ p)) as [Hpush|Hpop].
    + destruct (pq_push_spec (compare pending posns1) heap1 t
                  (compare_strict_weak_order _ _) Hh1) as [_ ->].
      rewrite Hrest, elem_of_cons.
      destruct (decide (a = t)) as [->|Hne].
      * split; [intros _; by apply Hself|by left].
      * rewrite <- Hother by done. tauto.
    + rewrite Hrest. destruct (decide (a = t)) as [->|Hne].
      * rewrite Hself. tauto.
      * by apply Hother.
Qed.

(** The operation under the cursor at the top of the heap is not
    stamped later than any operation still to be merged. *)
Lemma merge_top_least pending posns heap t p o xs :
  merge_inv pending posns heap →
  t ∈ pq_elems heap → (∀ x, x ∈ pq_elems heap → compare pending posns t x = false) →
  posns !! t = Some p → range pending p = o :: xs →
  ∀ j q y, posns !! j = Some q → y ∈ range pending q → tsc_le o y.
Proof.
  intros (Hb & Hs & _ & _ & Hlive) Ht Hmin Hp Hr j q y Hq Hy.
  assert (live posns j) as Hj by by eapply range_nonempty_live.
  apply Hlive, Hmin in Hj. unfold compare in Hj. apply N.ltb_ge in Hj.
  rewrite (head_tsc_range _ _ _ _ _ _ Hp (Forall_lookup_1 _ _ _ _ Hb Hp) Hr) in Hj.
  pose proof (Forall_lookup_1 _ _ _ _ Hs Hq) as Hsq. simpl in Hsq.
  destruct (range pending q) as [|o' ys] eqn:Hrq; [by apply elem_of_nil in Hy|].
  rewrite (head_tsc_range _ _ _ _ _ _ Hq (Forall_lookup_1 _ _ _ _ Hb Hq) Hrq) in Hj.
  apply sorting.StronglySorted_cons in Hsq as [Ho' _].
  unfold tsc_le in *.
  apply elem_of_cons in Hy as [->|Hy]; [done|].
  rewrite Forall_forall in Ho'. specialize (Ho' _ Hy). simpl in Ho'. lia.
Qed.


(** The merge loop returns.  What it appends to [merged_ops] is an
    interleaving of the ranges of the cursors, in time stamp order; the
    cursors keep their ends and their loggers. *)
Lemma merge_loop_spec fuel pending posns heap acc :
  merge_inv pending posns heap →
  sum_list (length ∘ range pending <$> posns) ≤ fuel →
  ∃ posns' out,
    merge_loop fuel pending posns heap acc = Ret (posns', acc ++ out) ∧
    interleave (range pending <$> posns) out ∧
    StronglySorted tsc_le out ∧
    (λ p, (end_ p, logger p)) <$> posns' = (λ p, (end_ p, logger p)) <$> posns.
Proof.
  revert posns heap acc.
  induction fuel as [|fuel IH]; intros posns heap acc Hinv Hfuel.
  all: pose proof Hinv as (Hb & Hs & Hheap & Hnd & Hlive).
  all: destruct (pq_empty heap) eqn:Hemp; simpl; rewrite Hemp.
  1, 3: apply pq_empty_spec in Hemp; exists posns, [];
    rewrite app_nil_r; split_and!; [done| |constructor|done];
    apply interleave_nil, Forall_fmap, Forall_lookup; intros a p Hp;
    apply range_done; intros Hlt;
    assert (a ∈ pq_elems heap) as Ha by (apply Hlive; by exists p);
    rewrite Hemp in Ha; by apply elem_of_nil in Ha.
  all: assert (pq_elems heap ≠ []) as Hne
    by (intros ?%pq_empty_spec; congruence).
  all: destruct (pq_top_spec _ _ (compare_strict_weak_order pending posns)
                   Hheap Hne) as (t & Htop & Ht & Hmin).
  all: pose proof Ht as (p & Hp & Hlt)%Hlive.
  all: destruct (range_step pending p) as (o & Ho & Hrange);
    [by eapply Forall_lookup_1|done|].
  all: pose proof (sum_list_insert (length ∘ range pending) posns t p
                     (advance p) Hp) as Hsum; simpl in Hsum;
    rewrite Hrange in Hsum; simpl in Hsum.
  - lia.
  - rewrite Htop, Hp, Ho.
    pose proof (merge_inv_step _ _ _ _ _ Hinv Htop Hp Hlt) as Hinv'.
    simpl in Hinv'.
    edestruct (IH _ _ (acc ++ [o]) Hinv') as (posns' & out & Heq & Hil & Hso & Hfields);
      [lia|].
    exists posns', (o :: out). split_and!.
    + rewrite Heq. by rewrite <- (assoc (++)).
    + apply (interleave_cons _ t o (range pending (advance p))).
      * by rewrite list_lookup_fmap, Hp, <- Hrange.
      * by rewrite <- list_fmap_insert.
    + constructor; [done|]. apply Forall_forall. intros y Hy.
      destruct (interleave_elem _ _ _ Hil Hy) as (j & l & Hj & Hl).
      rewrite list_lookup_fmap in Hj.
      destruct (decide (j = t)) as [->|Hjt].
      * rewrite list_lookup_insert_eq in Hj by (by eapply lookup_lt_Some).
        simplify_eq/=.
        pose proof (Forall_lookup_1 _ _ _ _ Hs Hp) as Hsp. simpl in Hsp.
        rewrite Hrange in Hsp.
        apply sorting.StronglySorted_cons in Hsp as [Hall _].
        rewrite Forall_forall in Hall. by apply Hall.
      * rewrite list_lookup_insert_ne in Hj by done.
        destruct (posns !! j) as [q|] eqn:Hq; simplify_eq/=.
        exact (merge_top_least _ _ _ _ _ _ _ Hinv Ht Hmin Hp Hrange _ _ _ Hq Hl).
    + rewrite Hfields, list_fmap_insert. simpl.
      apply list_insert_id. by rewrite list_lookup_fmap, Hp.
Qed.


(** The merge with the heap built from all cursors, each with an
    operation left: it returns, and the assertion holds. *)
Lemma heap_merge_spec pending posns :
  Forall (in_bounds pending) posns →
  Forall (λ p, next p < end_ p) posns →
  Forall (λ p, StronglySorted tsc_le (range pending p)) posns →
  sum_list (length ∘ range pending <$> posns) ≤ total_ops pending →
  ∃ posns' out,
    heap_merge pending posns = Ret (posns', out) ∧
    interleave (range pending <$> posns) out ∧
    StronglySorted tsc_le out ∧
    (λ p, (end_ p, logger p)) <$> posns' = (λ p, (end_ p, logger p)) <$> posns.
Proof.
  intros Hb Hl Hs Hfuel. unfold heap_merge.
  destruct (pq_make_spec (compare pending posns) (seq_vector (length posns))
              (compare_strict_weak_order _ _)) as [Hheap Helems].
  edestruct (merge_loop_spec (total_ops pending) pending posns
               (pq_make (compare pending posns) (seq_vector (length posns))) [])
    as (posns' & out & -> & Hil & Hso & Hfields); [|done|].
  { split_and!; [done..| |].
    - rewrite Helems. apply NoDup_seq.
    - intros a. rewrite Helems. unfold seq_vector, live.
      rewrite elem_of_seq. split.
      + intros [_ Ha]. destruct (lookup_lt_is_Some_2 posns a) as [p Hp]; [lia|].
        exists p. split; [done|]. by apply (Forall_lookup_1 _ _ _ _ Hl Hp).
      + intros (p & Hp%lookup_lt_Some & _). lia. }
  exists posns', out. simpl. by rewrite is_sorted_tsc_le.
Qed.

(** *** The cursors built by the first loop *)

Lemma cursors_nil (e : tsc_logger CB → nat) k ls :
  cursors e k ls = [] → Forall (λ l, e l = 0) ls.
Proof.
  revert k. induction ls as [|l ls IH]; intros k; simpl; [constructor|].
  destruct (e l) eqn:He; [|done]. intros Hc. constructor; eauto.
Qed.

Lemma ops_at_middle (pre ls : list (tsc_logger CB)) l :
  ops_at (pre ++ l :: ls) (length pre) = ops_ l.
Proof. unfold ops_at. by rewrite list_lookup_middle. Qed.

Lemma cursors_spec (e : tsc_logger CB → nat) pre ls :
  Forall (λ l, e l ≤ length (ops_ l)) ls →
  Forall (in_bounds (pre ++ ls)) (cursors e (length pre) ls) ∧
  Forall (λ p, next p < end_ p) (cursors e (length pre) ls) ∧
  range (pre ++ ls) <$> cursors e (length pre) ls
  = filter (λ x, x ≠ []) (covered e <$> ls).
Proof.
  intros He. revert pre. induction He as [|l ls Hl _ IH]; intros pre; [done|].
  specialize (IH (pre ++ [l])).
  rewrite <- (assoc (++)), length_app in IH. simpl in IH.
  replace (length pre + 1) with (S (length pre)) in IH by lia.
  destruct IH as (IHb & IHl & IHr).
  simpl. destruct (e l) as [|n] eqn:Hel.
  - rewrite filter_cons_False; [done|].
    intros Hc. apply Hc. unfold covered. by rewrite Hel.
  - destruct (ops_ l) as [|o os] eqn:Hops; [simpl in Hl; lia|].
    assert (covered e l = take (S n) (ops_ l)) as Hcov
      by (unfold covered; by rewrite Hel).
    rewrite filter_cons_True by (by rewrite Hcov, Hops).
    split_and!.
    + constructor; [|done]. split; simpl; [lia|]. by rewrite ops_at_middle, Hops.
    + constructor; [simpl; lia|done].
    + simpl. f_equal; [|done].
      unfold range. simpl. by rewrite ops_at_middle, Hcov.
Qed.

Lemma sum_list_filter_covered (e : tsc_logger CB → nat) (ls : list (tsc_logger CB)) :
  sum_list (length <$> filter (λ x, x ≠ []) (covered e <$> ls)) ≤ total_ops ls.
Proof.
  unfold total_ops. induction ls as [|l ls IH]; csimpl; [done|].
  rewrite filter_cons.
  assert (length (covered e l) ≤ length (ops_ l))
    by (unfold covered; rewrite length_take; lia).
  destruct (decide (covered e l ≠ [])); csimpl; lia.
Qed.

Lemma ops_sorted_nonempty (l : tsc_logger CB) :
  ops_ (sorted_nonempty l) = ops_ (sort_ops l).
Proof.
  unfold sorted_nonempty. destruct (ops_ l) eqn:Hl; [|done].
  symmetry. rewrite Hl. apply Permutation_nil_r. by rewrite sort_ops_perm, Hl.
Qed.

Lemma sort_pending_eq k pending :
  sort_pending k pending
  = (sorted_nonempty <$> pending,
     cursors (length ∘ ops_) k (sorted_nonempty <$> pending)).
Proof.
  revert k. induction pending as [|l ls IH]; intros k; [done|].
  cbn [sort_pending]. rewrite IH, fmap_cons. cbn [cursors].
  destruct (ops_ l) as [|o os] eqn:Hl.
  - assert (sorted_nonempty l = l) as ->
      by (unfold sorted_nonempty; by rewrite Hl).
    change ((length ∘ ops_) l) with (length (ops_ l)). by rewrite Hl.
  - assert (sorted_nonempty l = sort_ops l) as ->
      by (unfold sorted_nonempty; by rewrite Hl).
    pose proof (Permutation_length (sort_ops_perm l)) as Hlen.
    rewrite Hl in Hlen.
    change ((length ∘ ops_) (sort_ops l)) with (length (ops_ (sort_ops l))).
    destruct (length (ops_ (sort_ops l))) eqn:Hlen'; [discriminate Hlen|done].
Qed.

Lemma sort_pending_max_eq max_tsc k pending :
  sort_pending_max max_tsc k pending
  = (sort_ops <$> pending,
     cursors (ops_before_max_tsc max_tsc) k (sort_ops <$> pending)).
Proof.
  revert k. induction pending as [|l ls IH]; intros k; [done|].
  simpl. rewrite IH.
  by destruct (ops_before_max_tsc max_tsc (sort_ops l)) eqn:He.
Qed.



Lemma StronglySorted_take {A} (R : A → A → Prop) (xs : list A) n :
  StronglySorted R xs → StronglySorted R (take n xs).
Proof.
  intros Hs. rewrite <- (take_drop n xs) in Hs.
  by apply sorting.StronglySorted_app_1_l in Hs.
Qed.

(** The merge over the cursors of the first loop: it returns an
    interleaving of the covered parts of the loggers, in time stamp
    order. *)
Lemma heap_merge_cursors (e : tsc_logger CB → nat) pending :
  Forall (λ l, StronglySorted tsc_le (ops_ l)) pending →
  Forall (λ l, e l ≤ length (ops_ l)) pending →
  ∃ posns' out,
    heap_merge pending (cursors e 0 pending) = Ret (posns', out) ∧
    interleave (covered e <$> pending) out ∧
    StronglySorted tsc_le out ∧
    (λ p, (end_ p, logger p)) <$> posns'
    = (λ p, (end_ p, logger p)) <$> cursors e 0 pending.
Proof.
  intros Hs He.
  destruct (cursors_spec e [] pending He) as (Hb & Hl & Hr). simpl in *.
  destruct (heap_merge_spec pending (cursors e 0 pending))
    as (posns' & out & Heq & Hil & Hso & Hfields); [done..| | |].
  - apply (Forall_fmap (range pending) (StronglySorted tsc_le)).
    rewrite Hr. apply Forall_forall.
    intros x [_ (l & -> & Hl')%list_elem_of_fmap]%list_elem_of_filter.
    apply StronglySorted_take. rewrite Forall_forall in Hs. by apply Hs.
  - rewrite list_fmap_compose, Hr. apply sum_list_filter_covered.
  - exists posns', out. split_and!; [done| |done..].
    apply interleave_all. by rewrite <- Hr.
Qed.

(** *** [flush_finish] *)

Lemma sorted_nonempty_sorted (l : tsc_logger CB) :
  StronglySorted tsc_le (ops_ (sorted_nonempty l)).
Proof. rewrite ops_sorted_nonempty. apply sort_ops_sorted. Qed.

Lemma sorted_nonempty_no_ops (l : tsc_logger CB) :
  length (ops_ (sorted_nonempty l)) = 0 → sorted_nonempty l = l ∧ ops_ l = [].
Proof.
  rewrite ops_sorted_nonempty, (Permutation_length (sort_ops_perm l)).
  intros Hl%nil_length_inv. unfold sorted_nonempty. by rewrite Hl.
Qed.

(** [flush_finish] returns.  The operations it runs are an
    interleaving of the sorted loggers, in time stamp order.  Either
    [pending_] is cleared, or no logger holds an operation and
    [pending_] is left as it is. *)
Lemma flush_finish_spec pending :
  ∃ pending' executed,
    flush_finish pending = Ret (pending', executed) ∧
    StronglySorted tsc_le executed ∧
    interleave (ops_ ∘ sort_ops <$> pending) executed ∧
    (pending' = [] ∨
     (pending' = pending ∧ executed = [] ∧ Forall (λ l, ops_ l = []) pending)).
Proof.
  destruct pending as [|l0 ls].
  { exists [], []. split_and!; [done|constructor| |by left].
    by apply interleave_nil. }
  set (pending := l0 :: ls). unfold flush_finish.
  change (sort_pending 0 (l0 :: ls)) with (sort_pending 0 pending).
  rewrite sort_pending_eq.
  destruct (cursors (length ∘ ops_) 0 (sorted_nonempty <$> pending))
    as [|p ps] eqn:Hc.
  - apply cursors_nil in Hc. rewrite Forall_fmap in Hc.
    assert (Forall (λ l, sorted_nonempty l = l ∧ ops_ l = []) pending) as Hall.
    { eapply Forall_impl; [exact Hc|]. intros l. apply sorted_nonempty_no_ops. }
    exists pending, []. split_and!.
    + do 2 f_equal. rewrite <- (list_fmap_id pending) at 2.
      apply list_fmap_ext. intros i l Hl.
      by apply (Forall_lookup_1 _ _ _ _ Hall Hl).
    + constructor.
    + apply interleave_nil, Forall_fmap. eapply Forall_impl; [exact Hall|].
      intros l [_ Hl]. unfold compose. apply Permutation_nil_r.
      by rewrite sort_ops_perm, Hl.
    + right. split_and!; [done..|]. eapply Forall_impl; [exact Hall|]. by intros l [].
  - rewrite <- Hc.
    destruct (heap_merge_cursors (length ∘ ops_) (sorted_nonempty <$> pending))
      as (posns' & out & -> & Hil & Hso & _).
    { apply Forall_fmap, Forall_true. intros l. apply sorted_nonempty_sorted. }
    { by apply Forall_true. }
    exists [], out. split_and!; [done..| |by left].
    rewrite <- list_fmap_compose in Hil.
    erewrite list_fmap_ext; [exact Hil|].
    intros i l _. simpl. unfold covered. simpl.
    by rewrite take_ge, ops_sorted_nonempty.
Qed.


Lemma cursors_none (e : tsc_logger CB → nat) k ls :
  Forall (λ l, e l = 0) ls → cursors e k ls = [].
Proof.
  intros He. revert k. induction He as [|l ls Hl _ IH]; intros k; [done|].
  simpl. by rewrite Hl.
Qed.

(** When [pending_] holds loggers but no operation, the second early
    return leaves [pending_] as it is. *)
Lemma flush_finish_no_ops pending :
  Forall (λ l, ops_ l = []) pending →
  flush_finish pending = Ret (pending, []).
Proof.
  intros Hall. destruct pending as [|l0 ls]; [done|].
  set (pending := l0 :: ls) in *. unfold flush_finish.
  change (sort_pending 0 (l0 :: ls)) with (sort_pending 0 pending).
  rewrite sort_pending_eq.
  assert (sorted_nonempty <$> pending = pending) as ->.
  { rewrite <- (list_fmap_id pending) at 2. apply list_fmap_ext.
    intros i l Hl. unfold sorted_nonempty.
    by rewrite (Forall_lookup_1 _ _ _ _ Hall Hl). }
  rewrite cursors_none; [done|].
  eapply Forall_impl; [exact Hall|]. intros l Hl. unfold compose. by rewrite Hl.
Qed.

(** *** [flush_finish_max_timestamp] *)

(** In a sorted sequence the position of [ops_before_max_tsc] parts the
    operations stamped before [max_tsc] from the others. *)
Lemma ops_before_sorted max_tsc (ops : list (op CB)) :
  StronglySorted tsc_le ops →
  take (ops_before max_tsc ops) ops = filter (λ o, (tsc o < max_tsc)%N) ops ∧
  drop (ops_before max_tsc ops) ops = filter (λ o, (max_tsc ≤ tsc o)%N) ops.
Proof.
  induction 1 as [|o ops Hs [IHt IHd] Ho]; [done|]. simpl.
  destruct (N.leb_spec max_tsc (tsc o)) as [Hle|Hlt]; simpl.
  - assert (Forall (λ o', (max_tsc ≤ tsc o')%N) (o :: ops)) as Hall.
    { constructor; [done|]. eapply Forall_impl; [exact Ho|].
      unfold tsc_le. intros; lia. }
    clear IHt IHd Hs Ho. split.
    + induction Hall as [|o' ops' Ho' _ IH]; [done|].
      rewrite filter_cons_False by lia. done.
    + induction Hall as [|o' ops' Ho' _ IH]; [done|].
      rewrite filter_cons_True by done. by f_equal.
  - rewrite filter_cons_True by done. rewrite filter_cons_False by lia.
    by rewrite IHt.
Qed.

Lemma logger_eta (l : tsc_logger CB) : Logger (ops_ l) = l.
Proof. by destruct l. Qed.

(** The loop of [erase] calls erases from every logger the part that
    its cursor covered. *)
Lemma erase_cursors (e : tsc_logger CB → nat) pre ls posns' :
  (λ p, (end_ p, logger p)) <$> posns'
  = (λ p, (end_ p, logger p)) <$> cursors e (length pre) ls →
  foldl erase_applied (pre ++ ls) posns' = pre ++ (erased e <$> ls).
Proof.
  revert pre posns'. induction ls as [|l ls IH]; intros pre posns'; csimpl.
  { by intros ->%fmap_nil_inv. }
  assert (∀ l' ps,
    (λ p, (end_ p, logger p)) <$> ps
    = (λ p, (end_ p, logger p)) <$> cursors e (S (length pre)) ls →
    foldl erase_applied (pre ++ l' :: ls) ps
    = pre ++ l' :: (erased e <$> ls)) as IH'.
  { intros l' ps Hf. specialize (IH (pre ++ [l']) ps).
    rewrite <- !(assoc (++)) in IH. apply IH.
    rewrite length_app. simpl. by replace (length pre + 1) with (S (length pre)) by lia. }
  assert (erased e l = Logger (drop (e l) (ops_ l))) as Hl by done.
  destruct (e l) as [|n] eqn:Hel.
  - rewrite drop_0, logger_eta in Hl. rewrite Hl. apply IH'.
  - destruct posns' as [|p' ps']; [done|]. intros [= Hend Hlog Hf]. simpl.
    unfold erase_applied at 2. rewrite Hend, Hlog.
    rewrite alter_app_r_alt by done. rewrite Nat.sub_diag. simpl.
    rewrite (IH' _ _ Hf). by rewrite Hl.
Qed.

(** [flush_finish_max_timestamp] returns.  It runs an interleaving of
    the parts of the sorted loggers that come before [max_tsc], in time
    stamp order.  These parts are erased; then the loggers without
    operations are removed, unless no logger had an operation before
    [max_tsc]. *)
Lemma flush_finish_max_timestamp_spec max_tsc pending :
  ∃ pending' executed,
    flush_finish_max_timestamp max_tsc pending = Ret (pending', executed) ∧
    StronglySorted tsc_le executed ∧
    interleave (covered (ops_before_max_tsc max_tsc) ∘ sort_ops <$> pending)
      executed ∧
    (pending'
     = drop_empty (erased (ops_before_max_tsc max_tsc) ∘ sort_ops <$> pending) ∨
     (pending' = erased (ops_before_max_tsc max_tsc) ∘ sort_ops <$> pending ∧
      executed = [] ∧
      Forall (λ l, ops_before_max_tsc max_tsc (sort_ops l) = 0) pending)).
Proof.
  destruct pending as [|l0 ls].
  { exists [], []. split_and!; [done|constructor| |by left].
    by apply interleave_nil. }
  set (pending := l0 :: ls). set (e := ops_before_max_tsc max_tsc).
  unfold flush_finish_max_timestamp.
  change (sort_pending_max max_tsc 0 (l0 :: ls))
    with (sort_pending_max max_tsc 0 pending).
  rewrite sort_pending_max_eq. fold e.
  destruct (cursors e 0 (sort_ops <$> pending)) as [|p ps] eqn:Hc.
  - apply cursors_nil in Hc. rewrite Forall_fmap in Hc.
    exists (sort_ops <$> pending), []. split_and!; [done|constructor| |].
    + apply interleave_nil, Forall_fmap. eapply Forall_impl; [exact Hc|].
      intros l Hl. simpl in *. unfold covered. by rewrite Hl.
    + right. split_and!; [|done..].
      apply list_fmap_ext. intros i l Hl. simpl. unfold erased.
      pose proof (Forall_lookup_1 _ _ _ _ Hc Hl) as He. simpl in He.
      by rewrite He, drop_0, logger_eta.
  - rewrite <- Hc.
    destruct (heap_merge_cursors e (sort_ops <$> pending))
      as (posns' & out & -> & Hil & Hso & Hf).
    { apply Forall_fmap, Forall_true. intros l. apply sort_ops_sorted. }
    { apply Forall_true. intros l. apply ops_before_le. }
    rewrite <- list_fmap_compose in Hil.
    exists (drop_empty (erased e ∘ sort_ops <$> pending)), out.
    split_and!; [|done..|by left].
    pose proof (erase_cursors e [] _ _ Hf) as Herase.
    rewrite !app_nil_l, <- list_fmap_compose in Herase.
    cbv [mbind outcome_bind]. by rewrite Herase.
Qed.

Lemma concat_filter_sorted (P : op CB → Prop) `{!∀ o, Decision (P o)}
    (f : tsc_logger CB → list (op CB)) pending :
  (∀ l, f l ≡ₚ filter P (ops_ l)) →
  concat (f <$> pending) ≡ₚ filter P (concat (ops_ <$> pending)).
Proof.
  intros Hf. induction pending as [|l ls IH]; csimpl; [done|].
  by rewrite filter_app, Hf, IH.
Qed.

(** What [flush_finish_max_timestamp] runs are the pending operations
    stamped before [max_tsc]; what it leaves of a logger are the others. *)
Lemma covered_before max_tsc pending (executed : list (op CB)) :
  interleave (covered (ops_before_max_tsc max_tsc) ∘ sort_ops <$> pending)
    executed →
  executed ≡ₚ filter (λ o, (tsc o < max_tsc)%N) (concat (ops_ <$> pending)).
Proof.
  intros Hil. rewrite (interleave_perm _ _ Hil). apply concat_filter_sorted.
  intros l. unfold compose, covered, ops_before_max_tsc.
  rewrite (proj1 (ops_before_sorted _ _ (sort_ops_sorted l))).
  by rewrite sort_ops_perm.
Qed.

Lemma erased_not_before max_tsc (l : tsc_logger CB) :
  ops_ (erased (ops_before_max_tsc max_tsc) (sort_ops l))
  ≡ₚ filter (λ o, (max_tsc ≤ tsc o)%N) (ops_ l).
Proof.
  unfold erased, ops_before_max_tsc. cbn [ops_].
  rewrite (proj2 (ops_before_sorted _ _ (sort_ops_sorted l))).
  by rewrite sort_ops_perm.
Qed.


End merge_facts.

(** ** [synchronize] *)

Section object_facts.
Context {CB St : Type} (call : CB → St → St).
Context `{StdSort} `{StdPriorityQueue}.
Context (NCPU : nat).
Implicit Types (o : tsc_logged_object CB St) (cpus : list nat).

Lemma bitset_test_reset b i j :
  bitset_test (atomic_reset b j) i = bitset_test b i && negb (bool_decide (i = j)).
Proof.
  unfold bitset_test, atomic_reset. rewrite N.clearbit_eqb. f_equal. f_equal.
  destruct (N.eqb_spec (N.of_nat j) (N.of_nat i)) as [Heq|Hne].
  - apply Nat2N.inj in Heq as ->. by rewrite bool_decide_eq_true_2.
  - rewrite bool_decide_eq_false_2; [done|]. by intros ->.
Qed.

Lemma bitset_test_reset_all b cpus i :
  bitset_test (foldl atomic_reset b cpus) i = true ↔
  bitset_test b i = true ∧ i ∉ cpus.
Proof.
  revert b. induction cpus as [|j cpus IH]; intros b; simpl.
  - rewrite elem_of_nil. tauto.
  - rewrite IH, bitset_test_reset, andb_true_iff, negb_true_iff,
      bool_decide_eq_false, not_elem_of_cons. tauto.
Qed.

Lemma bitset_elems_spec b i :
  i ∈ bitset_elems NCPU b ↔ bitset_test b i = true ∧ i < NCPU.
Proof.
  unfold bitset_elems. rewrite list_elem_of_filter, elem_of_seq. intuition lia.
Qed.

Lemma bitset_elems_NoDup b : NoDup (bitset_elems NCPU b).
Proof. apply NoDup_filter, NoDup_seq. Qed.

(** After a pass over the bits found set, no bit is set. *)
Lemma bitset_elems_reset_all b :
  bitset_elems NCPU (foldl atomic_reset b (bitset_elems NCPU b)) = [].
Proof.
  apply elem_of_nil_inv. intros i [Hi Hlt]%bitset_elems_spec.
  apply bitset_test_reset_all in Hi as [Hi Hni].
  apply Hni, bitset_elems_spec. done.
Qed.

Lemma set_way_other (cache : nat → N → way CB) cpu wayno w cpu' :
  cpu' ≠ cpu → set_way cache cpu wayno w cpu' = cache cpu'.
Proof. intros Hne. unfold set_way. by rewrite fn_lookup_insert_ne. Qed.

Lemma set_way_same (cache : nat → N → way CB) cpu wayno w :
  set_way cache cpu wayno w cpu wayno = w.
Proof. unfold set_way. by rewrite !fn_lookup_insert. Qed.

Lemma bitset_test_set b i : bitset_test (atomic_set b i) i = true.
Proof. unfold bitset_test, atomic_set. apply N.setbit_eq. Qed.

(** [get_logger] leaves the way of the CPU tagged with the object and
    locked, and the bit of the CPU set; it does not touch [pending_],
    the sync lock or the object's state. *)
Lemma get_logger_spec fuel id this sync_locked o o' ev :
  get_logger fuel id this sync_locked o = Ret (o', ev) →
  obj_ (cache_ o' id (hash_way this)) = Some this ∧
  lock_ (cache_ o' id (hash_way this)) = true ∧
  bitset_test (cpus_ o') id = true ∧
  pending_ o' = pending_ o ∧ sync_lock_ o' = sync_lock_ o ∧
  state o' = state o.
Proof.
  assert (∀ l ev', tag_way id this l ev' o = Ret (o', ev) →
    obj_ (cache_ o' id (hash_way this)) = Some this ∧
    lock_ (cache_ o' id (hash_way this)) = true ∧
    bitset_test (cpus_ o') id = true ∧
    pending_ o' = pending_ o ∧ sync_lock_ o' = sync_lock_ o ∧
    state o' = state o) as Htag.
  { intros l ev'. unfold tag_way. intros [= <- _]. cbn [cache_ cpus_].
    rewrite set_way_same. split_and!; [done..| |done|done|done].
    destruct (bitset_test (cpus_ o) id) eqn:Hbit; [done|].
    apply bitset_test_set. }
  induction fuel as [|fuel IH]; [done|]. cbn [get_logger].
  destruct (lock_ (cache_ o id (hash_way this))); [done|].
  destruct (obj_ (cache_ o id (hash_way this))) as [cur|]; [|by apply Htag].
  destruct (decide (cur = this)); [by apply Htag|].
  destruct (sync_locked cur); [done|by apply Htag].
Qed.

Lemma gather_cpu_spec this cpu o o' :
  gather_cpu this cpu o = Ret o' →
  pending_ o' = pending_ o ++ [logger_of this o cpu] ∧
  cpus_ o' = atomic_reset (cpus_ o) cpu ∧
  state o' = state o ∧ sync_lock_ o' = sync_lock_ o ∧
  ∀ cpu', cpu' ≠ cpu → cache_ o' cpu' = cache_ o cpu'.
Proof.
  unfold gather_cpu, logger_of.
  destruct (lock_ _); [done|]. destruct (decide _); [|done].
  intros [= <-]. simpl. split_and!; [done..|].
  intros cpu' Hne. by apply set_way_other.
Qed.

Lemma gather_pass_spec this cpus o o' :
  NoDup cpus →
  gather_pass this cpus o = Ret o' →
  pending_ o' = pending_ o ++ (logger_of this o <$> cpus) ∧
  cpus_ o' = foldl atomic_reset (cpus_ o) cpus ∧
  state o' = state o ∧ sync_lock_ o' = sync_lock_ o ∧
  ∀ cpu', cpu' ∉ cpus → cache_ o' cpu' = cache_ o cpu'.
Proof.
  intros Hnd. revert o. induction Hnd as [|cpu cpus Hcpu Hnd IH]; intros o; simpl.
  { intros [= <-]. by rewrite app_nil_r. }
  destruct (gather_cpu this cpu o) as [o1| |] eqn:H1; [|done..]. simpl.
  intros (Hp & Hc & Hs & Hl & Hcache)%IH.
  apply gather_cpu_spec in H1 as (Hp1 & Hc1 & Hs1 & Hl1 & Hcache1).
  split_and!; [|congruence..|].
  - rewrite Hp, Hp1, <- (assoc (++)). do 2 f_equal.
    apply list_fmap_ext. intros i cpu' Hi%list_elem_of_lookup_2.
    unfold logger_of. rewrite Hcache1; [done|]. by intros ->.
  - intros cpu' [Hne Hni]%not_elem_of_cons. by rewrite Hcache, Hcache1.
Qed.

(** The gather loop returns once no bit is set, and a first pass has
    moved the loggers of all CPUs whose bits were set. *)
Lemma gather_spec fuel this o o' :
  gather NCPU fuel this o = Ret o' →
  bitset_elems NCPU (cpus_ o') = [] ∧
  pending_ o' = pending_ o ++ gathered NCPU this o ∧
  state o' = state o ∧ sync_lock_ o' = sync_lock_ o.
Proof.
  destruct fuel as [|fuel]; [done|]. cbn [gather].
  destruct (bitset_elems NCPU (cpus_ o)) as [|cpu cpus] eqn:Hcpus.
  { intros [= <-]. unfold gathered. by rewrite Hcpus, app_nil_r. }
  rewrite <- Hcpus. unfold gathered.
  destruct (gather_pass this _ o) as [o1| |] eqn:H1; [|done..].
  cbn [mbind outcome_bind].
  apply gather_pass_spec in H1 as (Hp & Hc & Hs & Hl & _);
    [|apply bitset_elems_NoDup].
  assert (bitset_elems NCPU (cpus_ o1) = []) as Hnone
    by (rewrite Hc; apply bitset_elems_reset_all).
  destruct fuel as [|fuel]; [done|]. cbn [gather]. rewrite Hnone.
  by intros [= <-].
Qed.


Lemma gather_pass_returns this cpus o :
  NoDup cpus →
  (∀ cpu, cpu ∈ cpus →
     obj_ (cache_ o cpu (hash_way this)) = Some this ∧
     lock_ (cache_ o cpu (hash_way this)) = false) →
  returns (gather_pass this cpus o).
Proof.
  intros Hnd. revert o. induction Hnd as [|cpu cpus Hcpu Hnd IH]; intros o Htags.
  { by exists o. }
  simpl. destruct (Htags cpu) as [Hobj Hlock]; [by left|].
  destruct (gather_cpu this cpu o) as [o1| |] eqn:H1.
  - simpl. apply IH. intros cpu' Hcpu'.
    apply gather_cpu_spec in H1 as (_ & _ & _ & _ & Hcache).
    rewrite Hcache by (by intros ->). apply Htags. by right.
  - unfold gather_cpu in H1. rewrite Hlock, decide_True in H1 by done. done.
  - unfold gather_cpu in H1. rewrite Hlock, decide_True in H1 by done. done.
Qed.

Lemma gather_returns fuel this o :
  tags_ok NCPU this o → returns (gather NCPU (S (S fuel)) this o).
Proof.
  unfold tags_ok. rewrite Forall_forall. intros Htags. cbn [gather].
  destruct (bitset_elems NCPU (cpus_ o)) as [|cpu cpus] eqn:Hcpus; [by exists o|].
  rewrite <- Hcpus.
  destruct (gather_pass_returns this (bitset_elems NCPU (cpus_ o)) o)
    as [o1 H1]; [apply bitset_elems_NoDup|by rewrite Hcpus|].
  rewrite H1. cbn [mbind outcome_bind].
  apply gather_pass_spec in H1 as (_ & Hc & _); [|apply bitset_elems_NoDup].
  rewrite Hc, bitset_elems_reset_all. by exists o1.
Qed.

Lemma synchronize_inv fuel this o o' executed :
  synchronize call NCPU fuel this o = Ret (o', executed) →
  sync_lock_ o = false ∧
  ∃ og,
    gather NCPU fuel this (Obj (cache_ o) (cpus_ o) true (pending_ o) (state o))
    = Ret og ∧
    flush_finish (pending_ og) = Ret (pending_ o', executed) ∧
    o' = Obj (cache_ og) (cpus_ og) (sync_lock_ og) (pending_ o')
             (run_all call executed (state og)).
Proof.
  unfold synchronize, sync_guard. destruct (sync_lock_ o); [done|].
  cbn [mbind outcome_bind].
  destruct (gather NCPU fuel this _) as [og| |] eqn:Hg; [|done..].
  cbn [mbind outcome_bind].
  destruct (flush_finish (pending_ og)) as [[pending' ex]| |] eqn:Hf; [|done..].
  cbn [mbind outcome_bind]. intros [= <- <-]. split; [done|].
  exists og. by rewrite Hf.
Qed.

(** With the sync lock free and the ways of the CPUs in [cpus_] tagged
    for the object, [synchronize] returns after two turns of the gather
    loop. *)
Lemma synchronize_returns fuel this o :
  sync_lock_ o = false → tags_ok NCPU this o →
  returns (synchronize call NCPU (S (S fuel)) this o).
Proof.
  intros Hlock Htags. unfold synchronize, sync_guard. rewrite Hlock.
  cbn [mbind outcome_bind].
  destruct (gather_returns fuel this
              (Obj (cache_ o) (cpus_ o) true (pending_ o) (state o)))
    as [og ->]; [done|].
  cbn [mbind outcome_bind].
  destruct (flush_finish_spec (pending_ og)) as (pending' & ex & -> & _).
  by eexists.
Qed.

(** The operations that a [synchronize] that returned has run. *)
Lemma synchronize_executed fuel this o o' executed :
  synchronize call NCPU fuel this o = Ret (o', executed) →
  StronglySorted tsc_le executed ∧
  interleave (ops_ ∘ sort_ops <$> (pending_ o ++ gathered NCPU this o))
    executed ∧
  state o' = run_all call executed (state o).
Proof.
  intros (_ & og & Hg & Hf & ->)%synchronize_inv.
  apply gather_spec in Hg as (_ & Hp & Hs & _). simpl in Hp, Hs.
  destruct (flush_finish_spec (pending_ og)) as (p' & ex & Hf' & Hso & Hil & _).
  rewrite Hf in Hf'. injection Hf' as <- <-.
  rewrite Hp in Hil. simpl. by rewrite Hs.
Qed.

(** C1, as the code has it: with the sync lock free and the ways of
    the CPUs in [cpus_] tagged for the object, [synchronize] returns.
    The operations it runs are those of the loggers already pending and
    of the loggers of the CPUs in [cpus_], in one sequence of
    non-decreasing time stamps; the operations of one logger run in the
    order in which [sort_ops] left them.  The object's state is the
    result of running them in that sequence. *)
Theorem synchronize_order fuel this o :
  sync_lock_ o = false → tags_ok NCPU this o →
  ∃ o' executed,
    synchronize call NCPU (S (S fuel)) this o = Ret (o', executed) ∧
    StronglySorted tsc_le executed ∧
    interleave (ops_ ∘ sort_ops <$> (pending_ o ++ gathered NCPU this o))
      executed ∧
    state o' = run_all call executed (state o).
Proof.
  intros Hlock Htags.
  destruct (synchronize_returns fuel this o Hlock Htags) as [[o' executed] Hret].
  exists o', executed. split; [done|]. by eapply synchronize_executed.
Qed.

Lemma flush_finish_again (pending pending' : list (tsc_logger CB)) executed :
  flush_finish pending = Ret (pending', executed) →
  flush_finish pending' = Ret (pending', []).
Proof.
  intros Hf.
  destruct (flush_finish_spec pending) as (p' & ex & Hf' & _ & _ & Hcase).
  rewrite Hf in Hf'. injection Hf' as <- <-.
  destruct Hcase as [->|(-> & -> & _)]; done.
Qed.

(** C9: after [synchronize] has returned and its guard is dropped, a
    second [synchronize] returns at once, runs no operation and leaves
    [cache_], [cpus_], [pending_] and the object's state as the first
    call left them. *)
Theorem synchronize_twice fuel fuel' this o o1 executed :
  synchronize call NCPU fuel this o = Ret (o1, executed) →
  synchronize call NCPU (S fuel') this (release o1) = Ret (o1, []).
Proof.
  intros (_ & og & Hg & Hf & ->)%synchronize_inv.
  apply gather_spec in Hg as (Hnone & _ & _ & Hl). simpl in Hl.
  apply flush_finish_again in Hf.
  unfold synchronize, sync_guard, release. cbn [sync_lock_ mbind outcome_bind].
  cbn [gather cpus_ cache_ pending_ state]. rewrite Hnone.
  cbn [mbind outcome_bind pending_]. rewrite Hf.
  cbn [mbind outcome_bind]. by rewrite Hl.
Qed.


(** ** [clear_loggers] and the destructor *)

Lemma clear_cpu_spec this cpu o o' :
  clear_cpu this cpu o = Ret o' →
  cpus_ o' = cpus_ o ∧
  ∀ cpu', obj_ (cache_ o' cpu' (hash_way this)) = obj_ (cache_ o cpu' (hash_way this)) ∧
          lock_ (cache_ o' cpu' (hash_way this)) = lock_ (cache_ o cpu' (hash_way this)).
Proof.
  unfold clear_cpu. destruct (lock_ _) eqn:Hlock; [done|].
  destruct (decide _); [|done]. intros [= <-]. simpl. split; [done|].
  intros cpu'. destruct (decide (cpu' = cpu)) as [->|Hne].
  - by rewrite set_way_same.
  - by rewrite set_way_other.
Qed.

Lemma clear_cpu_returns this cpu o :
  obj_ (cache_ o cpu (hash_way this)) = Some this →
  lock_ (cache_ o cpu (hash_way this)) = false →
  returns (clear_cpu this cpu o).
Proof.
  intros Hobj Hlock. unfold clear_cpu. rewrite Hlock, decide_True by done.
  by eexists.
Qed.

Lemma clear_pass_spec this cpus o o' :
  clear_pass this cpus o = Ret o' →
  cpus_ o' = cpus_ o ∧
  ∀ cpu', obj_ (cache_ o' cpu' (hash_way this)) = obj_ (cache_ o cpu' (hash_way this)) ∧
          lock_ (cache_ o' cpu' (hash_way this)) = lock_ (cache_ o cpu' (hash_way this)).
Proof.
  revert o. induction cpus as [|cpu cpus IH]; intros o; simpl.
  { by intros [= <-]. }
  destruct (clear_cpu this cpu o) as [o1| |] eqn:H1; [|done..]. simpl.
  intros [Hc Ht]%IH. apply clear_cpu_spec in H1 as [Hc1 Ht1].
  split; [congruence|]. intros cpu'.
  destruct (Ht cpu') as [-> ->]. apply Ht1.
Qed.

Lemma clear_pass_returns this cpus o :
  (∀ cpu, cpu ∈ cpus →
     obj_ (cache_ o cpu (hash_way this)) = Some this ∧
     lock_ (cache_ o cpu (hash_way this)) = false) →
  returns (clear_pass this cpus o).
Proof.
  revert o. induction cpus as [|cpu cpus IH]; intros o Htags; [by exists o|].
  simpl. destruct (Htags cpu) as [Hobj Hlock]; [by left|].
  destruct (clear_cpu_returns this cpu o Hobj Hlock) as [o1 H1]. rewrite H1.
  simpl. apply IH. intros cpu' Hcpu'.
  apply clear_cpu_spec in H1 as [_ Ht]. destruct (Ht cpu') as [-> ->].
  apply Htags. by right.
Qed.

(** The loop of [clear_loggers] clears no bit of [cpus_]: when a bit is
    set, the loop does not end. *)
Lemma clear_loop_never_returns fuel this o :
  bitset_elems NCPU (cpus_ o) ≠ [] → ¬ returns (clear_loop NCPU fuel this o).
Proof.
  revert o. induction fuel as [|fuel IH]; intros o Hset [o' Hret]; [done|].
  cbn [clear_loop] in Hret.
  destruct (bitset_elems NCPU (cpus_ o)) as [|cpu cpus] eqn:Hcpus; [done|].
  destruct (clear_pass this (cpu :: cpus) o) as [o1| |] eqn:H1; [|done..].
  cbn [mbind outcome_bind] in Hret.
  apply clear_pass_spec in H1 as [Hc _].
  apply (IH o1); [by rewrite Hc, Hcpus|by exists o'].
Qed.

Lemma clear_loop_spins fuel this o :
  bitset_elems NCPU (cpus_ o) ≠ [] → tags_ok NCPU this o →
  clear_loop NCPU fuel this o = Timeout.
Proof.
  revert o. induction fuel as [|fuel IH]; intros o Hset Htags; [done|].
  cbn [clear_loop]. unfold tags_ok in Htags. rewrite Forall_forall in Htags.
  destruct (bitset_elems NCPU (cpus_ o)) as [|cpu cpus] eqn:Hcpus; [done|].
  destruct (clear_pass_returns this (cpu :: cpus) o) as [o1 H1]; [done|].
  rewrite H1. cbn [mbind outcome_bind].
  apply clear_pass_spec in H1 as [Hc Ht]. apply IH.
  - by rewrite Hc, Hcpus.
  - unfold tags_ok. rewrite Hc, Hcpus. apply Forall_forall.
    intros cpu' Hcpu'. destruct (Ht cpu') as [-> ->]. by apply Htags.
Qed.

(** The destructor does not return when a bit of [cpus_] is set; when
    the ways are tagged as they should, the loop of [clear_loggers] is
    what goes on for ever. *)
Lemma destroy_never_returns fuel this o :
  bitset_elems NCPU (cpus_ o) ≠ [] → ¬ returns (destroy NCPU fuel this o).
Proof.
  intros Hset [o' Hret]. unfold destroy, clear_loggers, sync_guard in Hret.
  cbn [sync_lock_] in Hret. destruct (sync_lock_ o); [done|].
  cbn [mbind outcome_bind] in Hret.
  destruct (clear_loop NCPU fuel this _) as [o1| |] eqn:H1; [|done..].
  eapply (clear_loop_never_returns fuel this); [|by eexists]. done.
Qed.

Lemma destroy_spins fuel this o :
  bitset_elems NCPU (cpus_ o) ≠ [] → tags_ok NCPU this o →
  sync_lock_ o = false →
  destroy NCPU fuel this o = Timeout.
Proof.
  intros Hset Htags Hlock. unfold destroy, clear_loggers, sync_guard.
  cbn [sync_lock_]. rewrite Hlock. cbn [mbind outcome_bind].
  by rewrite clear_loop_spins.
Qed.

(** Without a bit set, the destructor returns with [pending_] cleared. *)
Lemma destroy_no_cpus fuel this o :
  bitset_elems NCPU (cpus_ o) = [] → sync_lock_ o = false →
  destroy NCPU (S fuel) this o
  = Ret (Obj (cache_ o) (cpus_ o) false [] (state o)).
Proof.
  intros Hnone Hlock. unfold destroy, clear_loggers, sync_guard.
  cbn [sync_lock_]. rewrite Hlock. cbn [mbind outcome_bind clear_loop cpus_].
  by rewrite Hnone.
Qed.

End object_facts.

(** ** [mfs_logged_object] *)

Section mfs_facts.
Context {CB St : Type}.
Implicit Types (m : mfs_logged_object CB St) (x : mfs_tsc).

(** A bump of the 32-bit sequence counter changes its parity, also
    when it wraps around. *)
Lemma seq_bump_even s : N.even (seq_bump s) = negb (N.even s).
Proof.
  unfold seq_bump. rewrite <- !N.negb_odd, <- !N.bit0_odd.
  rewrite N.mod_pow2_bits_low by lia.
  rewrite !N.bit0_odd, N.add_1_r, N.odd_succ, <- N.negb_odd.
  by rewrite negb_involutive.
Qed.

Lemma write_tsc_even v x : N.even (seq (write_tsc v x)) = N.even (seq x).
Proof.
  unfold write_tsc. cbn [seq tsc_value].
  by rewrite !seq_bump_even, negb_involutive.
Qed.

Lemma write_tsc_value v x : tsc_value (write_tsc v x) = v.
Proof. done. Qed.

Lemma read_retry_no_writer fuel x v :
  read_retry (S fuel) x (Reader (seq x)) v = Ret (Reader (seq x), v).
Proof. unfold read_retry, do_retry. cbn [init_]. by rewrite N.eqb_refl. Qed.

(** With even sequence counters, that is with no writer at work, the
    scan of a CPU reads neither time stamp: both loops end before their
    first turn, the values compared are the initial zeros, and the scan
    does not wait. *)
Lemma scan_cpu_no_writer fuel m i xs xe wait_tsc :
  mfs_start_tsc m !! i = Some xs → mfs_end_tsc m !! i = Some xe →
  N.even (seq xs) = true → N.even (seq xe) = true →
  scan_cpu (S fuel) m i wait_tsc = Ret (Scan 0 0 false).
Proof.
  intros Hs He Hxs Hxe. unfold scan_cpu, read_begin.
  rewrite Hs, He, Hxs, Hxe. cbn [mbind outcome_bind].
  by rewrite !read_retry_no_writer.
Qed.

Lemma scan_cpus_no_writer fuel m cpus wait_tsc :
  (∀ i, i ∈ cpus → ∃ xs xe,
     mfs_start_tsc m !! i = Some xs ∧ mfs_end_tsc m !! i = Some xe ∧
     N.even (seq xs) = true ∧ N.even (seq xe) = true) →
  scan_cpus (S fuel) m cpus wait_tsc = Ret ().
Proof.
  induction cpus as [|i cpus IH]; intros Hall; [done|].
  cbn [scan_cpus].
  destruct (Hall i) as (xs & xe & Hs & He & Hxs & Hxe); [by left|].
  rewrite (scan_cpu_no_writer _ _ _ _ _ _ Hs He Hxs Hxe).
  cbn [mbind outcome_bind]. apply IH. intros j Hj. apply Hall. by right.
Qed.

(** C10: for a CPU of the machine, [update_start_tsc] returns and
    changes the entry of that CPU in [mfs_start_tsc], storing the time
    stamp; [update_end_tsc] does the same in [mfs_end_tsc].  Everything
    else is as before: the members of [tsc_logged_object] (the cache
    with its ways and loggers, [cpus_], the sync lock, [pending_]), the
    state that logged operations act on, the entries of the other CPUs,
    and the other per-CPU variable. *)
Theorem update_tsc_frame cpu ts m :
  cpu < length (mfs_start_tsc m) → cpu < length (mfs_end_tsc m) →
  (∃ m', update_start_tsc cpu ts m = Ret m' ∧
         base m' = base m ∧ mfs_end_tsc m' = mfs_end_tsc m ∧
         (∀ j, j ≠ cpu → mfs_start_tsc m' !! j = mfs_start_tsc m !! j) ∧
         tsc_value <$> mfs_start_tsc m' !! cpu = Some ts) ∧
  (∃ m', update_end_tsc cpu ts m = Ret m' ∧
         base m' = base m ∧ mfs_start_tsc m' = mfs_start_tsc m ∧
         (∀ j, j ≠ cpu → mfs_end_tsc m' !! j = mfs_end_tsc m !! j) ∧
         tsc_value <$> mfs_end_tsc m' !! cpu = Some ts).
Proof.
  intros Hs He. unfold update_start_tsc, update_end_tsc.
  destruct (lookup_lt_is_Some_2 _ _ Hs) as [xs ->].
  destruct (lookup_lt_is_Some_2 _ _ He) as [xe ->].
  split; eexists; (split; [done|]); cbn [base mfs_start_tsc mfs_end_tsc];
    (split_and!; [done..| |]).
  - intros j Hj. by rewrite list_lookup_insert_ne.
  - by rewrite list_lookup_insert_eq.
  - intros j Hj. by rewrite list_lookup_insert_ne.
  - by rewrite list_lookup_insert_eq.
Qed.

End mfs_facts.

Section wait_synchronize_facts.
Context {CB St : Type} (call : CB → St → St).
Context `{StdSort} `{StdPriorityQueue}.
Context (NCPU : nat).
Implicit Types (m : mfs_logged_object CB St).

Lemma wait_synchronize_inv fuel this wait_tsc m m' executed :
  wait_synchronize call NCPU fuel this wait_tsc m = Ret (m', executed) →
  ∃ og,
    gather NCPU fuel this
      (Obj (cache_ (base m)) (cpus_ (base m)) true (pending_ (base m))
           (state (base m)))
    = Ret og ∧
    flush_finish_max_timestamp wait_tsc (pending_ og)
    = Ret (pending_ (base m'), executed) ∧
    state (base m') = run_all call executed (state og) ∧
    mfs_start_tsc m' = mfs_start_tsc m ∧ mfs_end_tsc m' = mfs_end_tsc m.
Proof.
  unfold wait_synchronize, sync_guard. destruct (sync_lock_ (base m)); [done|].
  cbn [mbind outcome_bind].
  destruct (scan_cpus fuel m _ wait_tsc) as [[]| |]; [|done..].
  cbn [mbind outcome_bind].
  destruct (gather NCPU fuel this _) as [og| |] eqn:Hg; [|done..].
  cbn [mbind outcome_bind].
  destruct (flush_finish_max_timestamp wait_tsc (pending_ og))
    as [[pending' ex]| |] eqn:Hf; [|done..].
  cbn [mbind outcome_bind]. intros [= <- <-]. exists og. by rewrite Hf.
Qed.

(** What a [wait_synchronize(wait_tsc)] that returned has run: the
    operations stamped before [wait_tsc] of the loggers already pending
    and of the loggers of the CPUs in [cpus_], in time stamp order. *)
Lemma wait_synchronize_executed fuel this wait_tsc m m' executed :
  wait_synchronize call NCPU fuel this wait_tsc m = Ret (m', executed) →
  executed ≡ₚ
    filter (λ o, (tsc o < wait_tsc)%N)
      (concat (ops_ <$> (pending_ (base m) ++ gathered NCPU this (base m)))) ∧
  StronglySorted tsc_le executed ∧
  state (base m') = run_all call executed (state (base m)).
Proof.
  intros (og & Hg & Hf & Hst & _)%wait_synchronize_inv.
  apply gather_spec in Hg as (_ & Hp & Hs & _). simpl in Hp, Hs.
  destruct (flush_finish_max_timestamp_spec wait_tsc (pending_ og))
    as (p' & ex & Hf' & Hso & Hil & _).
  rewrite Hf in Hf'. injection Hf' as <- <-.
  apply covered_before in Hil. rewrite Hp in Hil. by rewrite Hst, Hs.
Qed.

End wait_synchronize_facts.

(** ** The claims on the objects above *)

(** The objects of the statements are states that writers reach:
    the calls return, the bit of every CPU that logged is set, and the
    way of that CPU holds what it logged. *)
Lemma tied_object_logged :
  log_ops 0 (λ _, 1%N) [1; 2] fresh_object = Ret tied_object ∧
  cpus_ tied_object = 1%N ∧ logger_of this0 tied_object 0 = tied_logger.
Proof. by vm_compute. Qed.

Lemma unused_object_logged :
  log_ops 0 (λ _, 1%N) [] fresh_object = Ret unused_object ∧
  cpus_ unused_object = 1%N ∧ logger_of this0 unused_object 0 = Logger [].
Proof. by vm_compute. Qed.

Lemma seventeen_tied_object_logged :
  log_ops 0 (λ _, 1%N) (List.seq 1 17) fresh_object
  = Ret seventeen_tied_object ∧
  cpus_ seventeen_tied_object = 1%N ∧
  logger_of this0 seventeen_tied_object 0 = seventeen_tied_logger.
Proof. by vm_compute. Qed.

Lemma interleaved_object_logged :
  log_ops 0 (λ cb, 5 * N.of_nat cb)%N [1; 3] fresh_object
  ≫= log_ops 1 (λ cb, 5 * N.of_nat cb)%N [2]
  = Ret interleaved_object ∧
  cpus_ interleaved_object = 3%N ∧
  logger_of this0 interleaved_object 0 = Logger [Op 5 1; Op 15 3] ∧
  logger_of this0 interleaved_object 1 = Logger [Op 10 2].
Proof. by vm_compute. Qed.

(** The third scenario of the specification: an object at an address
    with the same way number calls [get_logger] on CPU 0 and evicts the
    logger of [tied_object]. *)
Lemma get_logger_evicts :
  hash_way 0x2350 = hash_way this0 ∧
  ∃ o',
    get_logger 1 0 0x2350 (λ _, false)
      (Obj (St := list nat) (cache_ tied_object) 0 false [] [])
    = Ret (o', Some (Evicted this0 tied_logger)) ∧
    cache_ o' 0 (hash_way 0x2350) = Way (Some 0x2350%N) true (Logger []) ∧
    cpus_ o' = 1%N.
Proof. split; [done|]. eexists. split; [vm_compute; reflexivity|done]. Qed.

(** C1 fails on a program built with GCC: CPU 0 pushed seventeen
    operations with time stamp 1.  The [std::sort] of libstdc++
    partitions a range of seventeen elements before it sorts by
    insertion, and the partition swaps elements that are equivalent:
    [synchronize] runs the ninth operation first and the second one
    last. *)
Lemma synchronize_ties_reordered :
  ∃ o',
    synchronize (H := libstdcxx) (H0 := list_pq) record_call 1 2 this0
      seventeen_tied_object
    = Ret (o', Op 1 <$> [9; 17; 16; 15; 14; 13; 12; 11; 10; 1; 8; 7; 6; 5; 4;
                         3; 2]) ∧
    state o' = [9; 17; 16; 15; 14; 13; 12; 11; 10; 1; 8; 7; 6; 5; 4; 3; 2] ∧
    ¬ ties_in_insertion_order
        (pending_ seventeen_tied_object
         ++ gathered 1 this0 seventeen_tied_object)
        (Op 1 <$> [9; 17; 16; 15; 14; 13; 12; 11; 10; 1; 8; 7; 6; 5; 4; 3; 2]).
Proof.
  eexists. split; [vm_compute; reflexivity|]. split; [done|].
  intros Hties. specialize (Hties 1%N). vm_compute in Hties.
  inversion Hties as [|ls i x xs m Hi _]; subst.
  destruct i as [|i]; [|by destruct i]. by simplify_eq/=.
Qed.

(** The order does not depend on the priority queue: the merge has a
    single logger to take operations from. *)
Lemma synchronize_seventeen_tied `{StdPriorityQueue} :
  ∃ o',
    synchronize (H := libstdcxx) record_call 1 2 this0 seventeen_tied_object
    = Ret (o', Op 1 <$> [9; 17; 16; 15; 14; 13; 12; 11; 10; 1; 8; 7; 6; 5; 4;
                         3; 2]).
Proof.
  destruct (synchronize_returns (H := libstdcxx) record_call 1 0 this0
              seventeen_tied_object) as [[o' executed] Hsync].
  { done. }
  { vm_compute. repeat constructor. }
  exists o'. rewrite Hsync. do 2 f_equal.
  apply synchronize_executed in Hsync as (_ & Hil & _).
  assert (ops_ ∘ sort_ops (H := libstdcxx)
          <$> (pending_ seventeen_tied_object
               ++ gathered 1 this0 seventeen_tied_object)
          = [Op 1 <$> [9; 17; 16; 15; 14; 13; 12; 11; 10; 1; 8; 7; 6; 5; 4; 3;
                       2]]) as Heq by (vm_compute; reflexivity).
  rewrite Heq in Hil. by apply interleave_singleton in Hil.
Qed.

(** With two operations of one time stamp the same sort keeps the
    order of the pushes: it sorts ranges of up to sixteen elements by
    insertion alone. *)
Lemma synchronize_two_tied :
  snd <$> synchronize (H := libstdcxx) (H0 := list_pq) record_call 1 2 this0
            tied_object
  = Ret [Op 1 1; Op 1 2].
Proof. vm_compute. reflexivity. Qed.

(** [synchronize_order] on the object of the second scenario. *)
Lemma synchronize_order_witness :
  ∃ o' executed,
    synchronize (H := reversing_sort) (H0 := list_pq) record_call 2 2 this0
      interleaved_object
    = Ret (o', executed) ∧
    StronglySorted tsc_le executed ∧
    interleave
      (ops_ ∘ sort_ops (H := reversing_sort)
       <$> (pending_ interleaved_object ++ gathered 2 this0 interleaved_object))
      executed ∧
    state o' = run_all record_call executed (state interleaved_object).
Proof.
  apply (synchronize_order (H := reversing_sort) (H0 := list_pq)
           record_call 2 0 this0 interleaved_object).
  - reflexivity.
  - vm_compute. repeat constructor.
Defined.

(** The second scenario of the specification: the operations run in
    the order of their time stamps 5, 10, 15. *)
Lemma synchronize_interleaved :
  snd <$> (synchronize (H := reversing_sort) (H0 := list_pq) record_call 2 2
             this0 interleaved_object)
  = Ret [Op 5 1; Op 10 2; Op 15 3].
Proof. vm_compute. reflexivity. Qed.

(** [synchronize_twice] on the object of the second scenario. *)
Lemma synchronize_twice_witness :
  synchronize (H := reversing_sort) (H0 := list_pq) record_call 2 1 this0
    (release (returned interleaved_object
                (synchronize (H := reversing_sort) (H0 := list_pq) record_call
                   2 2 this0 interleaved_object)))
  = Ret (returned interleaved_object
           (synchronize (H := reversing_sort) (H0 := list_pq) record_call
              2 2 this0 interleaved_object), []).
Proof.
  apply (synchronize_twice (H := reversing_sort) (H0 := list_pq)
           record_call 2 2 0 this0 interleaved_object _
           [Op 5 1; Op 10 2; Op 15 3]).
  vm_compute. reflexivity.
Defined.

(** The first scenario of the specification: one CPU logged operations
    stamped 10 and 20; they run in that order and [cpus_] ends empty. *)
Lemma synchronize_single_cpu :
  (λ r, (snd r, cpus_ (fst r), pending_ (fst r), state (fst r)))
  <$> synchronize (H := reversing_sort) (H0 := list_pq) record_call 1 2 this0
        single_cpu_object
  = Ret ([Op 10 1; Op 20 2], 0%N, [], [1; 2]).
Proof. vm_compute. reflexivity. Qed.

(** The sixth scenario of the specification: [wait_synchronize(150)]
    runs the operation stamped 100; the one stamped 200 stays in its
    pending logger. *)
Lemma wait_synchronize_defers :
  (λ r, (snd r, pending_ (base (fst r)), state (base (fst r))))
  <$> wait_synchronize (H := reversing_sort) (H0 := list_pq) record_call 2 2
        this0 150 deferring_mfs
  = Ret ([Op 100 1], [Logger [Op 200 2]], [1]).
Proof. vm_compute. reflexivity. Qed.

(** C8 at a [pending_] with one logger that holds no operation, and at
    an object whose only cached logger holds none: [flush_finish]
    returns and [pending_] still holds the logger. *)
Theorem flush_finish_keeps_empty_loggers `{StdSort} `{StdPriorityQueue} :
  flush_finish [Logger (CB := nat) []] = Ret ([Logger []], []) ∧
  ∃ o',
    synchronize record_call 1 2 this0 unused_object
    = Ret (o', []) ∧
    pending_ o' = [Logger []].
Proof. split; [done|]. eexists. split; [vm_compute; reflexivity|done]. Qed.

(** C3 at an object with the bit of CPU 0 set: the destructor does not
    return, whatever the fuel. *)
Theorem destructor_never_returns fuel :
  destroy 1 fuel this0 tied_object = Timeout.
Proof.
  apply destroy_spins; [done| |done].
  vm_compute. repeat constructor.
Qed.

(** An object in use, on a machine with two CPUs.  CPU 0 logged an
    operation stamped 100 and CPU 1 one stamped 200;
    [wait_synchronize(150)] ran the first and left the second pending;
    then CPU 0 logged an operation stamped 300, and both CPUs advertised
    time stamps. *)
Definition busy_mfs : mfs_logged_object nat (list nat) :=
  let m1 : mfs_logged_object nat (list nat) :=
    returned deferring_mfs
      (wait_synchronize (H := libstdcxx) (H0 := list_pq) record_call 2 2
         this0 150 deferring_mfs) in
  let o2 : tsc_logged_object nat (list nat) :=
    built (log_ops 0 (λ cb, 100 * N.of_nat cb)%N [3] (release (base m1))) in
  let advertise (f : mfs_logged_object nat (list nat)
                     → outcome (mfs_logged_object nat (list nat))) m :=
    match f m with Ret m' => m' | _ => m end in
  advertise (update_end_tsc 1 9)
    (advertise (update_start_tsc 1 7)
       (advertise (update_end_tsc 0 50)
          (advertise (update_start_tsc 0 100)
             (Mfs o2 (mfs_start_tsc m1) (mfs_end_tsc m1))))).

Lemma busy_mfs_in_use :
  cpus_ (base busy_mfs) = 1%N ∧ sync_lock_ (base busy_mfs) = false ∧
  pending_ (base busy_mfs) = [Logger [Op 200 2]] ∧
  state (base busy_mfs) = [1] ∧
  cache_ (base busy_mfs) 0 (hash_way this0)
  = Way (Some this0) false (Logger [Op 300 3]) ∧
  cache_ (base busy_mfs) 1 (hash_way this0)
  = Way (Some this0) false (Logger []) ∧
  mfs_start_tsc busy_mfs = [MfsTsc 100 2; MfsTsc 7 2] ∧
  mfs_end_tsc busy_mfs = [MfsTsc 50 2; MfsTsc 9 2].
Proof. by vm_compute. Qed.

(** [update_tsc_frame] on the object in use, for CPU 1: the ways, the
    bits of [cpus_], the pending logger, the state and the time stamps
    of CPU 0 stay as they are. *)
Lemma update_tsc_frame_witness :
  (∃ m', update_start_tsc 1 300 busy_mfs = Ret m' ∧
         base m' = base busy_mfs ∧
         mfs_end_tsc m' = mfs_end_tsc busy_mfs ∧
         (∀ j, j ≠ 1 → mfs_start_tsc m' !! j = mfs_start_tsc busy_mfs !! j) ∧
         tsc_value <$> mfs_start_tsc m' !! 1 = Some 300%N) ∧
  (∃ m', update_end_tsc 1 300 busy_mfs = Ret m' ∧
         base m' = base busy_mfs ∧
         mfs_start_tsc m' = mfs_start_tsc busy_mfs ∧
         (∀ j, j ≠ 1 → mfs_end_tsc m' !! j = mfs_end_tsc busy_mfs !! j) ∧
         tsc_value <$> mfs_end_tsc m' !! 1 = Some 300%N).
Proof.
  apply (update_tsc_frame 1 300 busy_mfs); vm_compute; lia.
Defined.

(** The two calls on that object, evaluated. *)
Lemma update_tsc_on_busy_mfs :
  update_start_tsc 1 300 busy_mfs
  = Ret (Mfs (base busy_mfs) [MfsTsc 100 2; MfsTsc 300 4]
             [MfsTsc 50 2; MfsTsc 9 2]) ∧
  update_end_tsc 1 300 busy_mfs
  = Ret (Mfs (base busy_mfs) [MfsTsc 100 2; MfsTsc 7 2]
             [MfsTsc 50 2; MfsTsc 300 4]).
Proof. split; vm_compute; reflexivity. Qed.

(** C4 after [update_start_tsc(0, 100)] and [update_end_tsc(0, 50)],
    with no writer at work: the scan of [wait_synchronize(150)] compares
    0 and 0 instead of the time stamps stored, and does not wait, though
    50 < 100 < 150; [wait_synchronize] returns. *)
Theorem wait_synchronize_reads_no_tsc `{StdSort} `{StdPriorityQueue} fuel :
  update_start_tsc 0 100 fresh_mfs ≫= update_end_tsc 0 50
  = Ret advertising_mfs ∧
  scan_cpu (S fuel) advertising_mfs 0 150 = Ret (Scan 0 0 false) ∧
  wait_synchronize record_call 1 (S fuel) this0 150 advertising_mfs
  = Ret (Mfs (Obj empty_cache 0 true [] []) [MfsTsc 100 2] [MfsTsc 50 2], []).
Proof.
  split; [done|]. split; [by eapply scan_cpu_no_writer|].
  unfold wait_synchronize.
  change (sync_guard (base advertising_mfs))
    with (Ret (Obj (CB := nat) (St := list nat) empty_cache 0 true [] [])).
  cbn [mbind outcome_bind].
  rewrite scan_cpus_no_writer; [done|].
  intros i ->%list_elem_of_singleton. by eexists _, _.
Qed.
(** C7 fails on a logger that is not in time stamp order: the scan stops
    at the operation stamped 20 and leaves the one stamped 3 behind
    it. *)
Lemma ops_before_max_tsc_unsorted :
  ops_before_max_tsc 10 unsorted_logger = 1 ∧
  ¬ partitions 10 unsorted_logger (ops_before_max_tsc 10 unsorted_logger).
Proof.
  split; [done|]. intros [_ Hdrop]. simpl in Hdrop.
  apply Forall_cons in Hdrop as [_ Hdrop].
  apply Forall_cons in Hdrop as [Hlt _]. simpl in Hlt. lia.
Qed.

(** [ops_before_max_tsc_prefix] on a logger in time stamp order. *)
Lemma ops_before_max_tsc_prefix_witness :
  Forall (λ o, (10 ≤ tsc o)%N)
    (drop (ops_before_max_tsc 10 sorted_logger) (ops_ sorted_logger)).
Proof.
  apply (ops_before_max_tsc_prefix 10 sorted_logger).
  unfold tsc_le. repeat constructor; simpl; lia.
Defined.

(** With an implementation of [std::sort] that keeps the order of
    equivalent elements, [sort_ops] keeps their order on this logger. *)
Lemma sort_ops_stable_here :
  keeps_tie_order (ops_ tied_logger)
    (ops_ (sort_ops (H := stable_sort) tied_logger)).
Proof. intros t. by vm_compute. Qed.

(** C6 fails on a program built with GCC: the [std::sort] of libstdc++
    leaves seventeen operations of one time stamp in another order than
    that of their pushes. *)
Lemma sort_ops_not_stable :
  ops_ (sort_ops (H := libstdcxx) seventeen_tied_logger)
  = Op 1 <$> [9; 17; 16; 15; 14; 13; 12; 11; 10; 1; 8; 7; 6; 5; 4; 3; 2] ∧
  ¬ keeps_tie_order (ops_ seventeen_tied_logger)
      (ops_ (sort_ops (H := libstdcxx) seventeen_tied_logger)).
Proof.
  split; [vm_compute; reflexivity|].
  intros Hkeep. specialize (Hkeep 1%N). by vm_compute in Hkeep.
Qed.

(** C5 at a logger without operations, on a CPU with [rdtscp]: [push]
    does not return, whatever the fuel. *)
Theorem push_never_returns_with_rdtscp fuel :
  push fuel (CpuEnv true 42) 7 (Logger (CB := nat) []) = Timeout.
Proof. unfold push. by rewrite rdtscp_recurses. Qed.

(** * Further properties of the header *)

(** ** The way number and the logger *)

(** X1: the way number that [hash_way] computes is an index into
    [ways_], which has [CACHE_SLOTS] entries. *)
Theorem hash_way_in_range (obj : N) : (hash_way obj < CACHE_SLOTS)%N.
Proof. unfold hash_way. apply N.mod_lt. unfold CACHE_SLOTS. lia. Qed.

Section logger_extras.
Context {CB : Type}.
Implicit Types (l : tsc_logger CB) (o : op CB).

(** X2: [compare_tsc] is a strict weak ordering, as [std::sort] and
    [std::is_sorted] require, and two operations are equivalent for it
    exactly when they have the same time stamp. *)
Theorem compare_tsc_ordering :
  strict_weak_order (@compare_tsc CB) ∧
  ∀ a b : op CB,
    compare_tsc a b = false ∧ compare_tsc b a = false ↔ tsc a = tsc b.
Proof.
  split.
  - unfold compare_tsc. split.
    + intros a b Hab. apply N.ltb_lt in Hab. apply N.ltb_ge. lia.
    + intros a b c Hab Hbc. apply N.ltb_ge in Hab, Hbc. apply N.ltb_ge. lia.
  - intros a b. unfold compare_tsc. rewrite !N.ltb_ge. lia.
Qed.

(** X3: the position that [ops_before_max_tsc] returns is within the
    sequence; it is [end()] exactly when every operation is stamped
    before [max_tsc], and [begin()] exactly when there is no operation
    or the first one is not stamped before [max_tsc]. *)
Theorem ops_before_max_tsc_ends max_tsc l :
  ops_before_max_tsc max_tsc l ≤ length (ops_ l) ∧
  (ops_before_max_tsc max_tsc l = length (ops_ l) ↔
   Forall (λ o, (tsc o < max_tsc)%N) (ops_ l)) ∧
  (ops_before_max_tsc max_tsc l = 0 ↔
   ∀ o, head (ops_ l) = Some o → (max_tsc ≤ tsc o)%N).
Proof.
  unfold ops_before_max_tsc. destruct l as [ops]. cbn [ops_].
  split; [apply ops_before_le|]. split.
  - induction ops as [|o ops IH]; simpl; [by split; [constructor|]|].
    destruct (N.leb_spec max_tsc (tsc o)) as [Hle|Hlt].
    + split; [done|]. intros [Hlt _]%Forall_cons. lia.
    + rewrite Forall_cons, <- IH. split; [intros [= ?]; by split|].
      intros [_ ->]. done.
  - destruct ops as [|o ops]; simpl; [by split|].
    destruct (N.leb_spec max_tsc (tsc o)) as [Hle|Hlt].
    + split; [by intros _ ? [= <-]|done].
    + split; [done|]. intros Hhead. specialize (Hhead o eq_refl). lia.
Qed.

(** X4: on a CPU without the [rdtscp] instruction [push] returns, and
    it has appended exactly one record, stamped by the serialized read
    of the counter and holding the callable, behind the records the
    logger had. *)
Theorem push_appends_one_record fuel e (cb : CB) l :
  feat_rdtscp e = false →
  push (S fuel) e cb l = Ret (Logger (ops_ l ++ [Op (rdtsc_serialized e) cb])).
Proof.
  intros He. unfold push. cbn [rdtscp]. rewrite He. done.
Qed.

(** X5: when the time stamp of a callable is not before that of the
    last record, [push_with_tsc] keeps a logger in time stamp order. *)
Theorem push_with_tsc_in_order (get_tsc : CB → N) (cb : CB) l :
  StronglySorted tsc_le (ops_ l) →
  (∀ o, last (ops_ l) = Some o → (tsc o ≤ get_tsc cb)%N) →
  StronglySorted tsc_le (ops_ (push_with_tsc get_tsc cb l)).
Proof.
  intros Hs Hlast. unfold push_with_tsc. cbn [ops_].
  apply sorting.StronglySorted_app. split_and!; [|done|repeat constructor].
  intros o1 o2 Ho1 ->%list_elem_of_singleton. unfold tsc_le. cbn [tsc].
  destruct (ops_ l) as [|o ops] using rev_ind; [by apply elem_of_nil in Ho1|].
  clear IHops. rewrite last_snoc in Hlast. specialize (Hlast o eq_refl).
  apply sorting.StronglySorted_app in Hs as (Hle & _ & _).
  apply elem_of_app in Ho1 as [Ho1| ->%list_elem_of_singleton]; [|done].
  specialize (Hle o1 o Ho1). unfold tsc_le in Hle.
  assert (o ∈ [o]) as Ho by by left. specialize (Hle Ho). lia.
Qed.

(** X23: a larger bound never gives an earlier position: the
    operations that [ops_before_max_tsc] puts before [t1] are among
    those it puts before any [t2] that is not smaller. *)
Theorem ops_before_max_tsc_mono (t1 t2 : N) (l : tsc_logger CB) :
  (t1 ≤ t2)%N → ops_before_max_tsc t1 l ≤ ops_before_max_tsc t2 l.
Proof.
  intros Ht. unfold ops_before_max_tsc.
  induction (ops_ l) as [|o ops IH]; cbn [ops_before]; [done|].
  destruct (N.leb_spec t1 (tsc o)); [lia|].
  destruct (N.leb_spec t2 (tsc o)); lia.
Qed.

End logger_extras.

(** [push_appends_one_record] on a logger with one record, with the
    counter at 42. *)
Lemma push_appends_one_record_witness :
  push 1 (CpuEnv false 42) 7 (Logger [Op 3 1])
  = Ret (Logger ([Op 3 1] ++ [Op 42 7])).
Proof.
  apply (push_appends_one_record 0 (CpuEnv false 42) 7 (Logger [Op 3 1])).
  reflexivity.
Defined.

(** [push_with_tsc_in_order] on a logger with records stamped 3 and 5
    and a callable stamped 5. *)
Lemma push_with_tsc_in_order_witness :
  StronglySorted tsc_le
    (ops_ (push_with_tsc (λ _, 5%N) 7 (Logger [Op 3 1; Op 5 2]))).
Proof.
  apply (push_with_tsc_in_order (λ _, 5%N) 7 (Logger [Op 3 1; Op 5 2])).
  - unfold tsc_le. repeat constructor; simpl; lia.
  - simpl. intros o [= <-]. simpl. lia.
Defined.

(** [ops_before_max_tsc_mono] on a logger out of time stamp order, with
    the bounds 10 and 25. *)
Lemma ops_before_max_tsc_mono_witness :
  ops_before_max_tsc 10 unsorted_logger ≤ ops_before_max_tsc 25 unsorted_logger.
Proof. apply (ops_before_max_tsc_mono 10 25 unsorted_logger). lia. Defined.

(** ** [flush_finish] and [flush_finish_max_timestamp] *)

Section flush_extras.
Context {CB : Type} `{StdSort} `{StdPriorityQueue}.
Implicit Types (pending : list (tsc_logger CB)) (executed : list (op CB)).

Lemma concat_sorted_loggers pending :
  concat (ops_ ∘ sort_ops <$> pending) ≡ₚ concat (ops_ <$> pending).
Proof.
  induction pending as [|l ls IH]; [done|].
  rewrite !fmap_cons. cbn [concat]. unfold compose at 1.
  by rewrite sort_ops_perm, IH.
Qed.

(** X6: [flush_finish] returns for every [pending_]: no iterator
    leaves its range and the assertion on [merged_ops] holds.  It runs
    every pending operation once, in non-decreasing time stamp order. *)
Theorem flush_finish_runs_all pending :
  ∃ pending' executed,
    flush_finish pending = Ret (pending', executed) ∧
    executed ≡ₚ concat (ops_ <$> pending) ∧
    StronglySorted tsc_le executed.
Proof.
  destruct (flush_finish_spec pending)
    as (pending' & executed & Hf & Hso & Hil & _).
  exists pending', executed. split_and!; [done| |done].
  by rewrite (interleave_perm _ _ Hil), concat_sorted_loggers.
Qed.

(** X7: when [flush_finish] has returned, [pending_] holds no
    operation, and a further [flush_finish] runs nothing and leaves
    [pending_] as it is. *)
Theorem flush_finish_leaves_no_ops pending pending' executed :
  flush_finish pending = Ret (pending', executed) →
  Forall (λ l, ops_ l = []) pending' ∧
  flush_finish pending' = Ret (pending', []).
Proof.
  intros Hf.
  destruct (flush_finish_spec pending) as (p' & ex & Hf' & _ & _ & Hcase).
  rewrite Hf in Hf'. injection Hf' as <- <-.
  assert (Forall (λ l, ops_ l = []) pending') as Hall.
  { by destruct Hcase as [->|(-> & _ & ?)]. }
  split; [done|]. by apply flush_finish_no_ops.
Qed.

(** The operations left pending by [flush_finish_max_timestamp]. *)
Lemma flush_finish_max_timestamp_left max_tsc pending pending' executed :
  flush_finish_max_timestamp max_tsc pending = Ret (pending', executed) →
  concat (ops_ <$> pending')
  ≡ₚ filter (λ o, (max_tsc ≤ tsc o)%N) (concat (ops_ <$> pending)) ∧
  Forall (λ l, StronglySorted tsc_le (ops_ l)) pending'.
Proof.
  intros Hf.
  destruct (flush_finish_max_timestamp_spec max_tsc pending)
    as (p' & ex & Hf' & _ & _ & Hcase).
  rewrite Hf in Hf'. injection Hf' as <- <-.
  set (kept := erased (ops_before_max_tsc max_tsc) ∘ sort_ops <$> pending) in *.
  assert (concat (ops_ <$> kept)
          ≡ₚ filter (λ o, (max_tsc ≤ tsc o)%N) (concat (ops_ <$> pending)))
    as Hkept.
  { unfold kept. rewrite <- list_fmap_compose.
    apply concat_filter_sorted. intros l. apply erased_not_before. }
  assert (Forall (λ l, StronglySorted tsc_le (ops_ l)) kept) as Hsorted.
  { apply Forall_fmap, Forall_true. intros l. unfold compose, erased.
    cbn [ops_]. rewrite <- (take_drop (ops_before_max_tsc max_tsc (sort_ops l))
                             (ops_ (sort_ops l))) at 1.
    rewrite drop_app_length'; [|by rewrite length_take_le by apply ops_before_le].
    pose proof (sort_ops_sorted l) as Hs.
    rewrite <- (take_drop (ops_before_max_tsc max_tsc (sort_ops l))) in Hs.
    by apply sorting.StronglySorted_app_1_r in Hs. }
  destruct Hcase as [->|(-> & _)]; [|done]. split.
  - rewrite <- Hkept. unfold drop_empty. clear.
    induction kept as [|l ls IH]; [done|]. rewrite filter_cons.
    destruct (decide (ops_ l ≠ [])) as [Hl|Hl]; csimpl; [by rewrite IH|].
    apply dec_stable in Hl. by rewrite Hl, IH.
  - unfold drop_empty. rewrite Forall_forall in Hsorted.
    apply Forall_forall. intros l [_ Hl]%list_elem_of_filter. by apply Hsorted.
Qed.

Lemma elem_of_concat_2 {A} (x : A) (l : list A) (ls : list (list A)) :
  x ∈ l → l ∈ ls → x ∈ concat ls.
Proof.
  intros Hx. induction ls as [|l' ls IH]; [by intros ?%elem_of_nil|].
  cbn [concat]. rewrite elem_of_app.
  intros [->|Hl]%elem_of_cons; [by left|right; by apply IH].
Qed.

Lemma filter_tsc_split max_tsc (ops : list (op CB)) :
  ops ≡ₚ filter (λ o, (tsc o < max_tsc)%N) ops
         ++ filter (λ o, (max_tsc ≤ tsc o)%N) ops.
Proof.
  induction ops as [|o ops IH]; [done|].
  destruct (N.leb_spec max_tsc (tsc o)) as [Hle|Hlt].
  - rewrite (filter_cons_False (λ o, (tsc o < max_tsc)%N)) by lia.
    rewrite (filter_cons_True (λ o, (max_tsc ≤ tsc o)%N)) by done.
    by rewrite <- Permutation_middle, <- IH.
  - rewrite (filter_cons_True (λ o, (tsc o < max_tsc)%N)) by done.
    rewrite (filter_cons_False (λ o, (max_tsc ≤ tsc o)%N)) by lia.
    simpl. by rewrite <- IH.
Qed.

(** X8: [flush_finish_max_timestamp] loses and repeats no operation:
    the operations it runs together with the ones it leaves in
    [pending_] are the operations that were pending; the ones left are
    not stamped before [max_tsc], and every logger left is in time
    stamp order. *)
Theorem flush_finish_max_timestamp_conserves max_tsc pending pending' executed :
  flush_finish_max_timestamp max_tsc pending = Ret (pending', executed) →
  executed ++ concat (ops_ <$> pending') ≡ₚ concat (ops_ <$> pending) ∧
  Forall (λ l, Forall (λ o, (max_tsc ≤ tsc o)%N) (ops_ l)) pending' ∧
  Forall (λ l, StronglySorted tsc_le (ops_ l)) pending'.
Proof.
  intros Hf.
  destruct (flush_finish_max_timestamp_left _ _ _ _ Hf) as [Hleft Hsorted].
  destruct (flush_finish_max_timestamp_spec max_tsc pending)
    as (p' & ex & Hf' & _ & Hil & _).
  rewrite Hf in Hf'. injection Hf' as <- <-.
  apply covered_before in Hil. split_and!; [|  |done].
  - rewrite Hil, Hleft. symmetry. apply filter_tsc_split.
  - apply Forall_forall. intros l Hl. apply Forall_forall. intros o Ho.
    assert (o ∈ concat (ops_ <$> pending')) as Hin.
    { apply (elem_of_concat_2 _ (ops_ l)); [done|].
      by apply list_elem_of_fmap_2. }
    rewrite Hleft in Hin. by apply list_elem_of_filter in Hin as [? _].
Qed.


Lemma flush_finish_max_timestamp_run max_tsc pending pending' executed :
  flush_finish_max_timestamp max_tsc pending = Ret (pending', executed) →
  executed ≡ₚ filter (λ o, (tsc o < max_tsc)%N) (concat (ops_ <$> pending)) ∧
  StronglySorted tsc_le executed.
Proof.
  intros Hf.
  destruct (flush_finish_max_timestamp_spec max_tsc pending)
    as (p' & ex & Hf' & Hso & Hil & _).
  rewrite Hf in Hf'. injection Hf' as <- <-.
  split; [by apply covered_before|done].
Qed.

(** X9: a [flush_finish_max_timestamp] with a bound and a later one
    with a bound that is not smaller run, one after the other, the
    pending operations stamped before the second bound in
    non-decreasing time stamp order; the operations not stamped before
    the second bound stay pending. *)
Theorem flush_finish_max_timestamp_twice t1 t2 pending p1 ex1 p2 ex2 :
  (t1 ≤ t2)%N →
  flush_finish_max_timestamp t1 pending = Ret (p1, ex1) →
  flush_finish_max_timestamp t2 p1 = Ret (p2, ex2) →
  StronglySorted tsc_le (ex1 ++ ex2) ∧
  ex1 ++ ex2 ≡ₚ filter (λ o, (tsc o < t2)%N) (concat (ops_ <$> pending)) ∧
  concat (ops_ <$> p2)
  ≡ₚ filter (λ o, (t2 ≤ tsc o)%N) (concat (ops_ <$> pending)).
Proof.
  intros Ht Hf1 Hf2.
  destruct (flush_finish_max_timestamp_run _ _ _ _ Hf1) as [Hex1 Hso1].
  destruct (flush_finish_max_timestamp_run _ _ _ _ Hf2) as [Hex2 Hso2].
  destruct (flush_finish_max_timestamp_left _ _ _ _ Hf1) as [Hleft1 _].
  destruct (flush_finish_max_timestamp_left _ _ _ _ Hf2) as [Hleft2 _].
  rewrite Hleft1 in Hex2, Hleft2. split_and!.
  - apply sorting.StronglySorted_app. split_and!; [|done..].
    intros o1 o2 Ho1 Ho2. rewrite Hex1 in Ho1. rewrite Hex2 in Ho2.
    apply list_elem_of_filter in Ho1 as [Ho1 _].
    apply list_elem_of_filter in Ho2 as [_ [Ho2 _]%list_elem_of_filter].
    unfold tsc_le. lia.
  - rewrite Hex1, Hex2.
    rewrite (filter_tsc_split t1 (concat (ops_ <$> pending))) at 3.
    rewrite filter_app, !list_filter_filter. f_equiv.
    apply Permutation_refl'. apply list_filter_iff. intros o. lia.
  - rewrite Hleft2, list_filter_filter.
    apply Permutation_refl'. apply list_filter_iff. intros o. lia.
Qed.

(** X10: when no pending operation is stamped before [max_tsc] (for
    [max_tsc] 0 always), [flush_finish_max_timestamp] runs nothing and
    removes no logger, but it has sorted every pending logger. *)
Theorem flush_finish_max_timestamp_nothing_due max_tsc pending :
  Forall (λ l, Forall (λ o, (max_tsc ≤ tsc o)%N) (ops_ l)) pending →
  flush_finish_max_timestamp max_tsc pending = Ret (sort_ops <$> pending, []).
Proof.
  intros Hall. destruct pending as [|l0 ls]; [done|].
  set (pending := l0 :: ls) in *. unfold flush_finish_max_timestamp.
  change (sort_pending_max max_tsc 0 (l0 :: ls))
    with (sort_pending_max max_tsc 0 pending).
  rewrite sort_pending_max_eq, cursors_none; [done|].
  apply Forall_fmap. eapply Forall_impl; [exact Hall|].
  intros l Hl. unfold compose, ops_before_max_tsc. cbv beta in Hl.
  rewrite <- (sort_ops_perm l) in Hl.
  destruct (ops_ (sort_ops l)) as [|o ops]; [done|]. simpl.
  apply Forall_cons in Hl as [Ho _].
  by destruct (N.leb_spec max_tsc (tsc o)); [|lia].
Qed.

End flush_extras.

(** [flush_finish_max_timestamp_conserves] on two loggers and the
    bound 12. *)
Lemma flush_finish_max_timestamp_conserves_witness :
  [Op 5 1; Op 10 2] ++ concat (ops_ <$> [Logger [Op 15 3]])
  ≡ₚ concat (ops_ <$> [Logger [Op 5 1; Op 15 3]; Logger [Op 10 2]]) ∧
  Forall (λ l, Forall (λ o, (12 ≤ tsc o)%N) (ops_ l)) [Logger [Op 15 3]] ∧
  Forall (λ l, StronglySorted tsc_le (ops_ l)) [Logger [Op 15 3]].
Proof.
  apply (flush_finish_max_timestamp_conserves (H := reversing_sort)
           (H0 := list_pq) 12
           [Logger [Op 5 1; Op 15 3]; Logger [Op 10 2]]).
  vm_compute. reflexivity.
Defined.

(** [flush_finish_leaves_no_ops] on the same loggers. *)
Lemma flush_finish_leaves_no_ops_witness :
  Forall (λ l : tsc_logger nat, ops_ l = []) [] ∧
  flush_finish (H := reversing_sort) (H0 := list_pq) (CB := nat) []
  = Ret ([], []).
Proof.
  apply (flush_finish_leaves_no_ops (H := reversing_sort) (H0 := list_pq)
           [Logger [Op 5 1; Op 15 3]; Logger [Op 10 2]] []
           [Op 5 1; Op 10 2; Op 15 3]).
  vm_compute. reflexivity.
Defined.

(** [flush_finish_max_timestamp_twice] on the same loggers, with the
    bounds 7 and 12. *)
Lemma flush_finish_max_timestamp_twice_witness :
  StronglySorted tsc_le ([Op 5 1] ++ [Op 10 2]) ∧
  [Op 5 1] ++ [Op 10 2]
  ≡ₚ filter (λ o, (tsc o < 12)%N)
       (concat (ops_ <$> [Logger [Op 5 1; Op 15 3]; Logger [Op 10 2]])) ∧
  concat (ops_ <$> [Logger [Op 15 3]])
  ≡ₚ filter (λ o, (12 ≤ tsc o)%N)
       (concat (ops_ <$> [Logger [Op 5 1; Op 15 3]; Logger [Op 10 2]])).
Proof.
  apply (flush_finish_max_timestamp_twice (H := reversing_sort)
           (H0 := list_pq) 7 12
           [Logger [Op 5 1; Op 15 3]; Logger [Op 10 2]]
           [Logger [Op 15 3]; Logger [Op 10 2]] [Op 5 1]
           [Logger [Op 15 3]] [Op 10 2]).
  - lia.
  - vm_compute. reflexivity.
  - vm_compute. reflexivity.
Defined.

(** [flush_finish_max_timestamp_nothing_due] on a logger out of time
    stamp order, with the bound 3. *)
Lemma flush_finish_max_timestamp_nothing_due_witness :
  flush_finish_max_timestamp (H := reversing_sort) (H0 := list_pq) 3
    [unsorted_logger]
  = Ret (sort_ops (H := reversing_sort) <$> [unsorted_logger], []).
Proof.
  apply (flush_finish_max_timestamp_nothing_due (H := reversing_sort)
           (H0 := list_pq) 3 [unsorted_logger]).
  repeat constructor; simpl; lia.
Defined.

(** ** [get_logger] and [synchronize] *)

Section object_extras.
Context {CB St : Type} (call : CB → St → St).
Context `{StdSort} `{StdPriorityQueue}.
Context (NCPU : nat).
Implicit Types (o : tsc_logged_object CB St) (cpus : list nat).

Lemma bitset_test_set_other b i j :
  j ≠ i → bitset_test (atomic_set b i) j = bitset_test b j.
Proof.
  intros Hne. unfold bitset_test, atomic_set. apply N.setbit_neq.
  intros Heq%Nat2N.inj. done.
Qed.

(** The ways in which [get_logger] returns: it found the way free or
    tagged for the object, or it evicted the logger of another object
    whose sync lock was free. *)
Lemma get_logger_inv fuel id this sync_locked o r :
  get_logger fuel id this sync_locked o = Ret r →
  lock_ (cache_ o id (hash_way this)) = false ∧
  ∃ l ev,
    tag_way id this l ev o = Ret r ∧
    ((ev = None ∧ l = logger_of this o id ∧
      (obj_ (cache_ o id (hash_way this)) = None ∨
       obj_ (cache_ o id (hash_way this)) = Some this)) ∨
     (∃ cur, ev = Some (Evicted cur (logger_of this o id)) ∧ l = Logger [] ∧
             obj_ (cache_ o id (hash_way this)) = Some cur ∧
             cur ≠ this ∧ sync_locked cur = false)).
Proof.
  unfold logger_of.
  induction fuel as [|fuel IH]; [done|]. cbn [get_logger].
  destruct (lock_ (cache_ o id (hash_way this))); [done|].
  destruct (obj_ (cache_ o id (hash_way this))) as [cur|] eqn:Hobj.
  - destruct (decide (cur = this)) as [->|Hne].
    + intros Hr. split; [done|]. eexists _, _. split; [exact Hr|]. left. eauto.
    + destruct (sync_locked cur) eqn:Hcur; [done|].
      intros Hr. split; [done|]. eexists _, _. split; [exact Hr|]. right.
      exists cur. done.
  - intros Hr. split; [done|]. eexists _, _. split; [exact Hr|]. left. eauto.
Qed.

(** The state in which [get_logger] returns, and what it leaves
    alone. *)
Lemma get_logger_frame fuel id this sync_locked o o' ev :
  get_logger fuel id this sync_locked o = Ret (o', ev) →
  cache_ o' id (hash_way this)
  = Way (Some this) true
      (match ev with Some _ => Logger [] | None => logger_of this o id end) ∧
  bitset_test (cpus_ o') id = true ∧
  (∀ j, j ≠ id → bitset_test (cpus_ o') j = bitset_test (cpus_ o) j) ∧
  pending_ o' = pending_ o ∧ sync_lock_ o' = sync_lock_ o ∧
  state o' = state o ∧
  (∀ cpu, cpu ≠ id → cache_ o' cpu = cache_ o cpu) ∧
  (∀ wayno, wayno ≠ hash_way this → cache_ o' id wayno = cache_ o id wayno).
Proof.
  intros (_ & l & ev' & Htag & Hcase)%get_logger_inv.
  unfold tag_way in Htag. injection Htag as <- <-.
  cbn [cache_ cpus_ pending_ sync_lock_ state]. split_and!; [| | |done..| |].
  - rewrite set_way_same.
    by destruct Hcase as [(-> & -> & _)|(cur & -> & -> & _)].
  - destruct (bitset_test (cpus_ o) id) eqn:Hbit; [done|apply bitset_test_set].
  - intros j Hj. destruct (bitset_test (cpus_ o) id); [done|].
    by apply bitset_test_set_other.
  - intros cpu Hcpu. by apply set_way_other.
  - intros wayno Hway. unfold set_way.
    by rewrite fn_lookup_insert, fn_lookup_insert_ne.
Qed.

(** X11: when [get_logger] returns on CPU [id], the way of the object
    on that CPU is tagged with the object and its lock is held, and the
    bit of the CPU is set in [cpus_].  The logger in the way is the one
    that was there, or an empty one after an eviction.  Nothing else
    changes: not the other bits, not [pending_], the sync lock or the
    object's state, not any other way. *)
Theorem get_logger_post fuel id this sync_locked o o' ev :
  get_logger fuel id this sync_locked o = Ret (o', ev) →
  cache_ o' id (hash_way this)
  = Way (Some this) true
      (match ev with Some _ => Logger [] | None => logger_of this o id end) ∧
  bitset_test (cpus_ o') id = true ∧
  (∀ j, j ≠ id → bitset_test (cpus_ o') j = bitset_test (cpus_ o) j) ∧
  pending_ o' = pending_ o ∧ sync_lock_ o' = sync_lock_ o ∧
  state o' = state o ∧
  (∀ cpu, cpu ≠ id → cache_ o' cpu = cache_ o cpu) ∧
  (∀ wayno, wayno ≠ hash_way this → cache_ o' id wayno = cache_ o id wayno).
Proof. apply get_logger_frame. Qed.

(** X12: [get_logger] returns with the way lock free on entry only,
    and drops no logged operation.  When it evicts, the way was tagged
    with another object whose sync lock was free, and the logger handed
    to [flush_logger] of that object is the one that was in the way.
    When it does not evict, the way was free or tagged with the object,
    and the logger stays in the way. *)
Theorem get_logger_evicts_safely fuel id this sync_locked o o' ev :
  get_logger fuel id this sync_locked o = Ret (o', ev) →
  lock_ (cache_ o id (hash_way this)) = false ∧
  match ev with
  | Some e =>
      obj_ (cache_ o id (hash_way this)) = Some (cur_obj e) ∧
      cur_obj e ≠ this ∧ sync_locked (cur_obj e) = false ∧
      flushed e = logger_of this o id ∧
      logger_of this o' id = Logger []
  | None =>
      (obj_ (cache_ o id (hash_way this)) = None ∨
       obj_ (cache_ o id (hash_way this)) = Some this) ∧
      logger_of this o' id = logger_of this o id
  end.
Proof.
  intros (Hlock & l & ev' & Htag & Hcase)%get_logger_inv. split; [done|].
  unfold tag_way in Htag. injection Htag as <- <-.
  destruct Hcase as [(-> & -> & Hobj)|(cur & -> & -> & Hobj & Hne & Hcur)];
    cbn [cur_obj flushed]; split_and?; try done;
    unfold logger_of; cbn [cache_]; by rewrite set_way_same.
Qed.

Lemma with_logger_way id this (f : tsc_logger CB → tsc_logger CB) o :
  cache_ (drop_logger id this (with_logger id this f o)) id (hash_way this)
  = Way (obj_ (cache_ o id (hash_way this))) false
        (f (logger_of this o id)) ∧
  (∀ cpu, cpu ≠ id →
     cache_ (drop_logger id this (with_logger id this f o)) cpu = cache_ o cpu) ∧
  cpus_ (drop_logger id this (with_logger id this f o)) = cpus_ o ∧
  pending_ (drop_logger id this (with_logger id this f o)) = pending_ o ∧
  sync_lock_ (drop_logger id this (with_logger id this f o)) = sync_lock_ o ∧
  state (drop_logger id this (with_logger id this f o)) = state o.
Proof.
  unfold drop_logger, with_logger, logger_of.
  cbn [cache_ cpus_ pending_ sync_lock_ state].
  rewrite !set_way_same. cbn [obj_ lock_ logger_]. split_and!; [done| |done..].
  intros cpu Hcpu. by rewrite !set_way_other.
Qed.

(** The tag invariant across [get_logger], calls through the handle
    and the release of the handle. *)
Lemma writer_keeps_tags fuel id this sync_locked
    (f : tsc_logger CB → tsc_logger CB) o o' ev :
  tags_ok NCPU this o →
  get_logger fuel id this sync_locked o = Ret (o', ev) →
  tags_ok NCPU this (drop_logger id this (with_logger id this f o')).
Proof.
  unfold tags_ok. rewrite !Forall_forall. intros Htags Hget cpu.
  destruct (with_logger_way id this f o') as (Hway & Hother & -> & _).
  apply get_logger_frame in Hget as (Hway' & _ & Hbits & _ & _ & _ & Hcache & _).
  intros [Hbit Hlt]%bitset_elems_spec.
  destruct (decide (cpu = id)) as [->|Hne].
  - rewrite Hway, Hway'. done.
  - rewrite Hother, Hcache by done. apply Htags, bitset_elems_spec.
    by rewrite <- Hbits.
Qed.

(** X13: a writer keeps the tag invariant that [synchronize] asserts.
    When the ways of the CPUs in [cpus_] are tagged with the object and
    unlocked, they still are after [get_logger], calls through the
    handle and the release of the handle. *)
Theorem get_logger_keeps_tags fuel id this sync_locked
    (f : tsc_logger CB → tsc_logger CB) o o' ev :
  tags_ok NCPU this o →
  get_logger fuel id this sync_locked o = Ret (o', ev) →
  tags_ok NCPU this (drop_logger id this (with_logger id this f o')).
Proof. apply writer_keeps_tags. Qed.

Lemma synchronize_runs_all fuel this o o' executed :
  synchronize call NCPU fuel this o = Ret (o', executed) →
  executed ≡ₚ concat (ops_ <$> (pending_ o ++ gathered NCPU this o)).
Proof.
  intros (_ & Hil & _)%synchronize_executed.
  rewrite (interleave_perm _ _ Hil). apply concat_sorted_loggers.
Qed.

(** X14: an operation that a writer logged is run by the next
    [synchronize].  With the sync lock free and the tag invariant, after
    [get_logger] on a CPU of the machine, [push_with_tsc] through the
    handle and the release of the handle, [synchronize] returns and has
    run that operation. *)
Theorem logged_op_is_run fuel fuel' id this sync_locked (get_tsc : CB → N)
    (cb : CB) o o1 ev :
  id < NCPU → sync_lock_ o = false → tags_ok NCPU this o →
  get_logger fuel id this sync_locked o = Ret (o1, ev) →
  ∃ o' executed,
    synchronize call NCPU (S (S fuel')) this
      (drop_logger id this (with_logger id this (push_with_tsc get_tsc cb) o1))
    = Ret (o', executed) ∧
    Op (get_tsc cb) cb ∈ executed ∧
    StronglySorted tsc_le executed.
Proof.
  intros Hid Hlock Htags Hget.
  set (o2 := drop_logger id this
               (with_logger id this (push_with_tsc get_tsc cb) o1)).
  assert (tags_ok NCPU this o2) as Htags2 by by eapply writer_keeps_tags.
  destruct (with_logger_way id this (push_with_tsc get_tsc cb) o1)
    as (Hway & _ & Hcpus & _ & Hlock2 & _). fold o2 in Hway, Hcpus, Hlock2.
  pose proof (get_logger_frame _ _ _ _ _ _ _ Hget)
    as (_ & Hbit & _ & _ & Hlock1 & _).
  destruct (synchronize_returns call NCPU fuel' this o2)
    as [[o' executed] Hsync]; [congruence|done|].
  exists o', executed. split; [done|].
  split; [|by apply synchronize_executed in Hsync as [? _]].
  rewrite (synchronize_runs_all _ _ _ _ _ Hsync).
  apply (elem_of_concat_2 _ (ops_ (logger_of this o2 id))).
  - unfold logger_of. rewrite Hway. cbn [logger_]. unfold push_with_tsc.
    cbn [ops_]. apply elem_of_app. right. by left.
  - apply list_elem_of_fmap_2, elem_of_app. right. unfold gathered.
    apply list_elem_of_fmap_2, bitset_elems_spec. by rewrite Hcpus.
Qed.

Lemma concat_perm {A} (ls ks : list (list A)) :
  ls ≡ₚ ks → concat ls ≡ₚ concat ks.
Proof.
  induction 1 as [|l ls ks _ IH|l k ls|ls ks ms _ IH1 _ IH2]; cbn [concat].
  - done.
  - by rewrite IH.
  - rewrite !(assoc (++)). f_equiv. apply Permutation_app_comm.
  - by rewrite IH1.
Qed.

Lemma bitset_elems_reset b id :
  bitset_test b id = true → id < NCPU →
  bitset_elems NCPU b ≡ₚ id :: bitset_elems NCPU (atomic_reset b id).
Proof.
  intros Hbit Hid. apply NoDup_Permutation.
  - apply bitset_elems_NoDup.
  - apply NoDup_cons. split; [|apply bitset_elems_NoDup].
    rewrite bitset_elems_spec, bitset_test_reset.
    rewrite bool_decide_eq_true_2 by done. rewrite andb_false_r.
    by intros [? _].
  - intros i. rewrite elem_of_cons, !bitset_elems_spec, bitset_test_reset.
    rewrite andb_true_iff, negb_true_iff, bool_decide_eq_false.
    destruct (decide (i = id)) as [->|Hne]; [tauto|]. tauto.
Qed.

(** X21: an eviction is invisible to the object that is evicted.
    [get_logger] of another object, on a CPU where the object has logged
    operations, moves the logger from the way to the object's [pending_]
    and clears the bit of the CPU.  The next [synchronize] of the object
    returns and runs exactly the operations it would have run without
    the eviction, in time stamp order. *)
Theorem eviction_keeps_operations fuel fuel' id this sync_locked o o' e
    (cur : tsc_logged_object CB St) :
  get_logger fuel id this sync_locked o = Ret (o', Some e) →
  hash_way (cur_obj e) = hash_way this →
  cache_ cur = cache_ o → sync_lock_ cur = sync_locked (cur_obj e) →
  tags_ok NCPU (cur_obj e) cur →
  id < NCPU → bitset_test (cpus_ cur) id = true →
  ∃ cur' executed,
    synchronize call NCPU (S (S fuel')) (cur_obj e)
      (evict id e (cache_ o') cur)
    = Ret (cur', executed) ∧
    executed
    ≡ₚ concat (ops_ <$> (pending_ cur ++ gathered NCPU (cur_obj e) cur)) ∧
    StronglySorted tsc_le executed.
Proof.
  intros Hget Hhash Hcache Hlock Htags Hid Hbit.
  pose proof (get_logger_frame _ _ _ _ _ _ _ Hget)
    as (_ & _ & _ & _ & _ & _ & Hframe & _).
  apply get_logger_inv in Hget as (_ & l & ev & Htag & Hcase).
  unfold tag_way in Htag. injection Htag as _ ->.
  destruct Hcase as [(? & _)|(c & [= He] & _ & _ & _ & Hfree)]; [done|].
  subst e. cbn [cur_obj flushed] in *.
  set (cur2 := evict id _ (cache_ o') cur).
  assert (∀ cpu, cpu ∈ bitset_elems NCPU (cpus_ cur2) →
            cpu ≠ id ∧ cpu ∈ bitset_elems NCPU (cpus_ cur)) as Hcpus.
  { intros cpu. unfold cur2, evict. cbn [cpus_].
    rewrite !bitset_elems_spec, bitset_test_reset, andb_true_iff,
      negb_true_iff, bool_decide_eq_false. tauto. }
  assert (tags_ok NCPU c cur2) as Htags2.
  { unfold tags_ok in *. rewrite Forall_forall in Htags.
    apply Forall_forall. intros cpu [Hne Hcpu]%Hcpus.
    unfold cur2, evict. cbn [cache_]. rewrite Hframe by done.
    rewrite <- Hcache. by apply Htags. }
  destruct (synchronize_returns call NCPU fuel' c cur2)
    as [[cur' executed] Hsync]; [by rewrite <- Hfree, <- Hlock|done|].
  exists cur', executed. split; [done|].
  split; [|by apply synchronize_executed in Hsync as [? _]].
  rewrite (synchronize_runs_all _ _ _ _ _ Hsync).
  apply concat_perm, fmap_Permutation.
  unfold cur2 at 1, evict, flush_logger. cbn [pending_ fst].
  rewrite <- (assoc (++)). f_equiv. cbn [app].
  assert (logger_of this o id = logger_of c cur id) as ->.
  { unfold logger_of. by rewrite Hhash, Hcache. }
  assert (gathered NCPU c cur2
          = logger_of c cur <$> bitset_elems NCPU (atomic_reset (cpus_ cur) id))
    as ->.
  { unfold gathered. apply list_fmap_ext.
    intros i cpu [Hne _]%list_elem_of_lookup_2%Hcpus.
    unfold logger_of, cur2, evict. cbn [cache_].
    by rewrite Hframe, Hcache. }
  unfold gathered. rewrite (bitset_elems_reset (cpus_ cur) id) by done.
  done.
Qed.

Lemma gather_cpu_way this cpu o o' :
  gather_cpu this cpu o = Ret o' →
  cache_ o' cpu (hash_way this) = Way (Some this) false (Logger []) ∧
  ∀ cpu' wayno, wayno ≠ hash_way this →
    cache_ o' cpu' wayno = cache_ o cpu' wayno.
Proof.
  unfold gather_cpu.
  destruct (lock_ (cache_ o cpu (hash_way this))) eqn:Hlock; [done|].
  destruct (decide _) as [Hobj|]; [|done]. intros [= <-]. cbn [cache_].
  rewrite set_way_same, Hobj. split; [done|].
  intros cpu' wayno Hne. unfold set_way.
  destruct (decide (cpu' = cpu)) as [->|Hcpu].
  - by rewrite fn_lookup_insert, fn_lookup_insert_ne.
  - by rewrite fn_lookup_insert_ne.
Qed.

Lemma gather_pass_ways this cpus o o' :
  NoDup cpus →
  gather_pass this cpus o = Ret o' →
  (∀ cpu, cpu ∈ cpus →
     cache_ o' cpu (hash_way this) = Way (Some this) false (Logger [])) ∧
  ∀ cpu wayno, wayno ≠ hash_way this →
    cache_ o' cpu wayno = cache_ o cpu wayno.
Proof.
  intros Hnd. revert o.
  induction Hnd as [|cpu cpus Hcpu Hnd IH]; intros o; cbn [gather_pass].
  { intros [= <-]. split; [|done]. by intros cpu ?%elem_of_nil. }
  destruct (gather_cpu this cpu o) as [o1| |] eqn:H1; [|done..].
  cbn [mbind outcome_bind]. intros Hrest.
  destruct (IH _ Hrest) as [Hin Hout].
  apply gather_pass_spec in Hrest as (_ & _ & _ & _ & Hcache); [|done].
  apply gather_cpu_way in H1 as [Hway Hout1]. split.
  - intros cpu' [->|Hcpu']%elem_of_cons; [|by apply Hin].
    by rewrite Hcache.
  - intros cpu' wayno Hne. by rewrite Hout, Hout1.
Qed.

Lemma gather_ways fuel this o o' :
  gather NCPU fuel this o = Ret o' →
  (∀ cpu, cpu ∈ bitset_elems NCPU (cpus_ o) →
     cache_ o' cpu (hash_way this) = Way (Some this) false (Logger [])) ∧
  (∀ cpu, cpu ∉ bitset_elems NCPU (cpus_ o) → cache_ o' cpu = cache_ o cpu) ∧
  ∀ cpu wayno, wayno ≠ hash_way this →
    cache_ o' cpu wayno = cache_ o cpu wayno.
Proof.
  destruct fuel as [|fuel]; [done|]. cbn [gather].
  destruct (bitset_elems NCPU (cpus_ o)) as [|cpu cpus] eqn:Hcpus.
  { intros [= <-]. split; [|done]. by intros cpu ?%elem_of_nil. }
  rewrite <- Hcpus.
  destruct (gather_pass this _ o) as [o1| |] eqn:H1; [|done..].
  cbn [mbind outcome_bind].
  pose proof (gather_pass_ways _ _ _ _ (bitset_elems_NoDup NCPU _) H1)
    as [Hin Hout].
  apply gather_pass_spec in H1 as (_ & Hc & _ & _ & Hcache);
    [|apply bitset_elems_NoDup].
  assert (bitset_elems NCPU (cpus_ o1) = []) as Hnone
    by (rewrite Hc; apply bitset_elems_reset_all).
  destruct fuel as [|fuel]; [done|]. cbn [gather]. rewrite Hnone.
  by intros [= <-].
Qed.

(** X15: what [synchronize] leaves behind when it returns.  The sync
    lock is held and no bit is set in [cpus_].  It has run exactly the
    logged operations, those of [pending_] and those in the ways of the
    CPUs whose bits were set, and no operation is left in [pending_].
    The ways of these CPUs are tagged, unlocked and hold an empty
    logger; the ways of the other CPUs, and the ways of other objects,
    are as before. *)
Theorem synchronize_post fuel this o o' executed :
  synchronize call NCPU fuel this o = Ret (o', executed) →
  sync_lock_ o' = true ∧
  bitset_elems NCPU (cpus_ o') = [] ∧
  executed ≡ₚ concat (ops_ <$> (pending_ o ++ gathered NCPU this o)) ∧
  Forall (λ l, ops_ l = []) (pending_ o') ∧
  (∀ cpu, cpu ∈ bitset_elems NCPU (cpus_ o) →
     cache_ o' cpu (hash_way this) = Way (Some this) false (Logger [])) ∧
  (∀ cpu, cpu ∉ bitset_elems NCPU (cpus_ o) → cache_ o' cpu = cache_ o cpu) ∧
  (∀ cpu wayno, wayno ≠ hash_way this →
     cache_ o' cpu wayno = cache_ o cpu wayno).
Proof.
  intros Hsync. pose proof (synchronize_runs_all _ _ _ _ _ Hsync) as Hall.
  apply synchronize_inv in Hsync as (_ & og & Hg & Hf & ->).
  cbn [sync_lock_ cpus_ pending_ cache_].
  pose proof (gather_ways _ _ _ _ Hg) as Hways. cbn [cpus_ cache_] in Hways.
  apply gather_spec in Hg as (Hnone & _ & _ & Hlock). cbn [sync_lock_] in Hlock.
  split_and!; [done..| |apply Hways|apply Hways|apply Hways].
  destruct (flush_finish_spec (pending_ og)) as (p' & ex & Hf' & _ & _ & Hp').
  rewrite Hf in Hf'. injection Hf' as <- <-.
  by destruct Hp' as [->|(-> & _ & ?)].
Qed.

Lemma gather_pass_asserts this cpus o :
  NoDup cpus →
  (∀ cpu, cpu ∈ cpus → lock_ (cache_ o cpu (hash_way this)) = false) →
  (∃ cpu, cpu ∈ cpus ∧ obj_ (cache_ o cpu (hash_way this)) ≠ Some this) →
  gather_pass this cpus o = Fatal.
Proof.
  intros Hnd. revert o.
  induction Hnd as [|cpu cpus Hcpu Hnd IH]; intros o Hlocks (bad & Hbad & Htag).
  { by apply elem_of_nil in Hbad. }
  cbn [gather_pass]. destruct (gather_cpu this cpu o) as [o1| |] eqn:H1.
  - cbn [mbind outcome_bind].
    apply gather_cpu_spec in H1 as Hspec. destruct Hspec as (_ & _ & _ & _ & Hc).
    assert (bad ≠ cpu) as Hne.
    { intros ->. unfold gather_cpu in H1.
      destruct (lock_ _); [done|]. by destruct (decide _). }
    apply IH.
    + intros cpu' Hcpu'. rewrite Hc; [apply Hlocks; by right|]. by intros ->.
    + exists bad. apply elem_of_cons in Hbad as [->|Hbad]; [done|].
      by rewrite Hc.
  - done.
  - unfold gather_cpu in H1. rewrite Hlocks in H1 by left.
    by destruct (decide _).
Qed.

(** X16: [synchronize] asserts that the way of every CPU in [cpus_] is
    tagged with the object.  With the locks free, when the way of some
    CPU whose bit is set carries another tag, the assertion fails. *)
Theorem synchronize_asserts_tag fuel this o cpu :
  sync_lock_ o = false →
  (∀ cpu', cpu' ∈ bitset_elems NCPU (cpus_ o) →
     lock_ (cache_ o cpu' (hash_way this)) = false) →
  cpu ∈ bitset_elems NCPU (cpus_ o) →
  obj_ (cache_ o cpu (hash_way this)) ≠ Some this →
  synchronize call NCPU (S fuel) this o = Fatal.
Proof.
  intros Hlock Hlocks Hcpu Htag. unfold synchronize, sync_guard.
  rewrite Hlock. cbn [mbind outcome_bind gather cpus_].
  destruct (bitset_elems NCPU (cpus_ o)) as [|c cpus] eqn:Hcpus.
  { by apply elem_of_nil in Hcpu. }
  rewrite <- Hcpus in *. rewrite gather_pass_asserts; [done| | |].
  - apply bitset_elems_NoDup.
  - done.
  - by exists cpu.
Qed.

(** X17: [clear_loggers] returns only on an object with no bit set in
    [cpus_] (and the sync lock free), and it leaves such an object as it
    was: the loop clears no bit of [cpus_], so with a bit set it has no
    way out. *)
Theorem clear_loggers_returns_iff fuel this o o' :
  clear_loggers NCPU fuel this o = Ret o' ↔
  0 < fuel ∧ sync_lock_ o = false ∧ bitset_elems NCPU (cpus_ o) = [] ∧ o' = o.
Proof.
  unfold clear_loggers, sync_guard. split.
  - destruct (sync_lock_ o) eqn:Hlock; [done|]. cbn [mbind outcome_bind].
    destruct (clear_loop NCPU fuel this _) as [o1| |] eqn:Hloop; [|done..].
    cbn [mbind outcome_bind]. intros [= <-].
    destruct (decide (bitset_elems NCPU (cpus_ o) = [])) as [Hnone|Hsome].
    + destruct fuel as [|fuel]; [done|]. cbn [clear_loop cpus_] in Hloop.
      rewrite Hnone in Hloop. injection Hloop as <-.
      split_and!; [lia|done..|]. unfold release. cbn. rewrite <- Hlock.
      by destruct o.
    + exfalso. eapply (clear_loop_never_returns NCPU fuel this); [|by eexists].
      done.
  - intros (Hfuel & Hlock & Hnone & ->). rewrite Hlock.
    cbn [mbind outcome_bind]. destruct fuel as [|fuel]; [lia|].
    cbn [clear_loop cpus_]. rewrite Hnone. cbn [mbind outcome_bind].
    unfold release. cbn. rewrite <- Hlock. by destruct o.
Qed.

(** X22: [get_logger] returns exactly when the lock of the way is free
    and the way is free, tagged with the object, or tagged with an
    object whose sync lock is free.  While the sync lock of the object
    in the way is held, every attempt jumps to [back_out]. *)
Theorem get_logger_returns_iff fuel id this sync_locked o :
  returns (get_logger fuel id this sync_locked o) ↔
  0 < fuel ∧ lock_ (cache_ o id (hash_way this)) = false ∧
  ∀ cur, obj_ (cache_ o id (hash_way this)) = Some cur →
         cur ≠ this → sync_locked cur = false.
Proof.
  split.
  - intros [r Hr]. split; [destruct fuel; [done|lia]|].
    apply get_logger_inv in Hr as (Hlock & l & ev & _ & Hcase).
    split; [done|]. intros cur Hcur Hne.
    destruct Hcase as [(_ & _ & [Hobj|Hobj])|(c & _ & _ & Hobj & _ & Hfree)];
      congruence.
  - intros (Hfuel & Hlock & Hfree). destruct fuel as [|fuel]; [lia|].
    cbn [get_logger]. rewrite Hlock.
    destruct (obj_ (cache_ o id (hash_way this))) as [cur|]; [|by eexists].
    destruct (decide (cur = this)) as [->|Hne]; [by eexists|].
    rewrite (Hfree cur) by done. by eexists.
Qed.

End object_extras.

(** [get_logger_post] on a fresh object: CPU 0 takes its logger. *)
Lemma get_logger_post_witness :
  let o' := returned fresh_object
              (get_logger 1 0 this0 (λ _, false) fresh_object) in
  cache_ o' 0 (hash_way this0)
  = Way (Some this0) true (logger_of this0 fresh_object 0) ∧
  bitset_test (cpus_ o') 0 = true ∧
  (∀ j, j ≠ 0 → bitset_test (cpus_ o') j = bitset_test (cpus_ fresh_object) j) ∧
  pending_ o' = pending_ fresh_object ∧
  sync_lock_ o' = sync_lock_ fresh_object ∧
  state o' = state fresh_object ∧
  (∀ cpu, cpu ≠ 0 → cache_ o' cpu = cache_ fresh_object cpu) ∧
  (∀ wayno, wayno ≠ hash_way this0 →
     cache_ o' 0 wayno = cache_ fresh_object 0 wayno).
Proof.
  intros o'.
  apply (get_logger_post 1 0 this0 (λ _, false) fresh_object o' None).
  vm_compute. reflexivity.
Defined.

(** [get_logger_evicts_safely] where an object with the same way
    number evicts the logger of [tied_object] on CPU 0. *)
Lemma get_logger_evicts_safely_witness :
  let o := Obj (St := list nat) (cache_ tied_object) 0 false [] [] in
  let o' := returned o (get_logger 1 0 0x2350 (λ _, false) o) in
  lock_ (cache_ o 0 (hash_way 0x2350)) = false ∧
  obj_ (cache_ o 0 (hash_way 0x2350)) = Some this0 ∧
  this0 ≠ 0x2350%N ∧ (λ _ : N, false) this0 = false ∧
  tied_logger = logger_of 0x2350 o 0 ∧
  logger_of 0x2350 o' 0 = Logger [].
Proof.
  intros o o'.
  apply (get_logger_evicts_safely 1 0 0x2350 (λ _, false) o o'
           (Some (Evicted this0 tied_logger))).
  vm_compute. reflexivity.
Defined.

(** [get_logger_keeps_tags] for another push on CPU 0 of
    [tied_object]. *)
Lemma get_logger_keeps_tags_witness :
  tags_ok 1 this0
    (drop_logger 0 this0
       (with_logger 0 this0 (push_with_tsc (λ _, 7%N) 3)
          (returned tied_object
             (get_logger 1 0 this0 (λ _, false) tied_object)))).
Proof.
  apply (get_logger_keeps_tags 1 1 0 this0 (λ _, false)
           (push_with_tsc (λ _, 7%N) 3) tied_object _ None).
  - vm_compute. repeat constructor.
  - vm_compute. reflexivity.
Defined.

(** [logged_op_is_run] for another push on CPU 0 of [tied_object]. *)
Lemma logged_op_is_run_witness :
  ∃ o' executed,
    synchronize (H := reversing_sort) (H0 := list_pq) record_call 1 2 this0
      (drop_logger 0 this0
         (with_logger 0 this0 (push_with_tsc (λ _, 7%N) 3)
            (returned tied_object
               (get_logger 1 0 this0 (λ _, false) tied_object))))
    = Ret (o', executed) ∧
    Op 7 3 ∈ executed ∧
    StronglySorted tsc_le executed.
Proof.
  apply (logged_op_is_run (H := reversing_sort) (H0 := list_pq) record_call
           1 1 0 0 this0 (λ _, false) (λ _, 7%N) 3 tied_object _ None).
  - lia.
  - reflexivity.
  - vm_compute. repeat constructor.
  - vm_compute. reflexivity.
Defined.

(** [synchronize_post] on the object of the second scenario. *)
Lemma synchronize_post_witness :
  let o' := returned interleaved_object
              (synchronize (H := reversing_sort) (H0 := list_pq) record_call
                 2 2 this0 interleaved_object) in
  sync_lock_ o' = true ∧
  bitset_elems 2 (cpus_ o') = [] ∧
  [Op 5 1; Op 10 2; Op 15 3]
  ≡ₚ concat (ops_ <$> (pending_ interleaved_object
                       ++ gathered 2 this0 interleaved_object)) ∧
  Forall (λ l, ops_ l = []) (pending_ o') ∧
  (∀ cpu, cpu ∈ bitset_elems 2 (cpus_ interleaved_object) →
     cache_ o' cpu (hash_way this0) = Way (Some this0) false (Logger [])) ∧
  (∀ cpu, cpu ∉ bitset_elems 2 (cpus_ interleaved_object) →
     cache_ o' cpu = cache_ interleaved_object cpu) ∧
  (∀ cpu wayno, wayno ≠ hash_way this0 →
     cache_ o' cpu wayno = cache_ interleaved_object cpu wayno).
Proof.
  intros o'.
  apply (synchronize_post (H := reversing_sort) (H0 := list_pq) record_call
           2 2 this0 interleaved_object o' [Op 5 1; Op 10 2; Op 15 3]).
  vm_compute. reflexivity.
Defined.

(** [synchronize_asserts_tag] on an object whose bit for CPU 0 is set
    while no way is tagged. *)
Lemma synchronize_asserts_tag_witness :
  synchronize (H := reversing_sort) (H0 := list_pq) record_call 1 1 this0
    (Obj empty_cache 1 false [] [])
  = Fatal.
Proof.
  apply (synchronize_asserts_tag (H := reversing_sort) (H0 := list_pq)
           record_call 1 0 this0 (Obj empty_cache 1 false [] []) 0).
  - reflexivity.
  - intros cpu' _. reflexivity.
  - vm_compute. left.
  - discriminate.
Defined.

(** [eviction_keeps_operations] where an object with the same way
    number evicts the logger of [tied_object] on CPU 0. *)
Lemma eviction_keeps_operations_witness :
  ∃ cur' executed,
    synchronize (H := reversing_sort) (H0 := list_pq) record_call 1 2 this0
      (evict 0 (Evicted this0 tied_logger)
         (cache_ (returned tied_object
                    (get_logger 1 0 0x2350 (λ _, false) tied_object)))
         tied_object)
    = Ret (cur', executed) ∧
    executed
    ≡ₚ concat (ops_ <$> (pending_ tied_object
                         ++ gathered 1 this0 tied_object)) ∧
    StronglySorted tsc_le executed.
Proof.
  apply (eviction_keeps_operations (H := reversing_sort) (H0 := list_pq)
           record_call 1 1 0 0 0x2350 (λ _, false) tied_object
           (returned tied_object
              (get_logger 1 0 0x2350 (λ _, false) tied_object))
           (Evicted this0 tied_logger) tied_object).
  - vm_compute. reflexivity.
  - reflexivity.
  - reflexivity.
  - reflexivity.
  - vm_compute. repeat constructor.
  - lia.
  - reflexivity.
Defined.

(** ** [wait_synchronize] *)

Section wait_synchronize_extras.
Context {CB St : Type} (call : CB → St → St).
Context `{StdSort} `{StdPriorityQueue}.
Context (NCPU : nat).
Implicit Types (m : mfs_logged_object CB St).

Lemma wait_synchronize_base fuel this wait_tsc m m' executed :
  wait_synchronize call NCPU fuel this wait_tsc m = Ret (m', executed) →
  sync_lock_ (base m) = false ∧
  ∃ og,
    gather NCPU fuel this
      (Obj (cache_ (base m)) (cpus_ (base m)) true (pending_ (base m))
           (state (base m)))
    = Ret og ∧
    flush_finish_max_timestamp wait_tsc (pending_ og)
    = Ret (pending_ (base m'), executed) ∧
    m' = Mfs (Obj (cache_ og) (cpus_ og) (sync_lock_ og) (pending_ (base m'))
                  (run_all call executed (state og)))
             (mfs_start_tsc m) (mfs_end_tsc m).
Proof.
  unfold wait_synchronize, sync_guard.
  destruct (sync_lock_ (base m)); [done|]. cbn [mbind outcome_bind].
  destruct (scan_cpus fuel m _ wait_tsc) as [[]| |]; [|done..].
  cbn [mbind outcome_bind].
  destruct (gather NCPU fuel this _) as [og| |] eqn:Hg; [|done..].
  cbn [mbind outcome_bind].
  destruct (flush_finish_max_timestamp wait_tsc (pending_ og))
    as [[pending' ex]| |] eqn:Hf; [|done..].
  cbn [mbind outcome_bind]. intros [= <- <-]. split; [done|].
  exists og. by rewrite Hf.
Qed.

(** X18: what [wait_synchronize(wait_tsc)] leaves behind when it
    returns.  The sync lock is held, no bit is set in [cpus_], and the
    time stamps that the CPUs advertise are untouched.  It has run, in
    time stamp order, the logged operations stamped before [wait_tsc];
    the logged operations stamped [wait_tsc] or later are all kept in
    [pending_], in loggers sorted by time stamp. *)
Theorem wait_synchronize_post fuel this wait_tsc m m' executed :
  wait_synchronize call NCPU fuel this wait_tsc m = Ret (m', executed) →
  sync_lock_ (base m') = true ∧
  bitset_elems NCPU (cpus_ (base m')) = [] ∧
  mfs_start_tsc m' = mfs_start_tsc m ∧ mfs_end_tsc m' = mfs_end_tsc m ∧
  StronglySorted tsc_le executed ∧
  executed ≡ₚ
    filter (λ o, (tsc o < wait_tsc)%N)
      (concat (ops_ <$> (pending_ (base m) ++ gathered NCPU this (base m)))) ∧
  concat (ops_ <$> pending_ (base m')) ≡ₚ
    filter (λ o, (wait_tsc ≤ tsc o)%N)
      (concat (ops_ <$> (pending_ (base m) ++ gathered NCPU this (base m)))) ∧
  Forall (λ l, StronglySorted tsc_le (ops_ l)) (pending_ (base m')) ∧
  state (base m') = run_all call executed (state (base m)).
Proof.
  intros (_ & og & Hg & Hf & Hm')%wait_synchronize_base.
  apply gather_spec in Hg as (Hnone & Hp & Hs & Hlock).
  cbn [pending_ state sync_lock_] in Hp, Hs, Hlock.
  destruct (flush_finish_max_timestamp_run _ _ _ _ Hf) as [Hex Hso].
  destruct (flush_finish_max_timestamp_left _ _ _ _ Hf) as [Hleft Hsorted].
  rewrite Hp in Hex, Hleft.
  split_and!; [| | | |done..|]; rewrite Hm'; cbn; congruence.
Qed.

(** With the sync lock free and no bit set in [cpus_], [synchronize]
    returns after one look at [cpus_]. *)
Lemma synchronize_returns_no_bits fuel this (o : tsc_logged_object CB St) :
  sync_lock_ o = false → bitset_elems NCPU (cpus_ o) = [] →
  returns (synchronize call NCPU (S fuel) this o).
Proof.
  intros Hlock Hnone. unfold synchronize, sync_guard. rewrite Hlock.
  cbn [mbind outcome_bind gather cpus_]. rewrite Hnone.
  cbn [mbind outcome_bind pending_].
  destruct (flush_finish_spec (pending_ o)) as (p' & ex & Hff & _).
  rewrite Hff. by eexists.
Qed.

(** X19: the operations that [wait_synchronize(wait_tsc)] defers are
    run by the next [synchronize].  After [wait_synchronize] has
    returned and its guard is dropped, [synchronize] returns; together
    the two calls have run every logged operation once, those of the
    first call before those of the second, and the whole sequence is in
    time stamp order. *)
Theorem wait_synchronize_then_synchronize fuel fuel' this wait_tsc m m1 ex1 :
  wait_synchronize call NCPU fuel this wait_tsc m = Ret (m1, ex1) →
  ∃ o2 ex2,
    synchronize call NCPU (S fuel') this (release (base m1)) = Ret (o2, ex2) ∧
    StronglySorted tsc_le (ex1 ++ ex2) ∧
    ex1 ++ ex2
    ≡ₚ concat (ops_ <$> (pending_ (base m) ++ gathered NCPU this (base m))) ∧
    state o2 = run_all call (ex1 ++ ex2) (state (base m)).
Proof.
  intros Hwait.
  pose proof (wait_synchronize_base _ _ _ _ _ _ Hwait)
    as (_ & og & Hg & Hf & Hm1).
  apply gather_spec in Hg as (Hnone & Hp & Hs & _).
  cbn [pending_ state] in Hp, Hs.
  destruct (flush_finish_max_timestamp_run _ _ _ _ Hf) as [Hex1 Hso1].
  destruct (flush_finish_max_timestamp_left _ _ _ _ Hf) as [Hleft _].
  rewrite Hp in Hex1, Hleft.
  assert (bitset_elems NCPU (cpus_ (release (base m1))) = []) as Hnone1.
  { unfold release. cbn [cpus_]. rewrite Hm1. by cbn [base cpus_]. }
  destruct (synchronize_returns_no_bits fuel' this (release (base m1)))
    as [[o2 ex2] Hsync]; [done..|].
  exists o2, ex2. split; [done|].
  pose proof (synchronize_executed _ _ _ _ _ _ _ Hsync) as (Hso2 & Hil & Hst).
  assert (gathered NCPU this (release (base m1)) = []) as Hnil.
  { unfold gathered. by rewrite Hnone1. }
  rewrite Hnil, app_nil_r in Hil. apply interleave_perm in Hil.
  rewrite concat_sorted_loggers in Hil. cbn [release pending_] in Hil.
  rewrite Hleft in Hil. split_and!.
  - apply sorting.StronglySorted_app. split_and!; [|done..].
    intros a b Ha Hb. rewrite Hex1 in Ha. rewrite Hil in Hb.
    apply list_elem_of_filter in Ha as [Ha _].
    apply list_elem_of_filter in Hb as [Hb _]. unfold tsc_le. lia.
  - rewrite Hex1, Hil. symmetry. apply filter_tsc_split.
  - rewrite Hst. cbn [release state]. rewrite Hm1. cbn [base state].
    unfold run_all. by rewrite foldl_app, Hs.
Qed.

(** X20: [wait_synchronize] returns when nothing holds it up: the sync
    lock is free, the ways of the CPUs in [cpus_] are tagged with the
    object and unlocked, and the sequence counter of every advertised
    time stamp is even, that is no write to it is under way. *)
Theorem wait_synchronize_returns fuel this wait_tsc m :
  sync_lock_ (base m) = false → tags_ok NCPU this (base m) →
  NCPU ≤ length (mfs_start_tsc m) → NCPU ≤ length (mfs_end_tsc m) →
  Forall (λ x, N.even (seq x) = true) (mfs_start_tsc m) →
  Forall (λ x, N.even (seq x) = true) (mfs_end_tsc m) →
  returns (wait_synchronize call NCPU (S (S fuel)) this wait_tsc m).
Proof.
  intros Hlock Htags Hls Hle Hes Hee. unfold wait_synchronize, sync_guard.
  rewrite Hlock. cbn [mbind outcome_bind].
  rewrite scan_cpus_no_writer; last first.
  { intros i [_ Hi]%elem_of_seq.
    destruct (lookup_lt_is_Some_2 (mfs_start_tsc m) i) as [xs Hxs]; [lia|].
    destruct (lookup_lt_is_Some_2 (mfs_end_tsc m) i) as [xe Hxe]; [lia|].
    exists xs, xe. split_and!; [done..| |].
    - by eapply (Forall_lookup_1 _ _ _ _ Hes).
    - by eapply (Forall_lookup_1 _ _ _ _ Hee). }
  cbn [mbind outcome_bind].
  destruct (gather_returns NCPU fuel this
              (Obj (cache_ (base m)) (cpus_ (base m)) true (pending_ (base m))
                   (state (base m)))) as [og Hg]; [done|].
  rewrite Hg. cbn [mbind outcome_bind].
  destruct (flush_finish_max_timestamp_spec wait_tsc (pending_ og))
    as (p' & ex & Hf & _).
  rewrite Hf. cbn [mbind outcome_bind]. by eexists.
Qed.

End wait_synchronize_extras.

(** [wait_synchronize_post] on the object of the sixth scenario, with
    the bound 150. *)
Lemma wait_synchronize_post_witness :
  let m' := returned deferring_mfs
              (wait_synchronize (H := reversing_sort) (H0 := list_pq)
                 record_call 2 2 this0 150 deferring_mfs) in
  sync_lock_ (base m') = true ∧
  bitset_elems 2 (cpus_ (base m')) = [] ∧
  mfs_start_tsc m' = mfs_start_tsc deferring_mfs ∧
  mfs_end_tsc m' = mfs_end_tsc deferring_mfs ∧
  StronglySorted tsc_le [Op 100 1] ∧
  [Op 100 1] ≡ₚ
    filter (λ o, (tsc o < 150)%N)
      (concat (ops_ <$> (pending_ (base deferring_mfs)
                         ++ gathered 2 this0 (base deferring_mfs)))) ∧
  concat (ops_ <$> pending_ (base m')) ≡ₚ
    filter (λ o, (150 ≤ tsc o)%N)
      (concat (ops_ <$> (pending_ (base deferring_mfs)
                         ++ gathered 2 this0 (base deferring_mfs)))) ∧
  Forall (λ l, StronglySorted tsc_le (ops_ l)) (pending_ (base m')) ∧
  state (base m') = run_all record_call [Op 100 1] (state (base deferring_mfs)).
Proof.
  intros m'.
  apply (wait_synchronize_post (H := reversing_sort) (H0 := list_pq)
           record_call 2 2 this0 150 deferring_mfs m' [Op 100 1]).
  vm_compute. reflexivity.
Defined.

(** [wait_synchronize_then_synchronize] on the same object: the
    operation stamped 200 is run by the later [synchronize]. *)
Lemma wait_synchronize_then_synchronize_witness :
  ∃ o2 ex2,
    synchronize (H := libstdcxx) (H0 := list_pq) record_call 2 1 this0
      (release (base (returned deferring_mfs
         (wait_synchronize (H := libstdcxx) (H0 := list_pq)
            record_call 2 2 this0 150 deferring_mfs))))
    = Ret (o2, ex2) ∧
    StronglySorted tsc_le ([Op 100 1] ++ ex2) ∧
    [Op 100 1] ++ ex2
    ≡ₚ concat (ops_ <$> (pending_ (base deferring_mfs)
                         ++ gathered 2 this0 (base deferring_mfs))) ∧
    state o2
    = run_all record_call ([Op 100 1] ++ ex2) (state (base deferring_mfs)).
Proof.
  apply (wait_synchronize_then_synchronize (H := libstdcxx)
           (H0 := list_pq) record_call 2 2 0 this0 150 deferring_mfs
           (returned deferring_mfs
              (wait_synchronize (H := libstdcxx) (H0 := list_pq)
                 record_call 2 2 this0 150 deferring_mfs))
           [Op 100 1]).
  vm_compute. reflexivity.
Defined.

(** The later [synchronize] on that object, evaluated: it runs the
    operation stamped 200. *)
Lemma synchronize_after_wait_synchronize :
  (λ r, (snd r, pending_ (fst r), state (fst r)))
  <$> synchronize (H := libstdcxx) (H0 := list_pq) record_call 2 1 this0
        (release (base (returned deferring_mfs
           (wait_synchronize (H := libstdcxx) (H0 := list_pq)
              record_call 2 2 this0 150 deferring_mfs))))
  = Ret ([Op 200 2], [], [1; 2]).
Proof. vm_compute. reflexivity. Qed.

(** [wait_synchronize_returns] on the same object. *)
Lemma wait_synchronize_returns_witness :
  returns (wait_synchronize (H := reversing_sort) (H0 := list_pq) record_call
             2 2 this0 150 deferring_mfs).
Proof.
  apply (wait_synchronize_returns (H := reversing_sort) (H0 := list_pq)
           record_call 2 0 this0 150 deferring_mfs).
  - reflexivity.
  - vm_compute. repeat constructor.
  - vm_compute. lia.
  - vm_compute. lia.
  - repeat constructor.
  - repeat constructor.
Defined.
